(** * ProductiveMayo: the efficiency score and its daily update

    A shallow embedding of [src/lib/efficiency.ts] ([calculateEfficiency],
    [updateDailyEfficiency]) and of its callers: the task-completion toggle
    of the calendar component ([toggleTaskCompletion]) and the end of an
    interval of the focus timer ([handleTimerEnd]); then of the week the
    calendar loads, of the streak of the analytics page and of the
    completion rate of the insights function.

    TypeScript's [number] is an IEEE 754 binary64 value.  It is modelled by
    the Standard Library's [spec_float] at precision 53 and maximal exponent
    1024, so every arithmetic operation below rounds exactly as the
    JavaScript engine does. *)

From Stdlib Require Import ZArith Bool List Lia QArith Lqa Qpower Qabs Qminmax.
From Stdlib Require Import Floats.SpecFloat.
Import ListNotations.

Open Scope Z_scope.

(** ** JavaScript numbers *)

Module JS.

Definition prec : Z := 53.

Definition emax : Z := 1024.

Definition number : Type := spec_float.

(** The number denoted by an integer literal (or by an integer that reaches
    the program from outside): the nearest binary64 value. *)
Definition of_Z (z : Z) : number := binary_normalize prec emax z 0 false.

Definition add : number -> number -> number := SFadd prec emax.

Definition sub : number -> number -> number := SFsub prec emax.

Definition mul : number -> number -> number := SFmul prec emax.

Definition div : number -> number -> number := SFdiv prec emax.

(** [a === b], [a < b] and [a > b] on numbers. *)
Definition eqb (a b : number) : bool := SFeqb a b.

Definition ltb (a b : number) : bool := SFltb a b.

Definition gtb (a b : number) : bool := SFltb b a.

(** A decimal literal [n/d] whose numerator and denominator are exact
    binary64 integers denotes the binary64 value nearest to the quotient,
    which is what one correctly rounded division yields. *)
Definition decimal (n d : Z) : number := div (of_Z n) (of_Z d).

(** [Math.min] and [Math.max] of two arguments: NaN is contagious and
    [-0] is below [+0]. *)
Definition Math_min (a b : number) : number :=
  match SFcompare a b with
  | None => S754_nan
  | Some Lt => a
  | Some Gt => b
  | Some Eq => match a with S754_zero true => a | _ => b end
  end.

Definition Math_max (a b : number) : number :=
  match SFcompare a b with
  | None => S754_nan
  | Some Gt => a
  | Some Lt => b
  | Some Eq => match a with S754_zero false => a | _ => b end
  end.

(** The integer [floor (x + 1/2)] for the finite value [(-1)^s * m * 2^e],
    computed exactly. *)
Definition round_half_up (s : bool) (m : positive) (e : Z) : Z :=
  let v := cond_Zopp s (Zpos m) in
  match e with
  | Z0 => v
  | Zpos _ => v * 2 ^ e
  | Zneg _ => (v + 2 ^ (- e - 1)) / 2 ^ (- e)
  end.

(** [Math.round]: the integral number nearest to [x], ties towards
    [+Infinity]; NaN, infinities and zeros are returned as they are, and a
    result of zero keeps the sign of [x]. *)
Definition Math_round (x : number) : number :=
  match x with
  | S754_finite s m e =>
      match round_half_up s m e with
      | Z0 => S754_zero s
      | n => of_Z n
      end
  | _ => x
  end.

(** [v || 0] for a possibly missing numeric field: [null], [undefined],
    zeros and NaN are falsy. *)
Definition or_zero (v : option number) : number :=
  match v with
  | None => of_Z 0
  | Some (S754_zero _) => of_Z 0
  | Some S754_nan => of_Z 0
  | Some x => x
  end.

(** A nullable numeric column used in arithmetic without a guard: [null]
    converts to [+0]. *)
Definition of_nullable (v : option number) : number :=
  match v with
  | None => of_Z 0
  | Some x => x
  end.

(** A number as it reaches the store.  The client sends the body of a
    request through [JSON.stringify], which writes NaN and the infinities
    as [null] and [-0] as [0]; every other number is written, and read
    back, as it is. *)
Definition to_json (x : number) : option number :=
  match x with
  | S754_nan => None
  | S754_infinity _ => None
  | S754_zero _ => Some (S754_zero false)
  | S754_finite _ _ _ => Some x
  end.

End JS.

Declare Scope js_scope.
Delimit Scope js_scope with js.
Infix "+" := JS.add : js_scope.
Infix "-" := JS.sub : js_scope.
Infix "*" := JS.mul : js_scope.
Infix "/" := JS.div : js_scope.
Infix "===" := JS.eqb (at level 70, no associativity) : js_scope.
Infix "<" := JS.ltb : js_scope.
Infix ">" := JS.gtb : js_scope.
Notation "$ z" := (JS.of_Z z) (at level 1, format "$ z") : js_scope.

(** ** The efficiency calculator *)

Record EfficiencyParams : Type := {
  tasksPlanned : option JS.number;
  tasksCompleted : JS.number;
  pomodorosSessions : JS.number;
  focusTime : JS.number
}.

Section Calculator.
Local Open Scope js_scope.

(** The three components of the score, as the source computes them before
    weighting.  Each is evaluated only under the guard of its [if]. *)

(** Component 1, [tasksCompleted > 0]. *)
Definition taskScore (tasksPlanned tasksCompleted : JS.number) : JS.number :=
  if tasksPlanned > $0 then
    JS.Math_min $100 ((tasksCompleted / tasksPlanned) * $100)
  else
    JS.Math_min $100 (tasksCompleted * $20).

(** Component 2, [pomodorosSessions > 0]; ideal range 6 to 10. *)
Definition pomodoroScore (pomodorosSessions : JS.number) : JS.number :=
  if pomodorosSessions < $6 then
    (pomodorosSessions / $6) * $100
  else if pomodorosSessions > $10 then
    JS.Math_max $70 ($100 - (pomodorosSessions - $10) * $5)
  else $100.

(** Component 3, [focusTime > 0]; ideal range 120 to 360 minutes. *)
Definition focusScore (focusTime : JS.number) : JS.number :=
  if focusTime < $120 then
    (focusTime / $120) * $100
  else if focusTime > $360 then
    JS.Math_max $80 ($100 - ((focusTime - $360) / $60) * $3)
  else $100.

(** The literals [0.35] and [0.30]. *)
Definition w35 : JS.number := JS.decimal 35 100.

Definition w30 : JS.number := JS.decimal 30 100.

(** The running sum [efficiency] after each of the three [if] blocks. *)
Definition afterTasks (tp tc : JS.number) : JS.number :=
  let efficiency := $0 in
  if tc > $0 then efficiency + taskScore tp tc * w35 else efficiency.

Definition afterPomodoros (efficiency p : JS.number) : JS.number :=
  if p > $0 then efficiency + pomodoroScore p * w35 else efficiency.

Definition afterFocus (efficiency f : JS.number) : JS.number :=
  if f > $0 then efficiency + focusScore f * w30 else efficiency.

Definition calculateEfficiency (params : EfficiencyParams) : JS.number :=
  let tp := match tasksPlanned params with Some v => v | None => $0 end in
  let tc := tasksCompleted params in
  let p := pomodorosSessions params in
  let f := focusTime params in
  if (tc === $0) && (p === $0) && (f === $0) then $0
  else
    let efficiency := afterTasks tp tc in
    let efficiency := afterPomodoros efficiency p in
    let efficiency := afterFocus efficiency f in
    JS.Math_round (JS.Math_min $100 (JS.Math_max $0 efficiency)).

(** The call [calculateEfficiency({tasksPlanned, tasksCompleted,
    pomodorosSessions, focusTime})] on integer arguments. *)
Definition efficiencyOf (tp tc p f : Z) : JS.number :=
  calculateEfficiency
    {| tasksPlanned := Some $tp; tasksCompleted := $tc;
       pomodorosSessions := $p; focusTime := $f |}.

End Calculator.

(** ** The backing store

    The Supabase client is modelled by an explicit world: the two tables the
    code touches, the signed-in user, the clock, a script of storage
    outcomes (one entry is consumed by each request; [true] makes that
    request fail, and an exhausted script means success) and the console.
    A request reports failure in its result and never throws, so the
    [try]/[catch] around the callers has nothing to catch here.  The body
    of a request travels as JSON: a number written to a column is stored as
    [JS.to_json] gives it, and a column holds any number JSON can carry. *)

Record StatRow : Type := {
  stat_id : Z;
  stat_user : Z;
  stat_date : Z;
  focus_time : option JS.number;
  pomodoro_sessions : option JS.number;
  tasks_completed : option JS.number;
  efficiency_score : option JS.number
}.

Record TaskRow : Type := {
  task_id : Z;
  task_user : Z;
  start_time : Z;
  completed : bool
}.

(** The object passed to [.update(...)] on [user_stats]: only the listed
    columns are written, each with the number that [JSON.stringify] makes
    of the value ([JS.to_json]). *)
Record StatPatch : Type := {
  set_focus_time : option JS.number;
  set_pomodoro_sessions : option JS.number;
  set_tasks_completed : option JS.number;
  set_efficiency_score : option JS.number
}.

Inductive LogEntry : Type :=
| ErrorFetchingStats
| NoStatsFoundForToday
| CalculatingEfficiency (tasksPlanned tasksCompleted pomodoros focus result : JS.number)
| ErrorUpdatingEfficiency
| EfficiencyUpdatedTo (result : JS.number)
| ToggleTaskCompletionError.

Record World : Type := {
  user_stats : list StatRow;
  tasks : list TaskRow;
  session : option Z;
  now : Z;
  faults : list bool;
  next_id : Z;
  console : list LogEntry
}.

Definition M (A : Type) : Type := World -> A * World.

Definition ret {A : Type} (a : A) : M A := fun w => (a, w).

Definition bind {A B : Type} (m : M A) (k : A -> M B) : M B :=
  fun w => let (a, w') := m w in k a w'.

Notation "x <- m ;; k" := (bind m (fun x => k))
  (at level 61, m at next level, right associativity).
Notation "m ;;; k" := (bind m (fun _ => k))
  (at level 61, right associativity).

Definition with_user_stats (rows : list StatRow) (w : World) : World :=
  {| user_stats := rows; tasks := tasks w; session := session w; now := now w;
     faults := faults w; next_id := next_id w; console := console w |}.

Definition with_tasks (rows : list TaskRow) (w : World) : World :=
  {| user_stats := user_stats w; tasks := rows; session := session w; now := now w;
     faults := faults w; next_id := next_id w; console := console w |}.

(** One request reaches the store: the next scripted outcome is consumed. *)
Definition request : M bool := fun w =>
  match faults w with
  | [] => (false, w)
  | failed :: rest =>
      (failed,
       {| user_stats := user_stats w; tasks := tasks w; session := session w;
          now := now w; faults := rest; next_id := next_id w;
          console := console w |})
  end.

Definition log (entry : LogEntry) : M unit := fun w =>
  (tt,
   {| user_stats := user_stats w; tasks := tasks w; session := session w;
      now := now w; faults := faults w; next_id := next_id w;
      console := console w ++ [entry] |}).

(** [new Date().toISOString().split('T')[0]]: the current UTC day. *)
Definition today : M Z := fun w => (now w / 86400, w).

(** [supabase.auth.getUser()]. *)
Definition getUser : M (option Z) := fun w => (session w, w).

Definition stat_matches (userId date : Z) (r : StatRow) : bool :=
  (stat_user r =? userId) && (stat_date r =? date).

(** [from('user_stats').select('*').eq('user_id', u).eq('date', d)
    .maybeSingle()]: the pair [(data, error)].  No row is not an error;
    several rows are. *)
Definition select_stats (userId date : Z) : M (option StatRow * bool) :=
  failed <- request ;;
  if failed then ret (None, true)
  else fun w =>
    match filter (stat_matches userId date) (user_stats w) with
    | [] => ((None, false), w)
    | [r] => ((Some r, false), w)
    | _ => ((None, true), w)
    end.

Definition task_today (userId date : Z) (t : TaskRow) : bool :=
  (task_user t =? userId) &&
  (date * 86400 <=? start_time t) && (start_time t <=? date * 86400 + 86399).

(** [from('tasks').select('completed').eq('user_id', u)
    .gte('start_time', d + 'T00:00:00').lte('start_time', d + 'T23:59:59')]:
    the field [data], which is [null] when the request fails. *)
Definition select_tasks (userId date : Z) : M (option (list TaskRow)) :=
  failed <- request ;;
  if failed then ret None
  else fun w => (Some (filter (task_today userId date) (tasks w)), w).

Definition apply_patch (p : StatPatch) (r : StatRow) : StatRow :=
  {| stat_id := stat_id r; stat_user := stat_user r; stat_date := stat_date r;
     focus_time :=
       match set_focus_time p with
       | Some v => JS.to_json v
       | None => focus_time r
       end;
     pomodoro_sessions :=
       match set_pomodoro_sessions p with
       | Some v => JS.to_json v
       | None => pomodoro_sessions r
       end;
     tasks_completed :=
       match set_tasks_completed p with
       | Some v => JS.to_json v
       | None => tasks_completed r
       end;
     efficiency_score :=
       match set_efficiency_score p with
       | Some v => JS.to_json v
       | None => efficiency_score r
       end |}.

(** [from('user_stats').update(patch).eq('id', id)]: the field [error]. *)
Definition update_stats (id : Z) (p : StatPatch) : M bool :=
  failed <- request ;;
  if failed then ret true
  else fun w =>
    (false,
     with_user_stats
       (map (fun r => if stat_id r =? id then apply_patch p r else r)
            (user_stats w)) w).

(** A column of an inserted row: the number that [JSON.stringify] makes of
    the value; a column that the object does not mention keeps its default,
    modelled as absent. *)
Definition inserted (v : option JS.number) : option JS.number :=
  match v with
  | Some x => JS.to_json x
  | None => None
  end.

(** [from('user_stats').insert({user_id, date, ...})]. *)
Definition insert_stats (userId date : Z)
  (focus pomodoros completed score : option JS.number) : M bool :=
  failed <- request ;;
  if failed then ret true
  else fun w =>
    (false,
     {| user_stats :=
          user_stats w ++
          [{| stat_id := next_id w; stat_user := userId; stat_date := date;
              focus_time := inserted focus; pomodoro_sessions := inserted pomodoros;
              tasks_completed := inserted completed;
              efficiency_score := inserted score |}];
        tasks := tasks w; session := session w; now := now w;
        faults := faults w; next_id := next_id w + 1;
        console := console w |}).

(** [from('tasks').update({completed}).eq('id', taskId)]. *)
Definition update_task (taskId : Z) (c : bool) : M bool :=
  failed <- request ;;
  if failed then ret true
  else fun w =>
    (false,
     with_tasks
       (map (fun t =>
               if task_id t =? taskId then
                 {| task_id := task_id t; task_user := task_user t;
                    start_time := start_time t; completed := c |}
               else t)
            (tasks w)) w).

(** [allTasks?.length || 0]. *)
Definition countTasks (allTasks : option (list TaskRow)) : JS.number :=
  match allTasks with
  | Some l => JS.or_zero (Some (JS.of_Z (Z.of_nat (length l))))
  | None => JS.of_Z 0
  end.

Section Updater.
Local Open Scope js_scope.

Definition efficiencyFor (stats : StatRow) (tasksPlanned tasksCompleted : JS.number)
  : JS.number :=
  calculateEfficiency
    {| tasksPlanned := Some tasksPlanned;
       tasksCompleted := tasksCompleted;
       pomodorosSessions := JS.or_zero (pomodoro_sessions stats);
       focusTime := JS.or_zero (focus_time stats) |}.

Definition updateDailyEfficiency (userId : Z) (additionalTasks : JS.number) : M unit :=
  d <- today ;;
  fetched <- select_stats userId d ;;
  let (stats, fetchError) := fetched in
  if fetchError then log ErrorFetchingStats
  else
    match stats with
    | None => log NoStatsFoundForToday
    | Some stats =>
        allTasks <- select_tasks userId d ;;
        let tasksPlanned := countTasks allTasks in
        let tasksCompleted := JS.or_zero (tasks_completed stats) + additionalTasks in
        let efficiency := efficiencyFor stats tasksPlanned tasksCompleted in
        log (CalculatingEfficiency tasksPlanned tasksCompleted
               (JS.or_zero (pomodoro_sessions stats))
               (JS.or_zero (focus_time stats)) efficiency) ;;;
        let updateData :=
          {| set_focus_time := None;
             set_pomodoro_sessions := None;
             set_efficiency_score := Some efficiency;
             set_tasks_completed :=
               if additionalTasks > $0 then Some tasksCompleted else None |} in
        error <- update_stats (stat_id stats) updateData ;;
        if error then log ErrorUpdatingEfficiency
        else log (EfficiencyUpdatedTo efficiency)
    end.

(** [toggleTaskCompletion(taskId, completed)] of the calendar, without the
    component's local state and toasts. *)
Definition toggleTaskCompletion (taskId : Z) (completed : bool) : M unit :=
  error <- update_task taskId (negb completed) ;;
  if error then log ToggleTaskCompletionError
  else
    if negb completed then
      user <- getUser ;;
      match user with
      | Some userId =>
          d <- today ;;
          fetched <- select_stats userId d ;;
          match fst fetched with
          | Some existingStats =>
              update_stats (stat_id existingStats)
                {| set_focus_time := None;
                   set_pomodoro_sessions := None;
                   set_tasks_completed :=
                     Some (JS.or_zero (tasks_completed existingStats) + $1);
                   set_efficiency_score := None |}
          | None => insert_stats userId d None None (Some $1) None
          end ;;;
          updateDailyEfficiency userId $1
      | None => ret tt
      end
    else ret tt.

(** [handleTimerEnd] of the focus timer, without the component's timer
    state: [isBreak] and the minutes of the interval that just ended,
    [focusMin], come from that state.  [updateDailyEfficiency] is called
    without its last argument, whose default is 0. *)
Definition handleTimerEnd (isBreak : bool) (focusMin : JS.number) : M unit :=
  user <- getUser ;;
  match user with
  | None => ret tt
  | Some userId =>
      if negb isBreak then
        d <- today ;;
        fetched <- select_stats userId d ;;
        match fst fetched with
        | Some stats =>
            update_stats (stat_id stats)
              {| set_focus_time := Some (JS.of_nullable (focus_time stats) + focusMin);
                 set_pomodoro_sessions :=
                   Some (JS.of_nullable (pomodoro_sessions stats) + $1);
                 set_tasks_completed := None;
                 set_efficiency_score := None |}
        | None =>
            insert_stats userId d (Some focusMin) (Some $1) (Some $0) (Some $0)
        end ;;;
        updateDailyEfficiency userId $0
      else ret tt
  end.

End Updater.


(** ** The focus timer

    The part of the timer component that decides how many minutes the
    interval that ends is worth; [handleTimerEnd] above receives the
    result. *)

Module AIFocus.
Section Timer.
Local Open Scope js_scope.

(** The constants of the timer store, in seconds. *)
Definition WORK_DURATION : JS.number := $25 * $60.

Definition SHORT_BREAK : JS.number := $5 * $60.

Definition LONG_BREAK : JS.number := $15 * $60.

(** The seconds counted for the work interval that ends: the default
    duration, less what is left on the clock when it is completed by
    hand. *)
Definition actual (manual : bool) (timeLeft : JS.number) : JS.number :=
  if manual then WORK_DURATION - timeLeft else WORK_DURATION.

Definition focusMin (manual : bool) (timeLeft : JS.number) : JS.number :=
  JS.Math_round (actual manual timeLeft / $60).

End Timer.
End AIFocus.

(** ** Dates as day numbers

    The calendar uses a [Date] only through its local calendar day: the
    days of the browser's time zone, numbered from 1 January 1970, a
    Thursday. *)

(** [date.getDay()]: 0 is Sunday. *)
Definition getDay (day : Z) : Z := (day + 4) mod 7.

Module SmartCalendar.

(** The Monday that opens the displayed week:
    [monday.setDate(currentDate.getDate() - ((currentDate.getDay() + 6) % 7))]. *)
Definition monday (currentDate : Z) : Z :=
  currentDate - (getDay currentDate + 6) mod 7.

(** [endOfWeek.setDate(monday.getDate() + 6)]. *)
Definition endOfWeek (currentDate : Z) : Z := monday currentDate + 6.

End SmartCalendar.

(** ** Dates as instants

    The analytics page compares dates through [getTime()], the number of
    milliseconds since the epoch.  A [Date] is modelled by that integer: a
    time value is an integer of at most 8.64e15 in absolute value, far
    below [2^53], so the subtraction of two of them and the [Math.floor] of
    the quotient by the length of a day are exact.  The browser's time zone
    enters through two functions: [dayOf], the local calendar day
    (numbered from 1 January 1970) on which an instant falls, and
    [startOf], the instant at which local time reads 00:00:00.000 on a
    local day. *)

Record TimeZone : Type := {
  dayOf : Z -> Z;
  startOf : Z -> Z
}.

Module Analytics.

(** [1000 * 60 * 60 * 24]. *)
Definition MS_PER_DAY : Z := 1000 * 60 * 60 * 24.

(** [new Date(stat.date)] for the date-only string of a [date] column:
    midnight UTC of that day. *)
Definition newDate (date : Z) : Z := date * MS_PER_DAY.

(** [d.setHours(0, 0, 0, 0)]: the start of the local day of [d]. *)
Definition setHours0 (zone : TimeZone) (d : Z) : Z := startOf zone (dayOf zone d).

(** [d.setDate(d.getDate() - 1)] for a date at the start of a local day:
    the start of the local day before. *)
Definition setDateBack (zone : TimeZone) (d : Z) : Z :=
  startOf zone (dayOf zone d - 1).

(** [stat.pomodoro_sessions > 0 || stat.tasks_completed > 0 ||
    stat.focus_time > 0]; an empty column compares as 0. *)
Definition active (stat : StatRow) : bool :=
  JS.gtb (JS.of_nullable (pomodoro_sessions stat)) (JS.of_Z 0) ||
  JS.gtb (JS.of_nullable (tasks_completed stat)) (JS.of_Z 0) ||
  JS.gtb (JS.of_nullable (focus_time stat)) (JS.of_Z 0).

(** The loop over [allTimeStats]: [expectedDate] moves one day back after
    every row that counts, and the first row whose date does not fall on
    [expectedDate], or that shows no activity, ends the loop.  The counter
    is an integer. *)
Fixpoint countStreak (zone : TimeZone) (expectedDate : Z) (allTimeStats : list StatRow)
  : Z :=
  match allTimeStats with
  | [] => 0
  | stat :: rest =>
      let statDate := setHours0 zone (newDate (stat_date stat)) in
      if statDate =? expectedDate then
        if active stat then 1 + countStreak zone (setDateBack zone expectedDate) rest
        else 0
      else 0
  end.

(** [currentStreak] of [fetchAnalytics]; [now] is the instant of the call
    and [allTimeStats] the rows the query returned, latest first. *)
Definition currentStreak (zone : TimeZone) (now : Z)
  (allTimeStats : option (list StatRow)) : Z :=
  match allTimeStats with
  | Some (mostRecent :: rest) =>
      let today := setHours0 zone now in
      let mostRecentDate := setHours0 zone (newDate (stat_date mostRecent)) in
      let daysSinceLastActivity := (today - mostRecentDate) / MS_PER_DAY in
      if daysSinceLastActivity <=? 1 then
        let expectedDate := setHours0 zone (newDate (stat_date mostRecent)) in
        countStreak zone expectedDate (mostRecent :: rest)
      else 0
  | _ => 0
  end.

End Analytics.

(** ** The summary of the insights function *)

Module AnalyticsInsights.
Section Summary.
Local Open Scope js_scope.

(** [tasks?.length ? (tasks.filter(t => t.completed).length / tasks.length)
    * 100 : 0] of the insights function; [tasks] is [null] when the query
    fails. *)
Definition completionRate (tasks : option (list TaskRow)) : JS.number :=
  match tasks with
  | None => $0
  | Some [] => $0
  | Some l =>
      ($(Z.of_nat (length (filter completed l))) / $(Z.of_nat (length l))) * $100
  end.

End Summary.
End AnalyticsInsights.

(** The row of [user_stats] for a user and a day, when there is exactly
    one. *)
Definition stats_of (w : World) (userId date : Z) : option StatRow :=
  match filter (stat_matches userId date) (user_stats w) with
  | [r] => Some r
  | _ => None
  end.

(** ** Binary64 values as rationals

    The definitions below give the exact rational reading of a binary64
    value and of the rounding performed by every operation; they are used
    only in statements and proofs. *)

Definition pow2 (e : Z) : Q := Qpower 2 e.

(** The exact value of a finite number; zeros, infinities and NaN read 0. *)
Definition val (x : JS.number) : Q :=
  match x with
  | S754_finite s m e => (inject_Z (cond_Zopp s (Zpos m)) * pow2 e)%Q
  | _ => 0%Q
  end.

(** Where a real [x] lies with respect to the integers [m] and [m + 1]. *)
Definition inbetween (m : Z) (l : location) (x : Q) : Prop :=
  match l with
  | loc_Exact => (x == inject_Z m)%Q
  | loc_Inexact Lt => (inject_Z m < x /\ x < inject_Z m + (1 # 2))%Q
  | loc_Inexact Eq => (x == inject_Z m + (1 # 2))%Q
  | loc_Inexact Gt => (inject_Z m + (1 # 2) < x /\ x < inject_Z m + 1)%Q
  end.

Definition rep (mrs : shr_record) (x : Q) : Prop :=
  inbetween (shr_m mrs) (loc_of_shr_record mrs) x.

(** The last step of [binary_round_aux]: packing a rounded mantissa. *)
Definition mk (s : bool) (m e : Z) : JS.number :=
  match m with
  | Z0 => S754_zero s
  | Zpos p => if e <=? JS.emax - JS.prec then S754_finite s p e else S754_infinity s
  | Zneg _ => S754_nan
  end.

Definition canonical (m e : Z) : Prop :=
  fexp JS.prec JS.emax (Zdigits2 m + e) = e.

Definition finite_or_zero (x : JS.number) : Prop :=
  match x with S754_finite _ _ _ | S754_zero _ => True | _ => False end.

(** A positive, finite, canonically represented number. *)
Definition pos_valid (x : JS.number) : Prop :=
  exists m e, x = S754_finite false m e /\ canonical (Zpos m) e /\ e <= 971.

Definition nonneg_class (x : JS.number) : Prop :=
  match x with
  | S754_zero false | S754_finite false _ _ | S754_infinity false => True
  | _ => False
  end.

Definition neg_class (x : JS.number) : Prop :=
  match x with
  | S754_zero true | S754_finite true _ _ | S754_infinity true => True
  | _ => False
  end.

Definition set_sign (s : bool) (x : JS.number) : JS.number :=
  match x with
  | S754_zero _ => S754_zero s
  | S754_infinity _ => S754_infinity s
  | S754_finite _ m e => S754_finite s m e
  | S754_nan => S754_nan
  end.

(** [rounded v R]: [R] is the binary64 rounding of the non-negative real
    [v].  Rounding is monotone with respect to every representable number
    and, short of overflow, has relative error at most [2^-53] (absolute
    error at most [2^-1075] among subnormals). *)
Record rounded (v : Q) (R : JS.number) : Prop := {
  rnd_valid : valid_binary JS.prec JS.emax R = true;
  rnd_class : nonneg_class R;
  rnd_ge : forall c, pos_valid c -> (val c <= v)%Q -> SFleb c R = true;
  rnd_le : forall c, pos_valid c -> (v <= val c)%Q -> SFleb R c = true;
  rnd_err : finite_or_zero R ->
            (Qabs (val R - v) <= v * pow2 (-53) + pow2 (-1075))%Q
}.

(** ** Vocabulary of the statements *)

(** *** Numbers that can occur in the calculator *)

(** [Number.MAX_VALUE], the largest finite number, and its integer value. *)
Definition max_float : JS.number := S754_finite false (2 ^ 53 - 1) 971.

Definition MAX_VALUE : Z := (2 ^ 53 - 1) * 2 ^ 971.

(** The integer [z] is itself a binary64 value: [JS.of_Z z] holds exactly
    [z].  Every integer below [2^53] is, and so is any integer a running
    program can hold in a [number]. *)
Definition representable (z : Z) : Prop := (val (JS.of_Z z) == inject_Z z)%Q.

(** A count: [+0] or a positive finite number. *)
Definition count (x : JS.number) : Prop := x = S754_zero false \/ pos_valid x.

(** What the running sum can be: a count or [+Infinity], never NaN and never
    negative. *)
Definition good (x : JS.number) : Prop :=
  x = S754_zero false \/ pos_valid x \/ x = S754_infinity false.

Definition pos_validb (x : JS.number) : bool :=
  match x with
  | S754_finite false _ _ => valid_binary JS.prec JS.emax x
  | _ => false
  end.

(** [x] is [+Infinity] or a positive finite number not below [q]. *)
Definition at_least (q : Q) (x : JS.number) : Prop :=
  x = S754_infinity false \/ (pos_valid x /\ (q <= val x)%Q).

(** [x] is [+0] or a positive finite number not above [q]. *)
Definition at_most (q : Q) (x : JS.number) : Prop :=
  x = S754_zero false \/ (pos_valid x /\ (val x <= q)%Q).

(** *** The formulas of the specification, over the rationals

    These follow the wording of the specification, in exact arithmetic; the
    theorems compare them with what the code computes in binary64. *)

(** min(100, 100 x tasksCompleted / tasksPlanned). *)
Definition taskRate (tp tc : Z) : Q := Qmin 100 (100 * inject_Z tc / inject_Z tp).

(** 100 x pomodoroSessions / 6. *)
Definition pomodoroRamp (p : Z) : Q := (100 * inject_Z p / 6)%Q.

(** max(70, 100 - 5 x (pomodoroSessions - 10)). *)
Definition pomodoroPenalty (p : Z) : Z := Z.max 70 (100 - 5 * (p - 10)).

(** 100 x focusTimeMinutes / 120. *)
Definition focusRamp (f : Z) : Q := (100 * inject_Z f / 120)%Q.

(** max(80, 100 - 3 x ((focusTimeMinutes - 360) / 60)). *)
Definition focusPenalty (f : Z) : Q :=
  Qmax 80 (100 - 3 * ((inject_Z f - 360) / 60)).

(** How far a binary64 sub-score may be from the exact formula: a few units
    in the last place of a number below 128. *)
Definition tolerance : Q := pow2 (-45).

(** *** Checking a finite range by evaluation *)

Fixpoint all_from (check : Z -> bool) (lo : Z) (n : nat) : bool :=
  match n with
  | O => true
  | S n' => check lo && all_from check (lo + 1) n'
  end.

Definition focus_high_check (f : Z) : bool :=
  match focusScore (JS.of_Z f) with
  | S754_finite false _ _ =>
      Qle_bool (Qabs (val (focusScore (JS.of_Z f)) - focusPenalty f)) tolerance &&
      Qle_bool 80 (val (focusScore (JS.of_Z f))) &&
      valid_binary JS.prec JS.emax (focusScore (JS.of_Z f))
  | _ => false
  end.

(** *** Storage outcomes *)

(** The next [n] requests succeed. *)
Definition all_succeed (n : nat) (w : World) : Prop :=
  Forall (fun failed => failed = false) (firstn n (faults w)).

(** The next request fails. *)
Definition fetch_fails (w : World) : Prop :=
  exists rest, faults w = true :: rest.

Definition no_row_today (w : World) (userId : Z) : Prop :=
  filter (stat_matches userId (now w / 86400)) (user_stats w) = [].

(** *** What a successful update writes *)

(** The number of the user's tasks that start today. *)
Definition tasksPlannedToday (w : World) (userId : Z) : JS.number :=
  JS.of_Z (Z.of_nat (length (filter (task_today userId (now w / 86400)) (tasks w)))).

Definition writtenEfficiency (w : World) (userId : Z) (stats : StatRow)
  (additionalTasks : JS.number) : JS.number :=
  calculateEfficiency
    {| tasksPlanned := Some (tasksPlannedToday w userId);
       tasksCompleted := JS.add (JS.or_zero (tasks_completed stats)) additionalTasks;
       pomodorosSessions := JS.or_zero (pomodoro_sessions stats);
       focusTime := JS.or_zero (focus_time stats) |}.

(** The row [r] after the write-back computed from the fetched [stats]. *)
Definition writtenRow (w : World) (userId : Z) (stats : StatRow)
  (additionalTasks : JS.number) (r : StatRow) : StatRow :=
  {| stat_id := stat_id r; stat_user := stat_user r; stat_date := stat_date r;
     focus_time := focus_time r; pomodoro_sessions := pomodoro_sessions r;
     tasks_completed :=
       if JS.gtb additionalTasks (JS.of_Z 0)
       then JS.to_json (JS.add (JS.or_zero (tasks_completed stats)) additionalTasks)
       else tasks_completed r;
     efficiency_score := JS.to_json (writtenEfficiency w userId stats additionalTasks) |}.

(** The first write of [toggleTaskCompletion] and the world it leaves. *)
Definition incrementPatch (stats : StatRow) : StatPatch :=
  {| set_focus_time := None;
     set_pomodoro_sessions := None;
     set_tasks_completed := Some (JS.add (JS.or_zero (tasks_completed stats)) (JS.of_Z 1));
     set_efficiency_score := None |}.

(** The first write of [handleTimerEnd] and the world it leaves. *)
Definition timerPatch (stats : StatRow) (focusMin : JS.number) : StatPatch :=
  {| set_focus_time := Some (JS.add (JS.of_nullable (focus_time stats)) focusMin);
     set_pomodoro_sessions :=
       Some (JS.add (JS.of_nullable (pomodoro_sessions stats)) (JS.of_Z 1));
     set_tasks_completed := None;
     set_efficiency_score := None |}.

Definition afterTimer (w : World) (stats : StatRow) (focusMin : JS.number) : World :=
  with_user_stats
    (map (fun r => if stat_id r =? stat_id stats
                   then apply_patch (timerPatch stats focusMin) r else r)
         (user_stats w)) w.

Definition afterIncrement (w : World) (taskId : Z) (stats : StatRow) : World :=
  with_user_stats
    (map (fun r => if stat_id r =? stat_id stats then apply_patch (incrementPatch stats) r else r)
         (user_stats w))
    (with_tasks
       (map (fun t => if task_id t =? taskId
                      then {| task_id := task_id t; task_user := task_user t;
                              start_time := start_time t; completed := true |}
                      else t) (tasks w)) w).

(** *** Two concrete worlds *)

(** User 7 has one row for today (day 0) with three completed tasks, and one
    incomplete task starting today. *)
Definition sampleRow : StatRow :=
  {| stat_id := 1; stat_user := 7; stat_date := 0;
     focus_time := Some (JS.of_Z 50); pomodoro_sessions := Some (JS.of_Z 2);
     tasks_completed := Some (JS.of_Z 3); efficiency_score := Some (JS.of_Z 20) |}.

Definition sampleTask : TaskRow :=
  {| task_id := 5; task_user := 7; start_time := 3600; completed := false |}.

Definition sampleWorld : World :=
  {| user_stats := [sampleRow]; tasks := [sampleTask]; session := Some 7;
     now := 7200; faults := []; next_id := 2; console := [] |}.

(** The same world when the next storage request fails. *)
Definition failingWorld : World :=
  {| user_stats := [sampleRow]; tasks := [sampleTask]; session := Some 7;
     now := 7200; faults := [true]; next_id := 2; console := [] |}.


(** *** Storage outcomes, one request at a time *)

(** The outcome scripted for the [n]-th request from now (0 is the next
    one); past the end of the script requests succeed. *)
Definition fault_at (n : nat) (w : World) : bool := nth n (faults w) false.

Definition with_faults (script : list bool) (w : World) : World :=
  {| user_stats := user_stats w; tasks := tasks w; session := session w; now := now w;
     faults := script; next_id := next_id w; console := console w |}.

(** *** What [updateDailyEfficiency] leaves behind *)

(** The row [r] after the write-back computed from the fetched [stats] when
    the task query reported [planned] tasks. *)
Definition rowWritten (planned : JS.number) (stats : StatRow)
  (additionalTasks : JS.number) (r : StatRow) : StatRow :=
  let tasksCompleted := JS.add (JS.or_zero (tasks_completed stats)) additionalTasks in
  {| stat_id := stat_id r; stat_user := stat_user r; stat_date := stat_date r;
     focus_time := focus_time r; pomodoro_sessions := pomodoro_sessions r;
     tasks_completed :=
       if JS.gtb additionalTasks (JS.of_Z 0) then JS.to_json tasksCompleted
       else tasks_completed r;
     efficiency_score := JS.to_json (efficiencyFor stats planned tasksCompleted) |}.

(** What [updateDailyEfficiency] sees as the number of planned tasks: 0
    when the task query fails. *)
Definition plannedSeen (w : World) (userId : Z) : JS.number :=
  if fault_at 1 w then JS.of_Z 0 else tasksPlannedToday w userId.

(** The columns [updateDailyEfficiency] never writes. *)
Definition stat_key (r : StatRow) : Z * Z * Z * option JS.number * option JS.number :=
  (stat_id r, stat_user r, stat_date r, focus_time r, pomodoro_sessions r).


(** The rows of [user_stats] after [updateDailyEfficiency], whatever the
    storage outcomes: a write happens only if the fetch succeeds and finds
    one row and the update request succeeds. *)
Definition updatedRows (w : World) (userId : Z) (additionalTasks : JS.number)
  : list StatRow :=
  if fault_at 0 w then user_stats w
  else
    match filter (stat_matches userId (now w / 86400)) (user_stats w) with
    | [stats] =>
        if fault_at 2 w then user_stats w
        else
          map (fun r => if stat_id r =? stat_id stats
                        then rowWritten (plannedSeen w userId) stats additionalTasks r
                        else r)
              (user_stats w)
    | _ => user_stats w
    end.

(** A stored counter that holds nothing or a count. *)
Definition stored_count (v : option JS.number) : Prop :=
  match v with
  | None => True
  | Some x => count x
  end.

(** The row of a task after [.update({completed})]. *)
Definition set_completed (c : bool) (t : TaskRow) : TaskRow :=
  {| task_id := task_id t; task_user := task_user t;
     start_time := start_time t; completed := c |}.

(** *** Inputs and sub-scores of the calculator *)

(** An input as the calculator uses it: anything that is not positive
    (zero, a negative number, NaN) counts as 0. *)
Definition active_part (x : JS.number) : JS.number :=
  if JS.gtb x (JS.of_Z 0) then x else JS.of_Z 0.

(** A sub-score: [+0] or a positive number that is at most 100. *)
Definition subscore (x : JS.number) : Prop :=
  x = S754_zero false \/ (pos_valid x /\ (val x <= 100)%Q).

Definition subscore_check (x : JS.number) : bool :=
  pos_validb x && Qle_bool (val x) 100.

(** *** Minutes of a work interval *)

(** Two numbers are the same datum (which tells [-0] from [+0]). *)
Definition same_number (a b : JS.number) : bool :=
  match a, b with
  | S754_zero s, S754_zero s' => Bool.eqb s s'
  | S754_infinity s, S754_infinity s' => Bool.eqb s s'
  | S754_nan, S754_nan => true
  | S754_finite s m e, S754_finite s' m' e' => Bool.eqb s s' && Pos.eqb m m' && Z.eqb e e'
  | _, _ => false
  end.

Definition focusMin_check (t : Z) : bool :=
  same_number (AIFocus.focusMin true (JS.of_Z t)) (JS.of_Z ((1530 - t) / 60)).

(** *** More concrete worlds *)

(** Yesterday's row of user 7, and the sample world with that row too. *)
Definition yesterdayRow : StatRow :=
  {| stat_id := 0; stat_user := 7; stat_date := -1;
     focus_time := Some (JS.of_Z 130); pomodoro_sessions := Some (JS.of_Z 6);
     tasks_completed := Some (JS.of_Z 4); efficiency_score := Some (JS.of_Z 100) |}.

Definition historyWorld : World :=
  with_user_stats [yesterdayRow; sampleRow] sampleWorld.

(** The sample world before anything was recorded today. *)
Definition freshDayWorld : World := with_user_stats [] sampleWorld.

(** The sample world with more tasks: a second task of user 7 in the last
    second of today, a task of user 8 today, and tasks of user 7 on the days
    before and after. *)
Definition busyWorld : World :=
  with_tasks
    [ sampleTask;
      {| task_id := 6; task_user := 8; start_time := 3600; completed := false |};
      {| task_id := 7; task_user := 7; start_time := 86399; completed := true |};
      {| task_id := 8; task_user := 7; start_time := 86400; completed := false |};
      {| task_id := 9; task_user := 7; start_time := -1; completed := false |} ]
    sampleWorld.

(** The row that the toggle inserts when it sees no row for today. *)
Definition firstTaskRow (w : World) (userId : Z) : StatRow :=
  {| stat_id := next_id w; stat_user := userId; stat_date := now w / 86400;
     focus_time := None; pomodoro_sessions := None;
     tasks_completed := Some (JS.of_Z 1); efficiency_score := None |}.

(** *** Rounding as a monotone map *)

(** The float that holds [m * 2^e] for a mantissa of at most 53 bits plus a
    possible carry. *)
Definition pack (m e : Z) : JS.number :=
  if m =? 2 ^ 53 then mk false (2 ^ 52) (e + 1) else mk false m e.

(** [located v R]: [R] is what [binary_round_aux] returns for some located
    representation of the non-negative real [v]. *)
Definition located (v : Q) (R : JS.number) : Prop :=
  exists m e l X,
    0 <= m /\ inbetween m l X /\ e <= fexp JS.prec JS.emax (Zdigits2 m + e) /\
    (v == X * pow2 e)%Q /\
    R = binary_round_aux JS.prec JS.emax false m e l.

(** [x <= y] on numbers. *)
Definition leq (x y : JS.number) : Prop := SFleb x y = true.

(** *** Time zones and runs of active days *)

(** A zone that keeps one offset from UTC, in milliseconds, positive east
    of Greenwich. *)
Definition fixedOffset (offset : Z) : TimeZone :=
  {| dayOf := fun t => (t + offset) / Analytics.MS_PER_DAY;
     startOf := fun d => d * Analytics.MS_PER_DAY - offset |}.

(** Central European time around its change of 29 March 2026 (day 20541):
    one hour ahead of UTC until 01:00 UTC on that day, two hours from then
    on, so that this day starts at 23:00 UTC and lasts 23 hours. *)
Definition springForward : TimeZone :=
  {| dayOf := fun t =>
       if t <? 20541 * Analytics.MS_PER_DAY + 3600000
       then (t + 3600000) / Analytics.MS_PER_DAY
       else (t + 7200000) / Analytics.MS_PER_DAY;
     startOf := fun d =>
       if d <=? 20541 then d * Analytics.MS_PER_DAY - 3600000
       else d * Analytics.MS_PER_DAY - 7200000 |}.

(** A zone in which every local day starts at its own midnight and lasts
    between 23 and 25 hours. *)
Definition regular (zone : TimeZone) : Prop :=
  (forall d, dayOf zone (startOf zone d) = d) /\
  (forall d, 23 * 3600000 <= startOf zone (d + 1) - startOf zone d <= 25 * 3600000).

(** The local day on which the date of a row falls: midnight UTC of a day
    is that same day east of Greenwich and the day before west of it. *)
Definition statDay (zone : TimeZone) (stat : StatRow) : Z :=
  dayOf zone (Analytics.newDate (stat_date stat)).

(** Rows of consecutive days, latest first, each with some activity. *)
Fixpoint active_run (zone : TimeZone) (day : Z) (rows : list StatRow) : Prop :=
  match rows with
  | [] => True
  | stat :: rest =>
      statDay zone stat = day /\ Analytics.active stat = true /\
      active_run zone (day - 1) rest
  end.

(** The rows that follow do not continue the run: there is none, or the
    next one is not dated [day] or shows no activity. *)
Definition run_ends (zone : TimeZone) (day : Z) (rest : list StatRow) : Prop :=
  match rest with
  | [] => True
  | stat :: _ => statDay zone stat <> day \/ Analytics.active stat = false
  end.

(** A row of user 7 with one pomodoro on a given day. *)
Definition rowOn (date : Z) : StatRow :=
  {| stat_id := date; stat_user := 7; stat_date := date;
     focus_time := Some (JS.of_Z 25); pomodoro_sessions := Some (JS.of_Z 1);
     tasks_completed := None; efficiency_score := Some (JS.of_Z 10) |}.

(** * Properties *)

(** ** Powers of two and binary digits *)

Lemma pow2_pos e : (0 < pow2 e)%Q.
Proof. apply Qpower_0_lt. reflexivity. Qed.

Lemma pow2_add a b : (pow2 (a + b) == pow2 a * pow2 b)%Q.
Proof. apply Qpower_plus. discriminate. Qed.

Lemma pow2_0 : (pow2 0 == 1)%Q.
Proof. reflexivity. Qed.

Lemma pow2_1 : (pow2 1 == 2)%Q.
Proof. reflexivity. Qed.

Lemma pow2_succ a : (pow2 (a + 1) == 2 * pow2 a)%Q.
Proof. rewrite pow2_add, pow2_1. ring. Qed.

Lemma pow2_pred a : (pow2 (a - 1) == pow2 a / 2)%Q.
Proof.
  assert (H := pow2_succ (a - 1)). replace (a - 1 + 1) with a in H by lia.
  rewrite H. field.
Qed.

Lemma pow2_Z a : 0 <= a -> (pow2 a == inject_Z (2 ^ a))%Q.
Proof. intros Ha. unfold pow2. rewrite Zpower_Qpower by assumption. reflexivity. Qed.

Lemma pow2_le a b : a <= b -> (pow2 a <= pow2 b)%Q.
Proof.
  intros H. replace b with (a + (b - a)) by lia. rewrite pow2_add.
  assert (H1 : (1 <= pow2 (b - a))%Q) by (apply Qpower_1_le; [discriminate | lia]).
  assert (H2 := pow2_pos a). nra.
Qed.

Lemma pow2_lt a b : a < b -> (pow2 a < pow2 b)%Q.
Proof.
  intros H. replace b with (a + (b - a)) by lia. rewrite pow2_add.
  assert (H1 : (1 < pow2 (b - a))%Q) by (apply Qpower_1_lt; [reflexivity | lia]).
  assert (H2 := pow2_pos a). nra.
Qed.

Lemma pow2_lt_inv a b : (pow2 a < pow2 b)%Q -> a < b.
Proof.
  intros H. destruct (Z_lt_le_dec a b) as [|Hle]; [assumption|].
  apply pow2_le in Hle. lra.
Qed.

Lemma digits2_size p : digits2_pos p = Pos.size p.
Proof. induction p; simpl; congruence. Qed.

Lemma Zdigits2_log2 m : 0 < m -> Zdigits2 m = Z.log2 m + 1.
Proof.
  destruct m as [|p|p]; try lia. intros _. simpl. rewrite digits2_size.
  destruct p; simpl; lia.
Qed.

Lemma Zdigits2_bounds m : 0 < m -> 2 ^ (Zdigits2 m - 1) <= m < 2 ^ Zdigits2 m.
Proof.
  intros H. rewrite Zdigits2_log2 by assumption.
  replace (Z.log2 m + 1 - 1) with (Z.log2 m) by lia.
  apply Z.log2_spec. assumption.
Qed.

Lemma Zdigits2_unique m k : 0 < k -> 2 ^ (k - 1) <= m < 2 ^ k -> Zdigits2 m = k.
Proof.
  intros Hk H. assert (0 < m) by (assert (0 < 2 ^ (k - 1)) by (apply Z.pow_pos_nonneg; lia); lia).
  rewrite Zdigits2_log2 by assumption.
  rewrite (Z.log2_unique m (k - 1)); try lia.
  replace (Z.succ (k - 1)) with k by lia. assumption.
Qed.

Lemma Zdigits2_boundsQ m : 0 < m ->
  (pow2 (Zdigits2 m - 1) <= inject_Z m /\ inject_Z m + 1 <= pow2 (Zdigits2 m))%Q.
Proof.
  intros H. destruct (Zdigits2_bounds m H) as [H1 H2].
  assert (Hd : 0 < Zdigits2 m) by (rewrite Zdigits2_log2 by assumption; pose proof (Z.log2_nonneg m); lia).
  rewrite !pow2_Z by lia. split.
  - rewrite <- Zle_Qle. assumption.
  - replace 1%Q with (inject_Z 1) by reflexivity. rewrite <- inject_Z_plus, <- Zle_Qle. lia.
Qed.

(** ** Shifting with sticky bits, and rounding to nearest even *)

Lemma rep_of_loc m l x : inbetween m l x -> rep (shr_record_of_loc m l) x.
Proof. destruct l as [|[]]; simpl; auto. Qed.

Lemma shr_m_of_loc m l : shr_m (shr_record_of_loc m l) = m.
Proof. destruct l as [|[]]; reflexivity. Qed.

Lemma inject_xO p : (inject_Z (Zpos p~0) == 2 * inject_Z (Zpos p))%Q.
Proof. change (Zpos p~0) with (2 * Zpos p). rewrite inject_Z_mult. reflexivity. Qed.

Lemma inject_xI p : (inject_Z (Zpos p~1) == 2 * inject_Z (Zpos p) + 1)%Q.
Proof. change (Zpos p~1) with (2 * Zpos p + 1). rewrite inject_Z_plus, inject_Z_mult. reflexivity. Qed.

(** One right shift halves the located value. *)
Lemma shr_1_rep mrs x : 0 <= shr_m mrs -> rep mrs x ->
  rep (shr_1 mrs) (x * (1 # 2)) /\ 0 <= shr_m (shr_1 mrs).
Proof.
  destruct mrs as [m r s]. unfold rep. simpl shr_m at 1. intros Hm H.
  destruct m as [|p|p]; [| |lia].
  - destruct r, s; simpl in *; change (inject_Z 0) with 0%Q in *; (split; [|lia]); lra.
  - destruct p as [p|p|]; destruct r, s; simpl in H |- *;
      try rewrite inject_xO in H; try rewrite inject_xI in H;
      change (inject_Z 0) with 0%Q in *; change (inject_Z 1) with 1%Q in *;
      (split; [|lia]); lra.
Qed.

Lemma iter_pos_iter {A} (f : A -> A) n x : iter_pos f n x = Pos.iter f x n.
Proof.
  revert x. induction n; intros x; simpl.
  - rewrite !IHn. rewrite <- Pos.iter_swap. rewrite <- Pos.iter_swap. reflexivity.
  - rewrite !IHn. reflexivity.
  - reflexivity.
Qed.

Lemma inbetween_ext m l x y : (x == y)%Q -> inbetween m l x -> inbetween m l y.
Proof. intros E. destruct l as [|[]]; simpl; rewrite E; auto. Qed.

Lemma rep_ext mrs x y : (x == y)%Q -> rep mrs x -> rep mrs y.
Proof. apply inbetween_ext. Qed.

(** [n] right shifts divide the located value by [2^n]. *)
Lemma iter_shr_rep n mrs x : 0 <= shr_m mrs -> rep mrs x ->
  rep (iter_pos shr_1 n mrs) (x * pow2 (- Zpos n)) /\ 0 <= shr_m (iter_pos shr_1 n mrs).
Proof.
  intros Hm H. rewrite iter_pos_iter.
  induction n using Pos.peano_ind.
  - destruct (shr_1_rep mrs x Hm H) as [H1 H2]. split; [|assumption].
    apply (rep_ext _ (x * (1 # 2))); [|assumption].
    unfold pow2; simpl; field.
  - rewrite Pos.iter_succ. destruct IHn as [H1 H2].
    destruct (shr_1_rep _ _ H2 H1) as [H3 H4]. split; [|assumption].
    apply (rep_ext _ (x * pow2 (- Zpos n) * (1 # 2))); [|assumption].
    replace (- Zpos (Pos.succ n)) with (- Zpos n - 1) by lia. rewrite pow2_pred. field.
Qed.

Lemma inbetween_bounds m l x : inbetween m l x ->
  (inject_Z m <= x /\ x < inject_Z m + 1)%Q.
Proof. destruct l as [|[]]; simpl; lra. Qed.

(** Rounding a located value to the nearest integer, ties to even: the
    result is within 1/2 and never crosses an integer. *)
Lemma round_nearest_even_spec m l x :
  inbetween m l x ->
  let m1 := round_nearest_even m l in
  m <= m1 <= m + 1 /\
  (Qabs (inject_Z m1 - x) <= 1 # 2)%Q /\
  (forall k : Z, (x <= inject_Z k)%Q -> m1 <= k) /\
  (forall k : Z, (inject_Z k <= x)%Q -> k <= m1).
Proof.
  intros H m1.
  assert (Hb := inbetween_bounds _ _ _ H).
  assert (Hm1 : m <= m1 <= m + 1).
  { unfold m1. destruct l as [|[]]; simpl; try lia. destruct (Z.even m); lia. }
  assert (Hup : forall k : Z, (x <= inject_Z k)%Q -> m1 <= k).
  { intros k Hk.
    destruct (Z.eq_dec m k) as [->|Hne].
    - assert (Hx : (x == inject_Z k)%Q) by lra.
      unfold m1. destruct l as [|[]]; simpl in *; try lia; lra.
    - assert (m < k). { assert (inject_Z m <= inject_Z k)%Q by lra. rewrite <- Zle_Qle in *. lia. }
      lia. }
  assert (Hlo : forall k : Z, (inject_Z k <= x)%Q -> k <= m1).
  { intros k Hk. assert (inject_Z k < inject_Z (m + 1))%Q by (rewrite inject_Z_plus; change (inject_Z 1) with 1%Q; lra).
    rewrite <- Zlt_Qlt in *. lia. }
  repeat split; try lia; try assumption.
  apply Qabs_case; intros _; unfold m1; destruct l as [|[]]; simpl in *;
    try (destruct (Z.even m)); rewrite ?inject_Z_plus; change (inject_Z 1) with 1%Q; lra.
Qed.

Lemma fexp_eq x : fexp JS.prec JS.emax x = Z.max (x - 53) (-1074).
Proof. reflexivity. Qed.

Lemma inject_bound_digits m : 0 <= m -> (inject_Z m + 1 <= pow2 (Zdigits2 m))%Q.
Proof.
  intros H. destruct (Z.eq_dec m 0) as [->|Hne].
  - simpl. rewrite pow2_0. change (inject_Z 0) with 0%Q. lra.
  - apply Zdigits2_boundsQ. lia.
Qed.

(** [shr_fexp] brings the exponent to [fexp] and keeps track of the value. *)
Lemma shr_fexp_spec m e l X :
  0 <= m -> inbetween m l X -> e <= fexp JS.prec JS.emax (Zdigits2 m + e) ->
  exists mrs, shr_fexp JS.prec JS.emax m e l = (mrs, fexp JS.prec JS.emax (Zdigits2 m + e)) /\
    0 <= shr_m mrs /\ rep mrs (X * pow2 (e - fexp JS.prec JS.emax (Zdigits2 m + e))).
Proof.
  intros Hm HX Hpre. unfold shr_fexp, shr.
  set (E := fexp JS.prec JS.emax (Zdigits2 m + e)) in *.
  destruct (E - e) as [|p|p] eqn:Hn; [| |lia].
  - exists (shr_record_of_loc m l). replace E with e by lia. repeat split.
    + rewrite shr_m_of_loc. assumption.
    + apply (rep_ext _ X); [|apply rep_of_loc; assumption].
      replace (e - e) with 0 by lia. rewrite pow2_0. ring.
  - exists (iter_pos shr_1 p (shr_record_of_loc m l)).
    destruct (iter_shr_rep p (shr_record_of_loc m l) X) as [H1 H2].
    + rewrite shr_m_of_loc. assumption.
    + apply rep_of_loc. assumption.
    + repeat split; [f_equal; lia | assumption |].
      replace (e - E) with (- Zpos p) by lia. assumption.
Qed.

Lemma shr_fexp_noshift m e :
  fexp JS.prec JS.emax (Zdigits2 m + e) <= e ->
  shr_fexp JS.prec JS.emax m e loc_Exact = (Build_shr_record m false false, e).
Proof.
  intros H. unfold shr_fexp, shr. simpl shr_record_of_loc.
  destruct (fexp JS.prec JS.emax (Zdigits2 m + e) - e) eqn:Hn; try reflexivity. lia.
Qed.

(** What [binary_round_aux] returns, before the overflow test: a canonical
    mantissa and exponent within half a unit in the last place of the exact
    value, on the right side of every multiple of that unit. *)
Lemma bra_spec s m e l X :
  0 <= m -> inbetween m l X -> e <= fexp JS.prec JS.emax (Zdigits2 m + e) ->
  let E := fexp JS.prec JS.emax (Zdigits2 m + e) in
  let v := (X * pow2 e)%Q in
  exists m2 e2,
    binary_round_aux JS.prec JS.emax s m e l = mk s m2 e2 /\
    0 <= m2 < 2 ^ 53 /\
    (0 < m2 -> fexp JS.prec JS.emax (Zdigits2 m2 + e2) = e2) /\
    E <= e2 /\
    (Qabs (inject_Z m2 * pow2 e2 - v) <= pow2 (E - 1))%Q /\
    (forall k : Z, (v <= inject_Z k * pow2 E)%Q -> (inject_Z m2 * pow2 e2 <= inject_Z k * pow2 E)%Q) /\
    (forall k : Z, (inject_Z k * pow2 E <= v)%Q -> (inject_Z k * pow2 E <= inject_Z m2 * pow2 e2)%Q).
Proof.
  intros Hm HX Hpre E v.
  destruct (shr_fexp_spec m e l X Hm HX Hpre) as (mrs & Hshr & Hmrs & Hrep).
  fold E in Hshr, Hrep.
  set (X' := (X * pow2 (e - E))%Q) in *.
  assert (Hv : (v == X' * pow2 E)%Q).
  { unfold v, X'. rewrite <- Qmult_assoc, <- pow2_add. replace (e - E + E) with e by lia. reflexivity. }
  assert (HE : -1074 <= E /\ Zdigits2 m + e - 53 <= E) by (unfold E; rewrite fexp_eq; lia).
  assert (HpE := pow2_pos E).
  set (m1 := round_nearest_even (shr_m mrs) (loc_of_shr_record mrs)).
  destruct (round_nearest_even_spec _ _ _ Hrep) as (Hm1 & Herr & Hup & Hlo). fold m1 in Hm1, Herr, Hup, Hlo.
  assert (Hbx := inbetween_bounds _ _ _ HX).
  assert (HX'53 : (X' <= inject_Z (2 ^ 53))%Q).
  { rewrite <- pow2_Z by lia. unfold X'.
    assert (H1 := inject_bound_digits m Hm).
    assert (H2 : (pow2 (Zdigits2 m) * pow2 (e - E) <= pow2 53)%Q).
    { rewrite <- pow2_add. apply pow2_le. lia. }
    assert (H3 := pow2_pos (e - E)). nra. }
  assert (Hm1hi : m1 <= 2 ^ 53) by (apply Hup; assumption).
  assert (Hm1lo : -1074 < E -> 2 ^ 52 <= m1).
  { intros HEgt. apply Hlo. rewrite <- pow2_Z by lia. unfold X'.
    assert (Hmpos : 0 < m).
    { destruct (Z.eq_dec m 0) as [->|]; [|lia]. simpl in Hpre, E. unfold E in HEgt.
      rewrite fexp_eq in *. lia. }
    destruct (Zdigits2_boundsQ m Hmpos) as [H1 _].
    assert (H2 : (pow2 52 <= pow2 (Zdigits2 m - 1) * pow2 (e - E))%Q).
    { rewrite <- pow2_add. apply pow2_le. unfold E in *. rewrite fexp_eq in *. lia. }
    assert (H3 := pow2_pos (e - E)). nra. }
  assert (Hm1err : (Qabs (inject_Z m1 * pow2 E - v) <= pow2 (E - 1))%Q).
  { rewrite Hv, pow2_pred.
    setoid_replace (inject_Z m1 * pow2 E - X' * pow2 E)%Q with ((inject_Z m1 - X') * pow2 E)%Q by ring.
    rewrite Qabs_Qmult. rewrite (Qabs_pos (pow2 E)) by lra.
    assert (0 <= Qabs (inject_Z m1 - X'))%Q by apply Qabs_nonneg.
    setoid_replace (pow2 E / 2)%Q with ((1 # 2) * pow2 E)%Q by field.
    apply Qmult_le_compat_r; lra. }
  assert (Hm1up : forall k : Z, (v <= inject_Z k * pow2 E)%Q -> (inject_Z m1 * pow2 E <= inject_Z k * pow2 E)%Q).
  { intros k Hk. apply Qmult_le_compat_r; [|lra]. rewrite <- Zle_Qle. apply Hup.
    rewrite Hv in Hk. apply Qmult_le_r in Hk; assumption. }
  assert (Hm1dn : forall k : Z, (inject_Z k * pow2 E <= v)%Q -> (inject_Z k * pow2 E <= inject_Z m1 * pow2 E)%Q).
  { intros k Hk. apply Qmult_le_compat_r; [|lra]. rewrite <- Zle_Qle. apply Hlo.
    rewrite Hv in Hk. apply Qmult_le_r in Hk; assumption. }
  unfold binary_round_aux. rewrite Hshr. fold m1.
  destruct (Z.eq_dec m1 (2 ^ 53)) as [Hc|Hnc].
  - (* carry *)
    exists (2 ^ 52), (E + 1).
    assert (Hval : (inject_Z (2 ^ 52) * pow2 (E + 1) == inject_Z m1 * pow2 E)%Q).
    { rewrite Hc, pow2_succ. rewrite <- !pow2_Z by lia.
      setoid_replace (pow2 53) with (2 * pow2 52)%Q by (rewrite <- pow2_succ; reflexivity). ring. }
    split; [|split; [|split; [|split; [|split; [|split]]]]].
    + rewrite Hc. unfold shr_fexp, shr.
      replace (fexp JS.prec JS.emax (Zdigits2 (2 ^ 53) + E) - E) with 1
        by (rewrite fexp_eq; change (Zdigits2 (2 ^ 53)) with 54; lia).
      reflexivity.
    + lia.
    + intros _. rewrite fexp_eq. change (Zdigits2 (2 ^ 52)) with 53. lia.
    + lia.
    + rewrite Hval. assumption.
    + intros k Hk. rewrite Hval. auto.
    + intros k Hk. rewrite Hval. auto.
  - exists m1, E.
    assert (Hd1 : 0 < m1 -> fexp JS.prec JS.emax (Zdigits2 m1 + E) = E).
    { intros Hpos. rewrite fexp_eq.
      destruct (Z.eq_dec E (-1074)) as [HEm|HEm].
      - assert (Zdigits2 m1 <= 53).
        { rewrite Zdigits2_log2 by assumption.
          assert (Z.log2 m1 < 53) by (apply Z.log2_lt_pow2; lia). lia. }
        lia.
      - rewrite (Zdigits2_unique m1 53); [lia | lia |]. 
        split; [apply Hm1lo; lia | lia]. }
    split; [|split; [|split; [|split; [|split; [|split]]]]]; try assumption; try lia.
    rewrite shr_fexp_noshift.
    + simpl shr_m. unfold mk. reflexivity.
    + destruct (Z.eq_dec m1 0) as [->|]; [simpl; rewrite fexp_eq; lia|].
      rewrite Hd1 by lia. lia.
Qed.

(** ** Canonical numbers and their order *)

Lemma canonical_mantissa_iff m e :
  canonical_mantissa JS.prec JS.emax m e = true <-> canonical (Zpos m) e.
Proof. unfold canonical_mantissa, canonical. simpl. apply Z.eqb_eq. Qed.

Lemma valid_finite s m e :
  valid_binary JS.prec JS.emax (S754_finite s m e) = true <-> canonical (Zpos m) e /\ e <= 971.
Proof.
  simpl. unfold bounded. rewrite andb_true_iff, canonical_mantissa_iff, Z.leb_le.
  reflexivity.
Qed.

Lemma mag_bounds m e : 0 < m ->
  (pow2 (Zdigits2 m + e - 1) <= inject_Z m * pow2 e /\
   inject_Z m * pow2 e < pow2 (Zdigits2 m + e))%Q.
Proof.
  intros Hm. destruct (Zdigits2_boundsQ m Hm) as [H1 H2].
  assert (Hp := pow2_pos e).
  replace (Zdigits2 m + e - 1) with ((Zdigits2 m - 1) + e) by lia.
  rewrite !pow2_add. split; nra.
Qed.

(** Among canonical numbers a smaller exponent means a smaller value. *)
Lemma canonical_lt m1 e1 m2 e2 :
  0 < m1 -> 0 < m2 -> canonical m1 e1 -> canonical m2 e2 -> e1 < e2 ->
  (inject_Z m1 * pow2 e1 < inject_Z m2 * pow2 e2)%Q.
Proof.
  unfold canonical. rewrite !fexp_eq. intros H1 H2 C1 C2 He.
  destruct (mag_bounds m1 e1 H1) as [_ Hu].
  destruct (mag_bounds m2 e2 H2) as [Hl _].
  assert (Hle : (pow2 (Zdigits2 m1 + e1) <= pow2 (Zdigits2 m2 + e2 - 1))%Q) by (apply pow2_le; lia).
  lra.
Qed.

Lemma same_exp_compare m1 m2 e :
  ((inject_Z m1 * pow2 e ?= inject_Z m2 * pow2 e)%Q) = (m1 ?= m2).
Proof.
  assert (Hp := pow2_pos e).
  destruct (Z.compare_spec m1 m2) as [->|H|H].
  - apply (proj1 (Qeq_alt _ _)). reflexivity.
  - apply (proj1 (Qlt_alt _ _)). apply Qmult_lt_compat_r; [assumption|]. rewrite <- Zlt_Qlt. assumption.
  - apply (proj1 (Qgt_alt _ _)). apply Qmult_lt_compat_r; [assumption|]. rewrite <- Zlt_Qlt. assumption.
Qed.

Lemma canonical_compare m1 e1 m2 e2 :
  canonical (Zpos m1) e1 -> canonical (Zpos m2) e2 ->
  match e1 ?= e2 with
  | Lt => Lt
  | Gt => Gt
  | Eq => Pos.compare_cont Eq m1 m2
  end = (inject_Z (Zpos m1) * pow2 e1 ?= inject_Z (Zpos m2) * pow2 e2)%Q.
Proof.
  intros C1 C2. destruct (Z.compare_spec e1 e2) as [->|H|H].
  - rewrite same_exp_compare. reflexivity.
  - symmetry. apply (proj1 (Qlt_alt _ _)). apply canonical_lt; auto; lia.
  - symmetry. apply (proj1 (Qgt_alt _ _)). apply canonical_lt; auto; lia.
Qed.

Lemma Qcompare_opp x y : ((- x ?= - y)%Q) = CompOpp ((x ?= y)%Q).
Proof.
  destruct (Qcompare_spec x y) as [H|H|H]; simpl.
  - apply (proj1 (Qeq_alt _ _)). rewrite H. reflexivity.
  - apply (proj1 (Qgt_alt _ _)). lra.
  - apply (proj1 (Qlt_alt _ _)). lra.
Qed.

(** On valid finite numbers [SFcompare] compares the exact values. *)
Lemma SFcompare_val a b :
  valid_binary JS.prec JS.emax a = true -> valid_binary JS.prec JS.emax b = true ->
  finite_or_zero a -> finite_or_zero b ->
  SFcompare a b = Some ((val a ?= val b)%Q).
Proof.
  intros Va Vb Fa Fb.
  destruct a as [sa|sa| |sa ma ea]; try contradiction;
  destruct b as [sb|sb| |sb mb eb]; try contradiction; simpl SFcompare.
  - reflexivity.
  - f_equal. symmetry. unfold val.
    assert (Hp := pow2_pos eb).
    assert (Hm : (0 < inject_Z (Zpos mb))%Q) by (change 0%Q with (inject_Z 0); rewrite <- Zlt_Qlt; lia).
    destruct sb; simpl cond_Zopp.
    + apply (proj1 (Qgt_alt _ _)). change (Zneg mb) with (- Zpos mb). rewrite inject_Z_opp. nra.
    + apply (proj1 (Qlt_alt _ _)). nra.
  - f_equal. symmetry. unfold val.
    assert (Hp := pow2_pos ea).
    assert (Hm : (0 < inject_Z (Zpos ma))%Q) by (change 0%Q with (inject_Z 0); rewrite <- Zlt_Qlt; lia).
    destruct sa; simpl cond_Zopp.
    + apply (proj1 (Qlt_alt _ _)). change (Zneg ma) with (- Zpos ma). rewrite inject_Z_opp. nra.
    + apply (proj1 (Qgt_alt _ _)). nra.
  - apply valid_finite in Va, Vb. destruct Va as [Ca _], Vb as [Cb _].
    f_equal. unfold val.
    assert (Hpa := pow2_pos ea). assert (Hpb := pow2_pos eb).
    assert (Hma : (0 < inject_Z (Zpos ma))%Q) by (change 0%Q with (inject_Z 0); rewrite <- Zlt_Qlt; lia).
    assert (Hmb : (0 < inject_Z (Zpos mb))%Q) by (change 0%Q with (inject_Z 0); rewrite <- Zlt_Qlt; lia).
    destruct sa, sb; simpl cond_Zopp.
    + change (Zneg ma) with (- Zpos ma). change (Zneg mb) with (- Zpos mb).
      rewrite !inject_Z_opp.
      setoid_replace (- inject_Z (Zpos ma) * pow2 ea)%Q with (- (inject_Z (Zpos ma) * pow2 ea))%Q by ring.
      setoid_replace (- inject_Z (Zpos mb) * pow2 eb)%Q with (- (inject_Z (Zpos mb) * pow2 eb))%Q by ring.
      rewrite Qcompare_opp, <- canonical_compare by assumption.
      destruct (ea ?= eb); reflexivity.
    + symmetry. apply (proj1 (Qlt_alt _ _)). change (Zneg ma) with (- Zpos ma). rewrite inject_Z_opp. nra.
    + symmetry. apply (proj1 (Qgt_alt _ _)). change (Zneg mb) with (- Zpos mb). rewrite inject_Z_opp. nra.
    + apply canonical_compare; assumption.
Qed.

(** A valid finite number is determined by its value. *)
Lemma val_inj a b :
  valid_binary JS.prec JS.emax a = true -> valid_binary JS.prec JS.emax b = true ->
  (exists s m e, a = S754_finite s m e) -> (exists s m e, b = S754_finite s m e) ->
  (val a == val b)%Q -> a = b.
Proof.
  intros Va Vb [sa [ma [ea Ea]]] [sb [mb [eb Eb]]] Hv. subst a b.
  assert (Hc := SFcompare_val _ _ Va Vb I I).
  apply (proj1 (Qeq_alt _ _)) in Hv. rewrite Hv in Hc. simpl in Hc.
  destruct sa, sb; try discriminate;
    destruct (Z.compare_spec ea eb) as [->|H|H]; try discriminate;
    injection Hc as Hc; try (apply CompOpp_iff in Hc; simpl in Hc);
    apply Pos.compare_eq in Hc; subst; reflexivity.
Qed.

Lemma pos_valid_valid c : pos_valid c -> valid_binary JS.prec JS.emax c = true.
Proof. intros (m & e & -> & C & He). apply valid_finite. auto. Qed.

Lemma pos_valid_val c : pos_valid c -> (0 < val c)%Q.
Proof.
  intros (m & e & -> & C & He). simpl.
  assert (Hp := pow2_pos e).
  assert (Hm : (0 < inject_Z (Zpos m))%Q) by (change 0%Q with (inject_Z 0); rewrite <- Zlt_Qlt; lia).
  nra.
Qed.

Lemma SFleb_val a b :
  valid_binary JS.prec JS.emax a = true -> valid_binary JS.prec JS.emax b = true ->
  finite_or_zero a -> finite_or_zero b ->
  SFleb a b = true <-> (val a <= val b)%Q.
Proof.
  intros Va Vb Fa Fb. unfold SFleb. rewrite (SFcompare_val a b Va Vb Fa Fb).
  destruct (Qcompare_spec (val a) (val b)) as [H|H|H]; split; intros H'; try discriminate; try reflexivity; lra.
Qed.

Lemma SFltb_val a b :
  valid_binary JS.prec JS.emax a = true -> valid_binary JS.prec JS.emax b = true ->
  finite_or_zero a -> finite_or_zero b ->
  SFltb a b = true <-> (val a < val b)%Q.
Proof.
  intros Va Vb Fa Fb. unfold SFltb. rewrite (SFcompare_val a b Va Vb Fa Fb).
  destruct (Qcompare_spec (val a) (val b)) as [H|H|H]; split; intros H'; try discriminate; try reflexivity; lra.
Qed.

(** ** Rounding is monotone and accurate *)

Lemma mk_cases s m e : 0 <= m ->
  (m = 0 /\ mk s m e = S754_zero s) \/
  (0 < m /\ e <= 971 /\ mk s m e = S754_finite s (Z.to_pos m) e) \/
  (0 < m /\ 971 < e /\ mk s m e = S754_infinity s).
Proof.
  intros Hm. destruct m as [|p|p]; [left; auto | right | lia].
  unfold mk. change (JS.emax - JS.prec) with 971.
  destruct (Z.leb_spec e 971); [left | right]; repeat split; auto; lia.
Qed.

(** The rounding theorem: [binary_round_aux] rounds the located value. *)
Lemma round_pos m e l X :
  0 <= m -> inbetween m l X -> e <= fexp JS.prec JS.emax (Zdigits2 m + e) ->
  rounded (X * pow2 e) (binary_round_aux JS.prec JS.emax false m e l).
Proof.
  intros Hm HX Hpre.
  destruct (bra_spec false m e l X Hm HX Hpre) as (m2 & e2 & HR & Hm2 & Hcan & HE2 & Herr & Hup & Hdn).
  set (E := fexp JS.prec JS.emax (Zdigits2 m + e)) in *.
  set (v := (X * pow2 e)%Q) in *.
  set (R := binary_round_aux JS.prec JS.emax false m e l) in *.
  assert (HEeq : E = Z.max (Zdigits2 m + e - 53) (-1074)) by (unfold E; apply fexp_eq).
  assert (Hbx := inbetween_bounds _ _ _ HX).
  assert (Hpe := pow2_pos e). assert (HpE := pow2_pos E). assert (Hpe2 := pow2_pos e2).
  assert (Hm0 : (0 <= inject_Z m)%Q) by (change 0%Q with (inject_Z 0); rewrite <- Zle_Qle; lia).
  assert (Hv0 : (0 <= v)%Q) by (unfold v; nra).
  assert (Hvhi : (v < pow2 (Zdigits2 m + e))%Q).
  { unfold v. rewrite pow2_add. assert (H := inject_bound_digits m Hm). nra. }
  assert (Hvlo : 0 < m -> (pow2 (Zdigits2 m + e - 1) <= v)%Q).
  { intros Hpos. destruct (mag_bounds m e Hpos) as [H _]. unfold v. nra. }
  assert (HmE : m = 0 -> E = -1074).
  { intros ->. simpl in HEeq, Hpre. fold E in Hpre. lia. }
  assert (Hm2Q : 0 < m2 -> (0 < inject_Z m2 * pow2 e2)%Q).
  { intros Hpos. assert (0 < inject_Z m2)%Q by (change 0%Q with (inject_Z 0); rewrite <- Zlt_Qlt; lia). nra. }
  assert (HA : forall mc ec, canonical (Zpos mc) ec ->
            (inject_Z (Zpos mc) * pow2 ec <= v)%Q ->
            (inject_Z (Zpos mc) * pow2 ec <= inject_Z m2 * pow2 e2)%Q).
  { intros mc ec Cc Hcv. unfold canonical in Cc. rewrite fexp_eq in Cc.
    destruct (mag_bounds (Zpos mc) ec ltac:(lia)) as [Hcl Hcu].
    assert (Hd : Zdigits2 (Zpos mc) + ec - 1 < Zdigits2 m + e) by (apply pow2_lt_inv; lra).
    destruct (Z.eq_dec ec E) as [->|Hne].
    - apply Hdn. assumption.
    - assert (Hlt : ec < E) by lia.
      assert (Hmpos : 0 < m) by (destruct (Z.eq_dec m 0) as [H0|]; [specialize (HmE H0); lia | lia]).
      assert (H52 : (inject_Z (2 ^ 52) * pow2 E <= inject_Z m2 * pow2 e2)%Q).
      { apply Hdn. rewrite <- pow2_Z, <- pow2_add by lia.
        replace (52 + E) with (Zdigits2 m + e - 1) by lia. auto. }
      rewrite <- pow2_Z, <- pow2_add in H52 by lia.
      assert (Hle : (pow2 (Zdigits2 (Zpos mc) + ec) <= pow2 (52 + E))%Q) by (apply pow2_le; lia).
      lra. }
  assert (HB : forall mc ec, canonical (Zpos mc) ec ->
            (v <= inject_Z (Zpos mc) * pow2 ec)%Q ->
            (inject_Z m2 * pow2 e2 <= inject_Z (Zpos mc) * pow2 ec)%Q).
  { intros mc ec Cc Hcv. unfold canonical in Cc. rewrite fexp_eq in Cc.
    destruct (mag_bounds (Zpos mc) ec ltac:(lia)) as [Hcl Hcu].
    assert (HEec : E <= ec).
    { destruct (Z.eq_dec m 0) as [H0|H0]; [specialize (HmE H0); lia|].
      specialize (Hvlo ltac:(lia)).
      assert (Zdigits2 m + e - 1 < Zdigits2 (Zpos mc) + ec) by (apply pow2_lt_inv; lra). lia. }
    assert (Heq : (inject_Z (Zpos mc) * pow2 ec == inject_Z (Zpos mc * 2 ^ (ec - E)) * pow2 E)%Q).
    { rewrite inject_Z_mult, <- pow2_Z by lia. rewrite <- Qmult_assoc, <- pow2_add.
      replace (ec - E + E) with ec by lia. reflexivity. }
    rewrite Heq in *. apply Hup. assumption. }
  assert (HC : (Qabs (inject_Z m2 * pow2 e2 - v) <= v * pow2 (-53) + pow2 (-1075))%Q).
  { eapply Qle_trans; [exact Herr|]. assert (Hp53 := pow2_pos (-53)).
    destruct (Z.eq_dec E (-1074)) as [->|HEn].
    - change (-1074 - 1) with (-1075). nra.
    - assert (Hmpos : 0 < m) by (destruct (Z.eq_dec m 0) as [H0|]; [specialize (HmE H0); lia | lia]).
      specialize (Hvlo Hmpos). replace (E - 1) with ((Zdigits2 m + e - 1) + (-53)) by lia.
      rewrite pow2_add. assert (Hp1075 := pow2_pos (-1075)). nra. }
  fold R in HR.
  destruct (mk_cases false m2 e2 ltac:(lia)) as [(H0 & HR')|[(Hpos & Hle & HR')|(Hpos & Hgt & HR')]];
    rewrite HR' in HR; clear HR'; rewrite HR.
  - (* zero *)
    subst m2. change (inject_Z 0) with 0%Q in *. split; try reflexivity.
    + intros c (mc & ec & -> & Cc & Hec) Hcv. exfalso.
      simpl val in Hcv. simpl cond_Zopp in Hcv.
      specialize (HA mc ec Cc Hcv).
      destruct (mag_bounds (Zpos mc) ec ltac:(lia)) as [Hcl _].
      assert (Hp := pow2_pos (Zdigits2 (Zpos mc) + ec - 1)). lra.
    + intros c (mc & ec & -> & _) _. reflexivity.
    + intros _. simpl val. setoid_replace (0 - v)%Q with (0 * pow2 e2 - v)%Q by ring. assumption.
  - (* finite *)
    assert (HV : valid_binary JS.prec JS.emax (S754_finite false (Z.to_pos m2) e2) = true).
    { apply valid_finite. rewrite Z2Pos.id by lia. split; [apply Hcan|]; assumption. }
    assert (Hval : (val (S754_finite false (Z.to_pos m2) e2) == inject_Z m2 * pow2 e2)%Q).
    { simpl. rewrite Z2Pos.id by lia. reflexivity. }
    split; try assumption; try exact I.
    + intros c Hc Hcv. apply SFleb_val; try exact I; try assumption.
      * apply pos_valid_valid; assumption.
      * destruct Hc as (mc & ec & -> & _); exact I.
      * rewrite Hval. destruct Hc as (mc & ec & -> & Cc & _). apply HA; assumption.
    + intros c Hc Hcv. apply SFleb_val; try exact I; try assumption.
      * apply pos_valid_valid; assumption.
      * destruct Hc as (mc & ec & -> & _); exact I.
      * rewrite Hval. destruct Hc as (mc & ec & -> & Cc & _). apply HB; assumption.
    + intros _. rewrite Hval. assumption.
  - (* overflow *)
    split; try reflexivity.
    + intros c (mc & ec & -> & _) _. reflexivity.
    + intros c (mc & ec & -> & Cc & Hec) Hcv. exfalso.
      simpl val in Hcv. simpl cond_Zopp in Hcv.
      specialize (HB mc ec Cc Hcv).
      assert (Hlt := canonical_lt (Zpos mc) ec m2 e2 ltac:(lia) Hpos Cc (Hcan Hpos) ltac:(lia)).
      lra.
    + intros [].
Qed.

(** ** The four operations round the exact result *)

Lemma canonical_facts m e : 0 < m -> canonical m e ->
  Zdigits2 m <= 53 /\ -1074 <= e /\ (Zdigits2 m = 53 \/ e = -1074).
Proof. unfold canonical. rewrite fexp_eq. lia. Qed.

Lemma Zdigits2_pos m : 0 < m -> 0 < Zdigits2 m.
Proof. intros H. rewrite Zdigits2_log2 by assumption. pose proof (Z.log2_nonneg m). lia. Qed.

Lemma Zdigits2_mul a b : 0 < a -> 0 < b -> Zdigits2 a + Zdigits2 b - 1 <= Zdigits2 (a * b).
Proof.
  intros Ha Hb.
  destruct (Zdigits2_bounds a Ha) as [Ha1 _]. destruct (Zdigits2_bounds b Hb) as [Hb1 _].
  assert (Hda := Zdigits2_pos a Ha). assert (Hdb := Zdigits2_pos b Hb).
  assert (Hab : 0 < a * b) by nia.
  rewrite (Zdigits2_log2 (a * b)) by assumption.
  assert (Zdigits2 a + Zdigits2 b - 2 <= Z.log2 (a * b)); [|lia].
  apply Z.log2_le_pow2; [assumption|].
  replace (Zdigits2 a + Zdigits2 b - 2) with ((Zdigits2 a - 1) + (Zdigits2 b - 1)) by lia.
  rewrite Z.pow_add_r by lia.
  apply Z.mul_le_mono_nonneg; try assumption; apply Z.pow_nonneg; lia.
Qed.

Lemma Zdigits2_shift m k : 0 < m -> 0 <= k -> Zdigits2 (m * 2 ^ k) = Zdigits2 m + k.
Proof.
  intros Hm Hk. assert (0 < 2 ^ k) by (apply Z.pow_pos_nonneg; lia).
  rewrite !Zdigits2_log2 by nia. rewrite Z.log2_mul_pow2 by lia. lia.
Qed.

Lemma val_pos m e : val (S754_finite false m e) = (inject_Z (Zpos m) * pow2 e)%Q.
Proof. reflexivity. Qed.

(** Multiplication rounds the exact product. *)
Lemma mul_rounded a b : pos_valid a -> pos_valid b ->
  rounded (val a * val b) (SFmul JS.prec JS.emax a b).
Proof.
  intros (ma & ea & -> & Ca & Hea) (mb & eb & -> & Cb & Heb).
  simpl SFmul. rewrite !val_pos.
  destruct (canonical_facts (Zpos ma) ea ltac:(lia) Ca) as (Ha1 & Ha2 & Ha3).
  destruct (canonical_facts (Zpos mb) eb ltac:(lia) Cb) as (Hb1 & Hb2 & Hb3).
  assert (Hd := Zdigits2_mul (Zpos ma) (Zpos mb) ltac:(lia) ltac:(lia)).
  assert (Hda := Zdigits2_pos (Zpos ma) ltac:(lia)).
  assert (Hdb := Zdigits2_pos (Zpos mb) ltac:(lia)).
  assert (HR := round_pos (Zpos (ma * mb)) (ea + eb) loc_Exact (inject_Z (Zpos (ma * mb)))).
  assert (E : (inject_Z (Zpos (ma * mb)) * pow2 (ea + eb) ==
               inject_Z (Zpos ma) * pow2 ea * (inject_Z (Zpos mb) * pow2 eb))%Q).
  { rewrite Pos2Z.inj_mul, inject_Z_mult, pow2_add. ring. }
  destruct HR as [H1 H2 H3 H4 H5].
  - lia.
  - simpl. reflexivity.
  - rewrite fexp_eq. rewrite Pos2Z.inj_mul. lia.
  - split; auto.
    + intros c Hc Hv. apply H3; [assumption|]. rewrite E. assumption.
    + intros c Hc Hv. apply H4; [assumption|]. rewrite E. assumption.
    + intros Hf. rewrite <- E. auto.
Qed.

Lemma iter_xO p d : Zpos (Pos.iter xO p d) = Zpos p * 2 ^ Zpos d.
Proof.
  induction d using Pos.peano_ind.
  - simpl. lia.
  - rewrite Pos.iter_succ, Pos2Z.inj_succ, Z.pow_succ_r by lia.
    rewrite Pos2Z.inj_xO, IHd. lia.
Qed.

Lemma shl_align_spec mx ex ex' :
  let '(mz, ez) := shl_align mx ex ex' in
  ez = Z.min ex ex' /\ Zpos mz = Zpos mx * 2 ^ (ex - ez).
Proof.
  unfold shl_align. destruct (ex' - ex) as [|d|d] eqn:Hd.
  - split; [lia|]. replace (ex - ex) with 0 by lia. simpl. lia.
  - split; [lia|]. replace (ex - ex) with 0 by lia. simpl. lia.
  - split; [lia|]. rewrite iter_xO. f_equal. f_equal. lia.
Qed.

Lemma shl_align_val mx ex ex' :
  (inject_Z (Zpos (fst (shl_align mx ex ex'))) * pow2 (Z.min ex ex') ==
   inject_Z (Zpos mx) * pow2 ex)%Q.
Proof.
  assert (H := shl_align_spec mx ex ex'). destruct (shl_align mx ex ex') as [mz ez].
  destruct H as [-> H]. simpl fst. rewrite H, inject_Z_mult, <- pow2_Z by lia.
  rewrite <- Qmult_assoc, <- pow2_add. replace (ex - Z.min ex ex' + Z.min ex ex') with ex by lia.
  reflexivity.
Qed.

(** [binary_round] rounds [p * 2^e]. *)
Lemma binary_round_rounded p e :
  rounded (inject_Z (Zpos p) * pow2 e) (binary_round JS.prec JS.emax false p e).
Proof.
  unfold binary_round.
  assert (H := shl_align_spec p e (fexp JS.prec JS.emax (Zpos (digits2_pos p) + e))).
  assert (Hv := shl_align_val p e (fexp JS.prec JS.emax (Zpos (digits2_pos p) + e))).
  destruct (shl_align p e (fexp JS.prec JS.emax (Zpos (digits2_pos p) + e))) as [mz ez].
  destruct H as [Hez Hmz]. simpl fst in Hv. rewrite <- Hez in Hv.
  assert (HR := round_pos (Zpos mz) ez loc_Exact (inject_Z (Zpos mz))).
  destruct HR as [H1 H2 H3 H4 H5].
  - lia.
  - simpl. reflexivity.
  - rewrite Hmz, Zdigits2_shift by lia.
    change (Zdigits2 (Zpos p)) with (Zpos (digits2_pos p)).
    replace (Zpos (digits2_pos p) + (e - ez) + ez) with (Zpos (digits2_pos p) + e) by lia.
    lia.
  - split; auto.
    + intros c Hc Hcv. apply H3; [assumption|]. rewrite Hv. assumption.
    + intros c Hc Hcv. apply H4; [assumption|]. rewrite Hv. assumption.
    + intros Hf. rewrite <- Hv. auto.
Qed.

Lemma binary_round_aux_sign s m e l :
  binary_round_aux JS.prec JS.emax s m e l = set_sign s (binary_round_aux JS.prec JS.emax false m e l).
Proof.
  unfold binary_round_aux.
  destruct (shr_fexp JS.prec JS.emax m e l) as [mrs' e'].
  destruct (shr_fexp JS.prec JS.emax _ e' loc_Exact) as [mrs'' e''].
  destruct (shr_m mrs''); try reflexivity.
  destruct (e'' <=? JS.emax - JS.prec); reflexivity.
Qed.

Lemma binary_round_sign s p e :
  binary_round JS.prec JS.emax s p e = set_sign s (binary_round JS.prec JS.emax false p e).
Proof.
  unfold binary_round. destruct (shl_align _ _ _) as [mz ez]. apply binary_round_aux_sign.
Qed.

Lemma binary_round_neg p e : neg_class (binary_round JS.prec JS.emax true p e).
Proof.
  rewrite binary_round_sign.
  destruct (binary_round_rounded p e) as [_ H _ _ _].
  destruct (binary_round JS.prec JS.emax false p e) as [[]|[]| |[] ? ?]; simpl in *; auto.
Qed.

(** Addition rounds the exact sum. *)
Lemma add_rounded a b : pos_valid a -> pos_valid b ->
  rounded (val a + val b) (SFadd JS.prec JS.emax a b).
Proof.
  intros (ma & ea & -> & Ca & Hea) (mb & eb & -> & Cb & Heb).
  simpl SFadd. rewrite !val_pos. simpl cond_Zopp.
  assert (Ha := shl_align_val ma ea (Z.min ea eb)).
  assert (Hb := shl_align_val mb eb (Z.min ea eb)).
  rewrite (Z.min_r ea (Z.min ea eb)) in Ha by lia. rewrite (Z.min_r eb (Z.min ea eb)) in Hb by lia.
  set (Ma := fst (shl_align ma ea (Z.min ea eb))) in *.
  set (Mb := fst (shl_align mb eb (Z.min ea eb))) in *.
  change (Zpos Ma + Zpos Mb) with (Zpos (Ma + Mb)). simpl binary_normalize.
  assert (HR := binary_round_rounded (Ma + Mb) (Z.min ea eb)).
  assert (E : (inject_Z (Zpos (Ma + Mb)) * pow2 (Z.min ea eb) ==
               inject_Z (Zpos ma) * pow2 ea + inject_Z (Zpos mb) * pow2 eb)%Q).
  { rewrite Pos2Z.inj_add, inject_Z_plus, <- Ha, <- Hb. ring. }
  destruct HR as [H1 H2 H3 H4 H5]. split; auto.
  - intros c Hc Hv. apply H3; [assumption|]. rewrite E. assumption.
  - intros c Hc Hv. apply H4; [assumption|]. rewrite E. assumption.
  - intros Hf. rewrite <- E. auto.
Qed.

(** Subtraction rounds the exact difference when it is positive, and is
    [+0] or negative otherwise. *)
Lemma sub_cases a b : pos_valid a -> pos_valid b ->
  ((val b < val a)%Q /\ rounded (val a - val b) (SFsub JS.prec JS.emax a b)) \/
  ((val a == val b)%Q /\ SFsub JS.prec JS.emax a b = S754_zero false) \/
  ((val a < val b)%Q /\ neg_class (SFsub JS.prec JS.emax a b)).
Proof.
  intros (ma & ea & -> & Ca & Hea) (mb & eb & -> & Cb & Heb).
  rewrite !val_pos.
  assert (Ha := shl_align_val ma ea (Z.min ea eb)).
  assert (Hb := shl_align_val mb eb (Z.min ea eb)).
  rewrite (Z.min_r ea (Z.min ea eb)) in Ha by lia. rewrite (Z.min_r eb (Z.min ea eb)) in Hb by lia.
  change (SFsub JS.prec JS.emax (S754_finite false ma ea) (S754_finite false mb eb))
    with (binary_normalize JS.prec JS.emax
            (Zpos (fst (shl_align ma ea (Z.min ea eb))) - Zpos (fst (shl_align mb eb (Z.min ea eb))))
            (Z.min ea eb) false).
  set (Ma := fst (shl_align ma ea (Z.min ea eb))) in *.
  set (Mb := fst (shl_align mb eb (Z.min ea eb))) in *.
  assert (Hp := pow2_pos (Z.min ea eb)).
  assert (E : (inject_Z (Zpos Ma - Zpos Mb) * pow2 (Z.min ea eb) ==
               inject_Z (Zpos ma) * pow2 ea - inject_Z (Zpos mb) * pow2 eb)%Q).
  { unfold Z.sub at 1. rewrite inject_Z_plus, inject_Z_opp, <- Ha, <- Hb. ring. }
  destruct (Zpos Ma - Zpos Mb) as [|d|d] eqn:Hd.
  - right; left. split; [|reflexivity]. change (inject_Z 0) with 0%Q in E. lra.
  - left. assert (0 < inject_Z (Zpos d))%Q by (change 0%Q with (inject_Z 0); rewrite <- Zlt_Qlt; lia).
    split; [nra|]. simpl binary_normalize.
    destruct (binary_round_rounded d (Z.min ea eb)) as [H1 H2 H3 H4 H5]. split; auto.
    + intros c Hc Hv. apply H3; [assumption|]. rewrite E. assumption.
    + intros c Hc Hv. apply H4; [assumption|]. rewrite E. assumption.
    + intros Hf. rewrite <- E. auto.
  - right; right. assert (inject_Z (Zneg d) < 0)%Q by (change 0%Q with (inject_Z 0); rewrite <- Zlt_Qlt; lia).
    split; [nra|]. simpl binary_normalize. apply binary_round_neg.
Qed.

Lemma frac_compare k n : 0 < n ->
  ((inject_Z k / inject_Z n ?= 1 # 2)%Q) = (2 * k ?= n).
Proof.
  intros Hn.
  assert (HN : (0 < inject_Z n)%Q) by (change 0%Q with (inject_Z 0); rewrite <- Zlt_Qlt; lia).
  assert (Hf : (inject_Z k / inject_Z n * inject_Z n == inject_Z k)%Q) by (field; lra).
  set (f := (inject_Z k / inject_Z n)%Q) in *.
  assert (H2 : (inject_Z (2 * k) == 2 * inject_Z k)%Q) by (rewrite inject_Z_mult; reflexivity).
  destruct (Z.compare_spec (2 * k) n) as [H|H|H].
  - apply (proj1 (Qeq_alt _ _)). rewrite <- H in *. rewrite H2 in Hf, HN. nra.
  - apply (proj1 (Qlt_alt _ _)). rewrite Zlt_Qlt, H2 in H. nra.
  - apply (proj1 (Qgt_alt _ _)). rewrite Zlt_Qlt, H2 in H. nra.
Qed.

(** The location computed from a remainder is the location of the
    quotient. *)
Lemma new_location_spec q n k : 0 < n -> 0 <= k < n ->
  inbetween q (new_location n k) (inject_Z q + inject_Z k / inject_Z n).
Proof.
  intros Hn Hk.
  assert (HN : (0 < inject_Z n)%Q) by (change 0%Q with (inject_Z 0); rewrite <- Zlt_Qlt; lia).
  assert (Hc := frac_compare k n Hn).
  assert (Hf : (inject_Z k / inject_Z n * inject_Z n == inject_Z k)%Q) by (field; lra).
  assert (HK : (0 <= inject_Z k)%Q) by (change 0%Q with (inject_Z 0); rewrite <- Zle_Qle; lia).
  assert (HKN : (inject_Z k < inject_Z n)%Q) by (rewrite <- Zlt_Qlt; lia).
  set (f := (inject_Z k / inject_Z n)%Q) in *.
  assert (Hf0 : (0 <= f)%Q) by nra.
  assert (Hf1 : (f < 1)%Q) by nra.
  assert (Hfpos : k <> 0 -> (0 < f)%Q).
  { intros Hne. assert (0 < inject_Z k)%Q by (change 0%Q with (inject_Z 0); rewrite <- Zlt_Qlt; lia). nra. }
  unfold new_location, new_location_even, new_location_odd.
  destruct (Z.even n) eqn:Hev.
  - destruct (Z.eqb_spec k 0) as [->|Hne].
    + simpl. unfold f. change (inject_Z 0) with 0%Q. field. lra.
    + specialize (Hfpos Hne). rewrite <- Hc.
      destruct (Qcompare_spec f (1 # 2)) as [H|H|H]; simpl; lra.
  - destruct (Z.eqb_spec k 0) as [->|Hne].
    + simpl. unfold f. change (inject_Z 0) with 0%Q. field. lra.
    + specialize (Hfpos Hne).
      assert (Hodd : Z.odd n = true) by (rewrite <- Z.negb_even, Hev; reflexivity).
      apply Z.odd_spec in Hodd. destruct Hodd as [j Hj].
      destruct (Z.compare_spec (2 * k + 1) n) as [H|H|H].
      * assert (Hlt : (f < 1 # 2)%Q).
        { apply (proj2 (Qlt_alt _ _)). rewrite Hc. apply Z.compare_lt_iff. lia. }
        simpl. lra.
      * assert (Hlt : (f < 1 # 2)%Q).
        { apply (proj2 (Qlt_alt _ _)). rewrite Hc. apply Z.compare_lt_iff. lia. }
        simpl. lra.
      * assert (Hgt : (1 # 2 < f)%Q).
        { apply (proj2 (Qgt_alt _ _)). rewrite Hc. apply Z.compare_gt_iff. lia. }
        simpl. lra.
Qed.

Lemma div_core_spec ma ea mb eb :
  exists q e' l,
    SFdiv_core_binary JS.prec JS.emax (Zpos ma) ea (Zpos mb) eb = (q, e', l) /\
    0 <= q /\
    e' <= fexp JS.prec JS.emax (Zdigits2 q + e') /\
    exists X, inbetween q l X /\
      (X * pow2 e' == (inject_Z (Zpos ma) * pow2 ea) / (inject_Z (Zpos mb) * pow2 eb))%Q.
Proof.
  unfold SFdiv_core_binary.
  set (da := Zdigits2 (Zpos ma)). set (db := Zdigits2 (Zpos mb)).
  set (e' := Z.min (fexp JS.prec JS.emax (da + ea - (db + eb))) (ea - eb)).
  set (s := ea - eb - e').
  assert (Hs : 0 <= s) by (unfold s, e'; lia).
  set (m' := match s with Zpos _ => Z.shiftl (Zpos ma) s | Z0 => Zpos ma | Zneg _ => 0 end).
  assert (Hm' : m' = Zpos ma * 2 ^ s).
  { unfold m'. destruct s as [|p|p]; [simpl; lia | apply Z.shiftl_mul_pow2; lia | lia]. }
  assert (Hdiv := Z_div_mod m' (Zpos mb) ltac:(lia)).
  destruct (Z.div_eucl m' (Zpos mb)) as [q r]. destruct Hdiv as [Hqr Hr].
  assert (Hp2 : 0 < 2 ^ s) by (apply Z.pow_pos_nonneg; lia).
  assert (Hm'pos : 0 < m') by nia.
  assert (Hq : 0 <= q) by nia.
  exists q, e', (new_location (Zpos mb) r). split; [reflexivity|]. split; [assumption|]. split.
  - (* exponent *)
    assert (Hdm' : Zdigits2 m' = da + s) by (rewrite Hm'; apply Zdigits2_shift; lia).
    destruct (Zdigits2_bounds m' Hm'pos) as [Hm1 Hm2]. rewrite Hdm' in Hm1, Hm2.
    destruct (Zdigits2_bounds (Zpos mb) ltac:(lia)) as [Hb1 Hb2]. fold db in Hb1, Hb2.
    assert (Hda : 0 < da) by (apply Zdigits2_pos; lia).
    assert (Hdb : 0 < db) by (apply Zdigits2_pos; lia).
    assert (He' : e' <= fexp JS.prec JS.emax (da + ea - (db + eb))) by (unfold e'; lia).
    rewrite fexp_eq in He' |- *.
    destruct (Z.eq_dec q 0) as [->|Hq0].
    + simpl Zdigits2.
      assert (da + s - 1 < db).
      { apply (Z.pow_lt_mono_r_iff 2); lia. }
      lia.
    + assert (HD : da + s - db <= Zdigits2 q).
      { destruct (Z_le_gt_dec (da + s - db) 0) as [Hle|Hgt].
        - assert (0 < Zdigits2 q) by (apply Zdigits2_pos; lia). lia.
        - rewrite Zdigits2_log2 by lia.
          assert (da + s - db - 1 <= Z.log2 q); [|lia].
          apply Z.log2_le_pow2; [lia|].
          assert (Hpow : 2 ^ (da + s - 1) = 2 ^ (da + s - db - 1) * 2 ^ db).
          { rewrite <- Z.pow_add_r by lia. f_equal. lia. }
          assert (0 < 2 ^ (da + s - db - 1)) by (apply Z.pow_pos_nonneg; lia).
          assert (0 < 2 ^ db) by (apply Z.pow_pos_nonneg; lia).
          nia. }
      unfold s in HD. lia.
  - exists (inject_Z q + inject_Z r / inject_Z (Zpos mb))%Q. split.
    + apply new_location_spec; lia.
    + assert (HB : (0 < inject_Z (Zpos mb))%Q) by (change 0%Q with (inject_Z 0); rewrite <- Zlt_Qlt; lia).
      assert (Hpb := pow2_pos eb).
      assert (HQ : (inject_Z q + inject_Z r / inject_Z (Zpos mb) == inject_Z m' / inject_Z (Zpos mb))%Q).
      { rewrite Hqr, inject_Z_plus, inject_Z_mult. field. lra. }
      rewrite HQ, Hm', inject_Z_mult, <- pow2_Z by lia.
      assert (Hpe : (pow2 ea == pow2 s * pow2 e' * pow2 eb)%Q).
      { rewrite <- !pow2_add. unfold s. replace (ea - eb - e' + e' + eb) with ea by lia. reflexivity. }
      rewrite Hpe. field. split; lra.
Qed.

(** Division rounds the exact quotient. *)
Lemma div_rounded a b : pos_valid a -> pos_valid b ->
  rounded (val a / val b) (SFdiv JS.prec JS.emax a b).
Proof.
  intros (ma & ea & -> & Ca & Hea) (mb & eb & -> & Cb & Heb).
  rewrite !val_pos. simpl SFdiv.
  destruct (div_core_spec ma ea mb eb) as (q & e' & l & Hcore & Hq & Hpre & X & HX & HXv).
  rewrite Hcore.
  destruct (round_pos q e' l X Hq HX Hpre) as [H1 H2 H3 H4 H5]. split; auto.
  - intros c Hc Hv. apply H3; [assumption|]. rewrite HXv. assumption.
  - intros c Hc Hv. apply H4; [assumption|]. rewrite HXv. assumption.
  - intros Hf. rewrite <- HXv. auto.
Qed.

(** ** Non-negative numbers are closed under the calculator's operations *)

Lemma pos_validb_sound x : pos_validb x = true -> pos_valid x.
Proof.
  destruct x as [| | |[] m e]; try discriminate. intros H.
  apply (proj1 (valid_finite false m e)) in H. destruct H. exists m, e. repeat split; assumption.
Qed.

Lemma pos_valid_finite x : pos_valid x -> finite_or_zero x.
Proof. intros (m & e & -> & _). exact I. Qed.

(** The side conditions of [SFleb_val] and [SFltb_val] on positive numbers. *)
Ltac valid_side :=
  try (apply pos_valid_valid; assumption);
  try (apply pos_valid_finite; assumption).

Lemma rounded_good v R : rounded v R -> good R.
Proof.
  intros [Hv Hc _ _ _]. destruct R as [[]|[]| |[] m e]; try contradiction.
  - left; reflexivity.
  - right; right; reflexivity.
  - right; left. apply pos_validb_sound. exact Hv.
Qed.

Lemma mul_good x c : good x -> pos_valid c -> good (JS.mul x c).
Proof.
  intros [->|[Hx| ->]] Hc.
  - destruct Hc as (m & e & -> & _). left. reflexivity.
  - eapply rounded_good. apply mul_rounded; assumption.
  - destruct Hc as (m & e & -> & _). right; right. reflexivity.
Qed.

Lemma div_good x c : good x -> pos_valid c -> good (JS.div x c).
Proof.
  intros [->|[Hx| ->]] Hc.
  - destruct Hc as (m & e & -> & _). left. reflexivity.
  - eapply rounded_good. apply div_rounded; assumption.
  - destruct Hc as (m & e & -> & _). right; right. reflexivity.
Qed.

Lemma add_zero_l x : good x -> JS.add (S754_zero false) x = x.
Proof. intros [->|[(m & e & -> & _)| ->]]; reflexivity. Qed.

Lemma add_good x y : good x -> good y -> good (JS.add x y).
Proof.
  intros [->|[Hx| ->]] Hy.
  - rewrite add_zero_l; assumption.
  - destruct Hy as [->|[Hy| ->]].
    + destruct Hx as (m & e & -> & H). right; left. exists m, e. split; [reflexivity|assumption].
    + eapply rounded_good. apply add_rounded; assumption.
    + destruct Hx as (m & e & -> & H). right; right. reflexivity.
  - destruct Hy as [->|[(m & e & -> & _)| ->]]; right; right; reflexivity.
Qed.

Lemma sub_good c y : pos_valid c -> good y -> good (JS.sub c y) \/ neg_class (JS.sub c y).
Proof.
  intros Hc [->|[Hy| ->]].
  - left. destruct Hc as (m & e & -> & H). right; left. exists m, e. split; [reflexivity|assumption].
  - destruct (sub_cases c y Hc Hy) as [[_ H]|[[_ H]|[_ H]]].
    + left. eapply rounded_good; eassumption.
    + left. left. assumption.
    + right. assumption.
  - right. destruct Hc as (m & e & -> & H). exact I.
Qed.

Lemma Math_max_good c y : pos_valid c -> good y \/ neg_class y ->
  JS.Math_max c y = c \/ (JS.Math_max c y = y /\ (pos_valid y \/ y = S754_infinity false)).
Proof.
  intros Hc Hy. assert (Vc := pos_valid_valid c Hc).
  destruct Hy as [[->|[Hy| ->]]|Hy].
  - destruct Hc as (m & e & -> & _). left. reflexivity.
  - assert (Vy := pos_valid_valid y Hy).
    unfold JS.Math_max. rewrite (SFcompare_val c y Vc Vy (pos_valid_finite _ Hc) (pos_valid_finite _ Hy)).
    destruct (val c ?= val y)%Q; auto.
    destruct Hc as (m & e & -> & _). auto.
  - destruct Hc as (m & e & -> & _). right. split; [reflexivity|auto].
  - destruct Hc as (m & e & -> & _). left.
    destruct y as [[]|[]| |[] ? ?]; try contradiction; reflexivity.
Qed.

Lemma Math_max_pos c y : pos_valid c -> good y \/ neg_class y ->
  pos_valid (JS.Math_max c y) \/ JS.Math_max c y = S754_infinity false.
Proof.
  intros Hc Hy. destruct (Math_max_good c y Hc Hy) as [->|[-> H]]; auto.
Qed.

Lemma Math_min_good c y : pos_valid c -> good y ->
  let r := JS.Math_min c y in
  (r = S754_zero false \/ pos_valid r) /\ (val r <= val c)%Q.
Proof.
  intros Hc Hy r. assert (Vc := pos_valid_valid c Hc). assert (Pc := pos_valid_val c Hc).
  unfold r. destruct Hy as [->|[Hy| ->]].
  - assert (E : JS.Math_min c (S754_zero false) = S754_zero false)
      by (destruct Hc as (m & e & -> & H); reflexivity).
    rewrite E. split; [left; reflexivity|].
    change (val (S754_zero false)) with 0%Q. lra.
  - assert (Vy := pos_valid_valid y Hy).
    unfold JS.Math_min. rewrite (SFcompare_val c y Vc Vy (pos_valid_finite _ Hc) (pos_valid_finite _ Hy)).
    destruct (Qcompare_spec (val c) (val y)) as [H|H|H].
    + assert (E : match c with S754_zero true => c | _ => y end = y)
        by (destruct Hc as (m & e & -> & _); reflexivity).
      rewrite E. split; [auto|lra].
    + split; [auto|lra].
    + split; [auto|lra].
  - assert (E : JS.Math_min c (S754_infinity false) = c)
      by (destruct Hc as (m & e & -> & H); reflexivity).
    rewrite E. split; [auto|lra].
Qed.

Lemma Math_max_zero y : good y -> JS.Math_max (S754_zero false) y = y.
Proof. intros [->|[(m & e & -> & _)| ->]]; reflexivity. Qed.

(** ** Integers as numbers, and [Math.round] *)

Lemma rounded_ext v v' R : (v == v')%Q -> rounded v R -> rounded v' R.
Proof.
  intros E [H1 H2 H3 H4 H5]. split; auto.
  - intros c Hc Hv. apply H3; [assumption|]. rewrite E. assumption.
  - intros c Hc Hv. apply H4; [assumption|]. rewrite E. assumption.
  - intros Hf. rewrite <- E. auto.
Qed.

(** A positive integer becomes its rounding. *)
Lemma of_Z_rounded z : 0 < z -> rounded (inject_Z z) (JS.of_Z z).
Proof.
  destruct z as [|p|p]; try lia. intros _.
  apply (rounded_ext (inject_Z (Zpos p) * pow2 0)).
  - rewrite pow2_0. ring.
  - apply binary_round_rounded.
Qed.

Lemma max_float_valid : pos_valid max_float.
Proof. apply pos_validb_sound. vm_compute. reflexivity. Qed.

Lemma max_float_val : (val max_float == inject_Z MAX_VALUE)%Q.
Proof.
  unfold max_float, MAX_VALUE. rewrite val_pos, inject_Z_mult, pow2_Z by lia. reflexivity.
Qed.

Lemma one_valid : pos_valid (JS.of_Z 1).
Proof. apply pos_validb_sound. vm_compute. reflexivity. Qed.

Lemma one_val : (val (JS.of_Z 1) == 1)%Q.
Proof. vm_compute. reflexivity. Qed.

Lemma of_Z_pos_valid z : 0 < z <= MAX_VALUE -> pos_valid (JS.of_Z z).
Proof.
  intros [Hz Hmax]. assert (HR := of_Z_rounded z Hz).
  destruct (rounded_good _ _ HR) as [E|[H|E]]; [exfalso | assumption | exfalso].
  - assert (H := rnd_ge _ _ HR _ one_valid). rewrite E in H.
    assert (SFleb (JS.of_Z 1) (S754_zero false) = false) by reflexivity.
    rewrite H in H0; [discriminate|]. rewrite one_val.
    change 1%Q with (inject_Z 1). rewrite <- Zle_Qle. lia.
  - assert (H := rnd_le _ _ HR _ max_float_valid). rewrite E in H.
    assert (SFleb (S754_infinity false) max_float = false) by reflexivity.
    rewrite H in H0; [discriminate|]. rewrite max_float_val.
    rewrite <- Zle_Qle. lia.
Qed.

Lemma of_Z_cases z : 0 <= z <= MAX_VALUE ->
  (z = 0 /\ JS.of_Z z = S754_zero false) \/ (0 < z /\ pos_valid (JS.of_Z z)).
Proof.
  intros H. destruct (Z.eq_dec z 0) as [->|Hne]; [left; auto|].
  right. split; [lia|]. apply of_Z_pos_valid. lia.
Qed.

Lemma of_Z_ge c z : pos_valid c -> 0 < z <= MAX_VALUE ->
  (val c <= inject_Z z)%Q -> (val c <= val (JS.of_Z z))%Q.
Proof.
  intros Hc Hz Hv. assert (Pz := of_Z_pos_valid z Hz).
  apply SFleb_val; valid_side.
  apply (rnd_ge _ _ (of_Z_rounded z ltac:(lia))); assumption.
Qed.

Lemma of_Z_le c z : pos_valid c -> 0 < z <= MAX_VALUE ->
  (inject_Z z <= val c)%Q -> (val (JS.of_Z z) <= val c)%Q.
Proof.
  intros Hc Hz Hv. assert (Pz := of_Z_pos_valid z Hz).
  apply SFleb_val; valid_side.
  apply (rnd_le _ _ (of_Z_rounded z ltac:(lia))); assumption.
Qed.

(** [round_half_up] is [floor (x + 1/2)]. *)
Lemma round_half_up_spec m e :
  let n := JS.round_half_up false m e in
  (inject_Z n <= val (S754_finite false m e) + (1 # 2))%Q /\
  (val (S754_finite false m e) + (1 # 2) < inject_Z n + 1)%Q.
Proof.
  intros n. rewrite val_pos. unfold n, JS.round_half_up. simpl cond_Zopp.
  destruct e as [|k|k].
  - rewrite pow2_0. lra.
  - rewrite pow2_Z by lia. rewrite inject_Z_mult. lra.
  - change (- Zneg k) with (Zpos k).
    assert (Hp : 0 < 2 ^ Zpos k) by (apply Z.pow_pos_nonneg; lia).
    assert (Hh : 2 ^ Zpos k = 2 * 2 ^ (Zpos k - 1)).
    { rewrite <- Z.pow_succ_r by lia. f_equal. lia. }
    set (P := 2 ^ Zpos k) in *. set (H := 2 ^ (Zpos k - 1)) in *.
    assert (Hv : (inject_Z (Zpos m) * pow2 (Zneg k) == inject_Z (Zpos m) / inject_Z P)%Q).
    { change (Zneg k) with (- Zpos k). unfold pow2. rewrite Qpower_opp.
      fold (pow2 (Zpos k)). rewrite pow2_Z by lia. reflexivity. }
    rewrite Hv.
    assert (HP : (0 < inject_Z P)%Q) by (change 0%Q with (inject_Z 0); rewrite <- Zlt_Qlt; lia).
    assert (Hd := Z_div_mod_eq_full (Zpos m + H) P).
    assert (Hr := Z.mod_pos_bound (Zpos m + H) P Hp).
    set (q := (Zpos m + H) / P) in *. set (r := (Zpos m + H) mod P) in *.
    assert (HQ : (inject_Z (Zpos m) == inject_Z P * inject_Z q + inject_Z r - inject_Z H)%Q).
    { rewrite <- inject_Z_mult, <- inject_Z_plus, <- Hd, inject_Z_plus. ring. }
    assert (HH : (inject_Z P == 2 * inject_Z H)%Q).
    { rewrite Hh, inject_Z_mult. reflexivity. }
    assert (Hr0 : (0 <= inject_Z r)%Q) by (change 0%Q with (inject_Z 0); rewrite <- Zle_Qle; lia).
    assert (Hr1 : (inject_Z r < inject_Z P)%Q) by (rewrite <- Zlt_Qlt; lia).
    assert (Hf : (inject_Z (Zpos m) / inject_Z P * inject_Z P == inject_Z (Zpos m))%Q) by (field; lra).
    set (x := (inject_Z (Zpos m) / inject_Z P)%Q) in *.
    split; nra.
Qed.

Lemma Math_round_finite m e :
  JS.Math_round (S754_finite false m e) = JS.of_Z (JS.round_half_up false m e).
Proof.
  unfold JS.Math_round. destruct (JS.round_half_up false m e); reflexivity.
Qed.

Lemma Math_round_range y : y = S754_zero false \/ pos_valid y -> (val y <= 100)%Q ->
  exists n, 0 <= n <= 100 /\ JS.Math_round y = JS.of_Z n.
Proof.
  intros [->|Hy] Hle.
  - exists 0. split; [lia|reflexivity].
  - assert (Hpos := pos_valid_val y Hy). destruct Hy as (m & e & -> & _).
    exists (JS.round_half_up false m e). split; [|apply Math_round_finite].
    destruct (round_half_up_spec m e) as [H1 H2].
    set (n := JS.round_half_up false m e) in *.
    assert (H3 : (inject_Z n < inject_Z 101)%Q) by (change (inject_Z 101) with 101%Q; lra).
    assert (H4 : (inject_Z (-1) < inject_Z n)%Q) by (change (inject_Z (-1)) with (-1)%Q; lra).
    rewrite <- Zlt_Qlt in H3, H4. lia.
Qed.

(** ** The components never produce NaN *)

Ltac const_valid := apply pos_validb_sound; vm_compute; reflexivity.

Lemma count_good x : count x -> good x.
Proof. intros [H|H]; [left|right; left]; assumption. Qed.

Lemma of_Z_count z : 0 <= z <= MAX_VALUE -> count (JS.of_Z z).
Proof. intros H. destruct (of_Z_cases z H) as [[_ E]|[_ P]]; [left|right]; assumption. Qed.

Lemma gtb_0_pos x : pos_valid x -> JS.gtb x (JS.of_Z 0) = true.
Proof. intros (m & e & -> & _). reflexivity. Qed.

Lemma gtb_0_count x : count x -> JS.gtb x (JS.of_Z 0) = true -> pos_valid x.
Proof. intros [->|H]; [discriminate|auto]. Qed.

Lemma sub_pos a b : pos_valid a -> pos_valid b -> SFltb b a = true ->
  rounded (val a - val b) (JS.sub a b).
Proof.
  intros Ha Hb Hlt.
  apply SFltb_val in Hlt; valid_side.
  destruct (sub_cases a b Ha Hb) as [[_ H]|[[H _]|[H _]]]; [assumption | lra | lra].
Qed.

Lemma min100_good y : good y -> good (JS.Math_min (JS.of_Z 100) y).
Proof.
  intros Hy. destruct (Math_min_good (JS.of_Z 100) y ltac:(const_valid) Hy) as [H _].
  apply count_good. exact H.
Qed.

Lemma taskScore_good tp tc : count tp -> pos_valid tc -> good (taskScore tp tc).
Proof.
  intros Htp Htc. unfold taskScore.
  destruct (JS.gtb tp (JS.of_Z 0)) eqn:Hg.
  - apply min100_good. apply mul_good; [|const_valid].
    eapply rounded_good. apply div_rounded; [assumption|]. apply gtb_0_count; assumption.
  - apply min100_good. apply mul_good; [|const_valid]. right; left; assumption.
Qed.

Lemma pomodoroScore_good p : pos_valid p -> good (pomodoroScore p).
Proof.
  intros Hp. unfold pomodoroScore.
  destruct (JS.ltb p (JS.of_Z 6)).
  - apply mul_good; [|const_valid]. apply div_good; [right; left; assumption|const_valid].
  - destruct (JS.gtb p (JS.of_Z 10)) eqn:Hg.
    + assert (H10 : pos_valid (JS.of_Z 10)) by const_valid.
      assert (Ha := rounded_good _ _ (sub_pos p _ Hp H10 Hg)).
      assert (Hb := mul_good _ (JS.of_Z 5) Ha ltac:(const_valid)).
      assert (Hc := sub_good (JS.of_Z 100) _ ltac:(const_valid) Hb).
      destruct (Math_max_pos (JS.of_Z 70) _ ltac:(const_valid) Hc) as [H|H].
      * right; left; exact H.
      * right; right; exact H.
    + right; left. const_valid.
Qed.

Lemma focusScore_good f : pos_valid f -> good (focusScore f).
Proof.
  intros Hf. unfold focusScore.
  destruct (JS.ltb f (JS.of_Z 120)).
  - apply mul_good; [|const_valid]. apply div_good; [right; left; assumption|const_valid].
  - destruct (JS.gtb f (JS.of_Z 360)) eqn:Hg.
    + assert (H360 : pos_valid (JS.of_Z 360)) by const_valid.
      assert (Ha := rounded_good _ _ (sub_pos f _ Hf H360 Hg)).
      assert (Hb := div_good _ (JS.of_Z 60) Ha ltac:(const_valid)).
      assert (Hb' := mul_good _ (JS.of_Z 3) Hb ltac:(const_valid)).
      assert (Hc := sub_good (JS.of_Z 100) _ ltac:(const_valid) Hb').
      destruct (Math_max_pos (JS.of_Z 80) _ ltac:(const_valid) Hc) as [H|H].
      * right; left; exact H.
      * right; right; exact H.
    + right; left. const_valid.
Qed.

Lemma w35_valid : pos_valid w35.
Proof. const_valid. Qed.

Lemma w30_valid : pos_valid w30.
Proof. const_valid. Qed.

Lemma afterTasks_good tp tc : count tp -> count tc -> good (afterTasks tp tc).
Proof.
  intros Htp Htc. unfold afterTasks.
  destruct (JS.gtb tc (JS.of_Z 0)) eqn:Hg.
  - apply add_good; [left; reflexivity|].
    apply mul_good; [|exact w35_valid]. apply taskScore_good; [assumption|].
    apply gtb_0_count; assumption.
  - left; reflexivity.
Qed.

Lemma afterPomodoros_good eff p : good eff -> count p -> good (afterPomodoros eff p).
Proof.
  intros He Hp. unfold afterPomodoros.
  destruct (JS.gtb p (JS.of_Z 0)) eqn:Hg; [|assumption].
  apply add_good; [assumption|].
  apply mul_good; [|exact w35_valid]. apply pomodoroScore_good. apply gtb_0_count; assumption.
Qed.

Lemma afterFocus_good eff f : good eff -> count f -> good (afterFocus eff f).
Proof.
  intros He Hf. unfold afterFocus.
  destruct (JS.gtb f (JS.of_Z 0)) eqn:Hg; [|assumption].
  apply add_good; [assumption|].
  apply mul_good; [|exact w30_valid]. apply focusScore_good. apply gtb_0_count; assumption.
Qed.

Lemma clamp_round_range eff : good eff ->
  exists n, 0 <= n <= 100 /\
    JS.Math_round (JS.Math_min (JS.of_Z 100) (JS.Math_max (JS.of_Z 0) eff)) = JS.of_Z n.
Proof.
  intros He. change (JS.of_Z 0) with (S754_zero false). rewrite Math_max_zero by assumption.
  destruct (Math_min_good (JS.of_Z 100) eff ltac:(const_valid) He) as [H1 H2].
  apply Math_round_range; [exact H1|].
  assert (E : (val (JS.of_Z 100) == 100)%Q) by (vm_compute; reflexivity).
  rewrite E in H2. exact H2.
Qed.

Lemma calculateEfficiency_count tp tc p f :
  count tp -> count tc -> count p -> count f ->
  exists n, 0 <= n <= 100 /\
    calculateEfficiency
      {| tasksPlanned := Some tp; tasksCompleted := tc;
         pomodorosSessions := p; focusTime := f |} = JS.of_Z n.
Proof.
  intros Htp Htc Hp Hf. unfold calculateEfficiency. cbn [tasksPlanned tasksCompleted pomodorosSessions focusTime].
  destruct (_ && _).
  - exists 0. split; [lia|reflexivity].
  - apply clamp_round_range. apply afterFocus_good; [|assumption].
    apply afterPomodoros_good; [|assumption]. apply afterTasks_good; assumption.
Qed.

(** ** Exact integer arithmetic below [2^53] *)

Lemma of_Z_good z : 0 <= z -> good (JS.of_Z z).
Proof.
  intros Hz. destruct (Z.eq_dec z 0) as [->|Hne]; [left; reflexivity|].
  eapply rounded_good. apply of_Z_rounded. lia.
Qed.

Lemma or_zero_good x : good x -> JS.or_zero (Some x) = x.
Proof. intros [->|[(m & e & -> & _)| ->]]; reflexivity. Qed.

Lemma countTasks_length l : countTasks (Some l) = JS.of_Z (Z.of_nat (length l)).
Proof. unfold countTasks. apply or_zero_good. apply of_Z_good. lia. Qed.

(** Integers below [2^53] are represented exactly. *)
Lemma of_Z_exact z : 0 < z < 2 ^ 53 -> pos_valid (JS.of_Z z) /\ (val (JS.of_Z z) == inject_Z z)%Q.
Proof.
  intros Hz.
  assert (Hmax : z <= MAX_VALUE).
  { unfold MAX_VALUE. assert (0 < 2 ^ 971) by (apply Z.pow_pos_nonneg; lia). nia. }
  assert (Pz := of_Z_pos_valid z ltac:(lia)). split; [assumption|].
  set (d := Zdigits2 z).
  assert (Hd : 0 < d <= 53).
  { split; [apply Zdigits2_pos; lia|]. unfold d. rewrite Zdigits2_log2 by lia.
    assert (Z.log2 z < 53) by (apply Z.log2_lt_pow2; lia). lia. }
  assert (Hp : 0 < 2 ^ (53 - d)) by (apply Z.pow_pos_nonneg; lia).
  set (c := S754_finite false (Z.to_pos (z * 2 ^ (53 - d))) (d - 53)).
  assert (Hc : pos_valid c).
  { exists (Z.to_pos (z * 2 ^ (53 - d))), (d - 53). split; [reflexivity|]. split; [|lia].
    unfold canonical. rewrite Z2Pos.id by nia. rewrite Zdigits2_shift by lia. fold d.
    rewrite fexp_eq. lia. }
  assert (Hv : (val c == inject_Z z)%Q).
  { unfold c. rewrite val_pos, Z2Pos.id by nia. rewrite inject_Z_mult, <- pow2_Z by lia.
    rewrite <- Qmult_assoc, <- pow2_add. replace (53 - d + (d - 53)) with 0 by lia.
    rewrite pow2_0. ring. }
  assert (H1 := of_Z_ge c z Hc ltac:(lia) ltac:(rewrite Hv; apply Qle_refl)).
  assert (H2 := of_Z_le c z Hc ltac:(lia) ltac:(rewrite Hv; apply Qle_refl)).
  lra.
Qed.

Lemma rounded_exact v R c : rounded v R -> pos_valid c -> (val c == v)%Q -> R = c.
Proof.
  intros HR Hc Hv.
  assert (H1 := rnd_ge _ _ HR c Hc ltac:(rewrite Hv; apply Qle_refl)).
  assert (H2 := rnd_le _ _ HR c Hc ltac:(rewrite Hv; apply Qle_refl)).
  assert (Vc := pos_valid_valid c Hc).
  destruct (rounded_good _ _ HR) as [E|[HP|E]].
  - subst R. destruct Hc as (m & e & -> & _). discriminate.
  - assert (VR := pos_valid_valid R HP).
    apply SFleb_val in H1; try assumption; try (apply pos_valid_finite; assumption).
    apply SFleb_val in H2; try assumption; try (apply pos_valid_finite; assumption).
    apply val_inj; try assumption.
    + destruct HP as (m & e & -> & _). eauto.
    + destruct Hc as (m & e & -> & _). eauto.
    + lra.
  - subst R. destruct Hc as (m & e & -> & _). discriminate.
Qed.

(** Integer addition is exact below [2^53]. *)
Lemma add_exact a b : 0 <= a -> 0 <= b -> a + b < 2 ^ 53 ->
  JS.add (JS.of_Z a) (JS.of_Z b) = JS.of_Z (a + b).
Proof.
  intros Ha Hb Hab.
  destruct (Z.eq_dec a 0) as [->|Ha0].
  - destruct (Z.eq_dec b 0) as [->|Hb0]; [reflexivity|].
    change (JS.of_Z 0) with (S754_zero false). rewrite add_zero_l; [reflexivity|].
    right; left. apply of_Z_exact. lia.
  - destruct (of_Z_exact a ltac:(lia)) as [Pa Va].
    destruct (Z.eq_dec b 0) as [->|Hb0].
    + rewrite Z.add_0_r. destruct Pa as (m & e & -> & _). reflexivity.
    + destruct (of_Z_exact b ltac:(lia)) as [Pb Vb].
      destruct (of_Z_exact (a + b) ltac:(lia)) as [Pc Vc].
      apply (rounded_exact (val (JS.of_Z a) + val (JS.of_Z b))).
      * apply add_rounded; assumption.
      * assumption.
      * rewrite Vc, Va, Vb, inject_Z_plus. reflexivity.
Qed.

Lemma or_zero_of_Z z : 0 <= z < 2 ^ 53 -> JS.or_zero (Some (JS.of_Z z)) = JS.of_Z z.
Proof.
  intros Hz. destruct (Z.eq_dec z 0) as [->|Hne]; [reflexivity|].
  destruct (of_Z_exact z ltac:(lia)) as [(m & e & -> & _) _]. reflexivity.
Qed.

Ltac enumerate_int p lo hi :=
  let rec go k :=
    lazymatch eval cbv in (k <=? hi) with
    | true =>
        let k' := eval cbv in (k + 1) in
        destruct (Z.eq_dec p k) as [->|?]; [|go k']
    | false => exfalso; lia
    end
  in go lo.

(** ** Lower and upper bounds through the operations *)

Lemma rounded_lower v R c : rounded v R -> pos_valid c -> (val c <= v)%Q ->
  at_least (val c) R.
Proof.
  intros HR Hc Hv. assert (H := rnd_ge _ _ HR c Hc Hv).
  destruct (rounded_good _ _ HR) as [E|[HP|E]].
  - subst R. destruct Hc as (m & e & -> & _). discriminate.
  - right. split; [assumption|].
    apply SFleb_val in H; valid_side. exact H.
  - left. assumption.
Qed.

Lemma rounded_upper v R c : rounded v R -> pos_valid c -> (v <= val c)%Q ->
  at_most (val c) R.
Proof.
  intros HR Hc Hv. assert (H := rnd_le _ _ HR c Hc Hv).
  destruct (rounded_good _ _ HR) as [E|[HP|E]].
  - left. assumption.
  - right. split; [assumption|].
    apply SFleb_val in H; valid_side. exact H.
  - subst R. destruct Hc as (m & e & -> & _). discriminate.
Qed.

Lemma at_least_weaken q q' x : (q' <= q)%Q -> at_least q x -> at_least q' x.
Proof. intros Hq [H|[H1 H2]]; [left|right]; auto. split; [assumption|lra]. Qed.

Lemma mul_at_least q x c : (0 <= q)%Q -> at_least q x -> pos_valid c -> forall k,
  pos_valid k -> (val k <= q * val c)%Q -> at_least (val k) (JS.mul x c).
Proof.
  intros Hq [->|[Hx Hv]] Hc k Hk Hkv.
  - left. destruct Hc as (m & e & -> & _). reflexivity.
  - apply (rounded_lower (val x * val c)); [apply mul_rounded; assumption|assumption|].
    assert (Hc0 := pos_valid_val c Hc). nra.
Qed.

Lemma div_at_least q x c : at_least q x -> pos_valid c -> forall k,
  pos_valid k -> (val k * val c <= q)%Q -> at_least (val k) (JS.div x c).
Proof.
  intros [->|[Hx Hv]] Hc k Hk Hkv.
  - left. destruct Hc as (m & e & -> & _). reflexivity.
  - apply (rounded_lower (val x / val c)); [apply div_rounded; assumption|assumption|].
    assert (Hc0 := pos_valid_val c Hc). apply Qle_shift_div_l; [assumption|lra].
Qed.

Lemma sub_at_least x c k : pos_valid x -> pos_valid c -> pos_valid k ->
  (val k + val c <= val x)%Q -> at_least (val k) (JS.sub x c).
Proof.
  intros Hx Hc Hk Hv. assert (Hk0 := pos_valid_val k Hk).
  destruct (sub_cases x c Hx Hc) as [[_ H]|[[H _]|[H _]]]; [|lra|lra].
  apply (rounded_lower (val x - val c)); [assumption|assumption|lra].
Qed.

(** [c - y] when [y] is large: zero, negative, or a small positive number *)
Lemma sub_from_at_most c y k q : pos_valid c -> at_least q y -> pos_valid k ->
  (val c - q <= val k)%Q ->
  JS.sub c y = S754_zero false \/ neg_class (JS.sub c y) \/
  (pos_valid (JS.sub c y) /\ (val (JS.sub c y) <= val k)%Q).
Proof.
  intros Hc [->|[Hy Hv]] Hk Hq.
  - right; left. destruct Hc as (m & e & -> & _). exact I.
  - destruct (sub_cases c y Hc Hy) as [[_ H]|[[_ H]|[_ H]]].
    + destruct (rounded_upper _ _ k H Hk ltac:(lra)) as [E|[H1 H2]]; auto.
    + left. assumption.
    + right; left. assumption.
Qed.

Lemma Math_max_left c y : pos_valid c ->
  y = S754_zero false \/ neg_class y \/ (pos_valid y /\ (val y <= val c)%Q) ->
  JS.Math_max c y = c.
Proof.
  intros Hc Hy. assert (Vc := pos_valid_valid c Hc).
  destruct Hy as [->|[Hy|[Hy Hv]]].
  - destruct Hc as (m & e & -> & _). reflexivity.
  - destruct Hc as (m & e & -> & _).
    destruct y as [[]|[]| |[] ? ?]; try contradiction; reflexivity.
  - assert (Vy := pos_valid_valid y Hy).
    unfold JS.Math_max.
    rewrite (SFcompare_val c y Vc Vy (pos_valid_finite _ Hc) (pos_valid_finite _ Hy)).
    destruct (Qcompare_spec (val c) (val y)) as [H|H|H]; [|lra|reflexivity].
    assert (E : y = c).
    { apply val_inj; try assumption.
      - destruct Hy as (m & e & -> & _); eauto.
      - destruct Hc as (m & e & -> & _); eauto.
      - lra. }
    subst y. destruct Hc as (m & e & -> & _). reflexivity.
Qed.

Lemma Math_min_left c y : pos_valid c -> at_least (val c) y -> JS.Math_min c y = c.
Proof.
  intros Hc Hy. assert (Vc := pos_valid_valid c Hc).
  destruct Hy as [->|[Hy Hv]].
  - destruct Hc as (m & e & -> & _). reflexivity.
  - assert (Vy := pos_valid_valid y Hy).
    unfold JS.Math_min.
    rewrite (SFcompare_val c y Vc Vy (pos_valid_finite _ Hc) (pos_valid_finite _ Hy)).
    destruct (Qcompare_spec (val c) (val y)) as [H|H|H]; [|reflexivity|lra].
    assert (E : y = c).
    { apply val_inj; try assumption.
      - destruct Hy as (m & e & -> & _); eauto.
      - destruct Hc as (m & e & -> & _); eauto.
      - lra. }
    subst y. destruct Hc as (m & e & -> & _). reflexivity.
Qed.

Lemma Math_min_right c y : pos_valid c -> at_most (val c) y -> JS.Math_min c y = y.
Proof.
  intros Hc Hy. assert (Vc := pos_valid_valid c Hc).
  destruct Hy as [->|[Hy Hv]].
  - destruct Hc as (m & e & -> & _). reflexivity.
  - assert (Vy := pos_valid_valid y Hy).
    unfold JS.Math_min.
    rewrite (SFcompare_val c y Vc Vy (pos_valid_finite _ Hc) (pos_valid_finite _ Hy)).
    destruct (Qcompare_spec (val c) (val y)) as [H|H|H]; [|lra|reflexivity].
    destruct Hc as (m & e & -> & _). reflexivity.
Qed.

Lemma ltb_false_at_least c x : pos_valid c -> at_least (val c) x -> JS.ltb x c = false.
Proof.
  intros Hc [->|[Hx Hv]].
  - destruct Hc as (m & e & -> & _). reflexivity.
  - unfold JS.ltb. destruct (SFltb x c) eqn:E; [|reflexivity].
    apply SFltb_val in E; valid_side. lra.
Qed.

Lemma gtb_true c x q : pos_valid c -> at_least q x -> (val c < q)%Q -> JS.gtb x c = true.
Proof.
  intros Hc [->|[Hx Hv]] Hq.
  - destruct Hc as (m & e & -> & _). reflexivity.
  - unfold JS.gtb. apply SFltb_val; valid_side. lra.
Qed.

Lemma gtb_false c x : pos_valid c -> pos_valid x -> (val x <= val c)%Q -> JS.gtb x c = false.
Proof.
  intros Hc Hx Hv. unfold JS.gtb. destruct (SFltb c x) eqn:E; [|reflexivity].
  apply SFltb_val in E; valid_side. lra.
Qed.

Lemma of_Z_at_least z k : 0 < z <= MAX_VALUE -> pos_valid k -> (val k <= inject_Z z)%Q ->
  at_least (val k) (JS.of_Z z).
Proof.
  intros Hz Hk Hv. right. split; [apply of_Z_pos_valid; assumption|].
  apply of_Z_ge; assumption.
Qed.

(** ** The sub-scores, range by range *)

Lemma all_from_spec check n : forall lo, all_from check lo n = true ->
  forall z, lo <= z < lo + Z.of_nat n -> check z = true.
Proof.
  induction n as [|n IH]; intros lo H z Hz; [lia|].
  simpl in H. apply andb_true_iff in H. destruct H as [H1 H2].
  destruct (Z.eq_dec z lo) as [->|Hne]; [assumption|].
  apply (IH (lo + 1)); [assumption|lia].
Qed.

Tactic Notation "const_facts" constr(k) "as" ident(P) ident(V) :=
  assert (P : pos_valid (JS.of_Z k)) by const_valid;
  assert (V : (val (JS.of_Z k) == inject_Z k)%Q) by (vm_compute; reflexivity);
  unfold inject_Z in V.

Lemma pomodoroScore_low p : 0 < p < 6 ->
  (Qabs (val (pomodoroScore (JS.of_Z p)) - 100 * inject_Z p / 6) <= tolerance)%Q.
Proof.
  intros Hp.
  apply Qle_bool_imp_le.
  apply (all_from_spec
           (fun p => Qle_bool (Qabs (val (pomodoroScore (JS.of_Z p)) - 100 * inject_Z p / 6))
                              tolerance) 5 1); [vm_compute; reflexivity|lia].
Qed.

Lemma pomodoroScore_ideal p : 6 <= p <= 10 -> pomodoroScore (JS.of_Z p) = JS.of_Z 100.
Proof.
  intros Hp.
  enumerate_int p 6 10; vm_compute; reflexivity.
Qed.

Lemma pomodoroScore_high p : 10 < p <= MAX_VALUE ->
  pomodoroScore (JS.of_Z p) = JS.of_Z (Z.max 70 (100 - 5 * (p - 10))).
Proof.
  intros Hp.
  destruct (Z_le_gt_dec p 16) as [Hle|Hgt].
  - enumerate_int p 11 16; vm_compute; reflexivity.
  - rewrite Z.max_l by lia.
    const_facts 6 as P6 V6. const_facts 7 as P7 V7. const_facts 10 as P10 V10. const_facts 17 as P17 V17. const_facts 5 as P5 V5.
    const_facts 35 as P35 V35. const_facts 100 as P100 V100. const_facts 65 as P65 V65. const_facts 70 as P70 V70.
    assert (Pp := of_Z_pos_valid p ltac:(lia)).
    assert (Hp17 : at_least (val (JS.of_Z 17)) (JS.of_Z p)).
    { apply of_Z_at_least; [lia|assumption|]. rewrite V17. change (17 # 1)%Q with (inject_Z 17). rewrite <- Zle_Qle. lia. }
    unfold pomodoroScore.
    rewrite (ltb_false_at_least (JS.of_Z 6) _ P6) by (apply (at_least_weaken (val (JS.of_Z 17))); [lra|exact Hp17]).
    rewrite (gtb_true (JS.of_Z 10) _ _ P10 Hp17) by lra.
    destruct Hp17 as [E|[_ Hv]]; [destruct Pp as (m & e & Ep & _); congruence|].
    assert (Ha : at_least (val (JS.of_Z 7)) (JS.sub (JS.of_Z p) (JS.of_Z 10))).
    { apply sub_at_least; try assumption. lra. }
    assert (Hb : at_least (val (JS.of_Z 35)) (JS.mul (JS.sub (JS.of_Z p) (JS.of_Z 10)) (JS.of_Z 5))).
    { apply (mul_at_least (val (JS.of_Z 7))); try assumption; rewrite ?V35, ?V7, ?V5; lra. }
    apply Math_max_left; [assumption|].
    destruct (sub_from_at_most (JS.of_Z 100) _ (JS.of_Z 65) _ P100 Hb P65 ltac:(lra))
      as [H|[H|[H1 H2]]]; auto.
    right; right. split; [assumption|lra].
Qed.

Lemma afterPomodoros_active eff p : 0 < p <= MAX_VALUE ->
  afterPomodoros eff (JS.of_Z p) =
  JS.add eff (JS.mul (pomodoroScore (JS.of_Z p)) w35).
Proof.
  intros Hp. unfold afterPomodoros. rewrite gtb_0_pos; [reflexivity|].
  apply of_Z_pos_valid. assumption.
Qed.

Lemma w35_value : (Qabs (val w35 - (35 # 100)) <= pow2 (-55))%Q.
Proof. apply Qle_bool_imp_le. vm_compute. reflexivity. Qed.

Lemma w30_value : (Qabs (val w30 - (30 # 100)) <= pow2 (-55))%Q.
Proof. apply Qle_bool_imp_le. vm_compute. reflexivity. Qed.

Lemma focusScore_low f : 0 < f < 120 ->
  (Qabs (val (focusScore (JS.of_Z f)) - focusRamp f) <= tolerance)%Q.
Proof.
  intros Hf. apply Qle_bool_imp_le.
  apply (all_from_spec
           (fun f => Qle_bool (Qabs (val (focusScore (JS.of_Z f)) - focusRamp f)) tolerance)
           119 1); [vm_compute; reflexivity|lia].
Qed.

Lemma focusScore_ideal f : 120 <= f <= 360 -> focusScore (JS.of_Z f) = JS.of_Z 100.
Proof.
  intros Hf.
  assert (Hmax : 360 <= MAX_VALUE) by (apply Z.leb_le; vm_compute; reflexivity).
  const_facts 120 as P120 V120. const_facts 360 as P360 V360.
  assert (Pf := of_Z_pos_valid f ltac:(lia)).
  unfold focusScore.
  rewrite (ltb_false_at_least (JS.of_Z 120) _ P120).
  - rewrite gtb_false; [reflexivity|assumption|assumption|].
    apply of_Z_le; [assumption|lia|]. rewrite V360.
    change (360 # 1)%Q with (inject_Z 360). rewrite <- Zle_Qle. lia.
  - apply of_Z_at_least; [lia|assumption|]. rewrite V120.
    change (120 # 1)%Q with (inject_Z 120). rewrite <- Zle_Qle. lia.
Qed.

Lemma focus_high_checked : all_from focus_high_check 361 400 = true.
Proof. vm_compute. reflexivity. Qed.

Lemma focusScore_floor f : 760 < f <= MAX_VALUE -> focusScore (JS.of_Z f) = JS.of_Z 80.
Proof.
  intros Hf.
  const_facts 120 as P120 V120. const_facts 360 as P360 V360. const_facts 761 as P761 V761.
  const_facts 401 as P401 V401. const_facts 60 as P60 V60. const_facts 3 as P3 V3.
  const_facts 100 as P100 V100. const_facts 80 as P80 V80.
  set (c1 := JS.div (JS.of_Z 427) (JS.of_Z 64)).
  set (c2 := JS.div (JS.of_Z 1281) (JS.of_Z 64)).
  set (c3 := JS.div (JS.of_Z 5119) (JS.of_Z 64)).
  assert (Pc1 : pos_valid c1) by const_valid.
  assert (Pc2 : pos_valid c2) by const_valid.
  assert (Pc3 : pos_valid c3) by const_valid.
  assert (Vc1 : (val c1 == 427 # 64)%Q) by (vm_compute; reflexivity).
  assert (Vc2 : (val c2 == 1281 # 64)%Q) by (vm_compute; reflexivity).
  assert (Vc3 : (val c3 == 5119 # 64)%Q) by (vm_compute; reflexivity).
  assert (Pf := of_Z_pos_valid f ltac:(lia)).
  assert (Hf761 : at_least (val (JS.of_Z 761)) (JS.of_Z f)).
  { apply of_Z_at_least; [lia|assumption|]. rewrite V761.
    change (761 # 1)%Q with (inject_Z 761). rewrite <- Zle_Qle. lia. }
  unfold focusScore.
  rewrite (ltb_false_at_least (JS.of_Z 120) _ P120)
    by (apply (at_least_weaken (val (JS.of_Z 761))); [lra|exact Hf761]).
  rewrite (gtb_true (JS.of_Z 360) _ _ P360 Hf761) by lra.
  destruct Hf761 as [E|[_ Hv]]; [destruct Pf as (m & e & Ep & _); congruence|].
  assert (Ha : at_least (val (JS.of_Z 401)) (JS.sub (JS.of_Z f) (JS.of_Z 360))).
  { apply sub_at_least; try assumption. lra. }
  assert (Hb : at_least (val c1) (JS.div (JS.sub (JS.of_Z f) (JS.of_Z 360)) (JS.of_Z 60))).
  { apply (div_at_least (val (JS.of_Z 401))); try assumption. rewrite Vc1, V60, V401. lra. }
  assert (Hd : at_least (val c2)
                 (JS.mul (JS.div (JS.sub (JS.of_Z f) (JS.of_Z 360)) (JS.of_Z 60)) (JS.of_Z 3))).
  { apply (mul_at_least (val c1)); try assumption; rewrite ?Vc1, ?Vc2, ?V3; lra. }
  apply Math_max_left; [assumption|].
  destruct (sub_from_at_most (JS.of_Z 100) _ c3 _ P100 Hd Pc3 ltac:(lra))
    as [H|[H|[H1 H2]]]; auto.
  right; right. split; [assumption|lra].
Qed.

Lemma focusScore_high f : 360 < f <= MAX_VALUE ->
  pos_valid (focusScore (JS.of_Z f)) /\
  (80 <= val (focusScore (JS.of_Z f)))%Q /\
  (Qabs (val (focusScore (JS.of_Z f)) - focusPenalty f) <= tolerance)%Q.
Proof.
  intros Hf. destruct (Z_le_gt_dec f 760) as [Hle|Hgt].
  - assert (H := all_from_spec _ _ _ focus_high_checked f ltac:(lia)).
    unfold focus_high_check in H.
    destruct (focusScore (JS.of_Z f)) as [| | |[] m e] eqn:E; try discriminate.
    apply andb_true_iff in H. destruct H as [H H3].
    apply andb_true_iff in H. destruct H as [H1 H2].
    split; [apply pos_validb_sound; exact H3|].
    split; apply Qle_bool_imp_le; assumption.
  - rewrite focusScore_floor by lia.
    const_facts 80 as P80 V80.
    split; [assumption|]. split; [rewrite V80; lra|].
    assert (Hq : (inject_Z 760 < inject_Z f)%Q) by (rewrite <- Zlt_Qlt; lia).
    change (inject_Z 760) with 760%Q in Hq.
    unfold focusPenalty. rewrite Q.max_l.
    + rewrite V80. setoid_replace (80 - 80)%Q with 0%Q by ring. apply Qle_bool_imp_le. reflexivity.
    + set (x := inject_Z f) in *.
      setoid_replace ((x - 360) / 60)%Q with ((x - 360) * (1 # 60))%Q by field. lra.
Qed.

Lemma afterFocus_active eff f : 0 < f <= MAX_VALUE ->
  afterFocus eff (JS.of_Z f) = JS.add eff (JS.mul (focusScore (JS.of_Z f)) w30).
Proof.
  intros Hf. unfold afterFocus. rewrite gtb_0_pos; [reflexivity|].
  apply of_Z_pos_valid. assumption.
Qed.

Lemma representable_pos_valid z : 0 < z -> representable z -> pos_valid (JS.of_Z z).
Proof.
  intros Hz Hr. unfold representable in Hr.
  assert (Hq : (0 < inject_Z z)%Q) by (change 0%Q with (inject_Z 0); rewrite <- Zlt_Qlt; lia).
  destruct (rounded_good _ _ (of_Z_rounded z Hz)) as [E|[H|E]]; [|assumption|];
    rewrite E in Hr; simpl in Hr; lra.
Qed.

Lemma quotient_rounded tp tc : 0 < tp -> 0 < tc -> representable tp -> representable tc ->
  rounded (inject_Z tc / inject_Z tp) (JS.div (JS.of_Z tc) (JS.of_Z tp)).
Proof.
  intros Htp Htc Rtp Rtc.
  apply (rounded_ext (val (JS.of_Z tc) / val (JS.of_Z tp))).
  - unfold representable in Rtp, Rtc. rewrite Rtp, Rtc. reflexivity.
  - apply div_rounded; apply representable_pos_valid; assumption.
Qed.

Lemma taskScore_capped tp tc : 0 < tp <= tc -> representable tp -> representable tc ->
  taskScore (JS.of_Z tp) (JS.of_Z tc) = JS.of_Z 100.
Proof.
  intros Hle Rtp Rtc.
  const_facts 1 as P1 V1. const_facts 100 as P100 V100.
  assert (Ptp := representable_pos_valid tp ltac:(lia) Rtp).
  unfold taskScore. rewrite (gtb_0_pos _ Ptp).
  apply Math_min_left; [assumption|].
  apply (mul_at_least (val (JS.of_Z 1))); try assumption; [rewrite V1; lra| |rewrite V1, V100; lra].
  apply (rounded_lower (inject_Z tc / inject_Z tp)); [apply quotient_rounded; try assumption; lia|assumption|].
  rewrite V1.
  assert (Hq : (0 < inject_Z tp)%Q) by (change 0%Q with (inject_Z 0); rewrite <- Zlt_Qlt; lia).
  apply Qle_shift_div_l; [assumption|]. rewrite Qmult_1_l, <- Zle_Qle. lia.
Qed.

Lemma unit_roundoff : (pow2 (-53) == 1 # 9007199254740992)%Q.
Proof. vm_compute. reflexivity. Qed.

Lemma underflow_small : (pow2 (-1075) <= 1 # 1267650600228229401496703205376)%Q.
Proof. apply Qle_bool_imp_le. vm_compute. reflexivity. Qed.

Lemma tolerance_value : (tolerance == 1 # 35184372088832)%Q.
Proof. vm_compute. reflexivity. Qed.

(** Two roundings, of the quotient and of its product by 100, stay within
    the tolerance of the exact rate. *)
Lemma taskScore_rate tp tc : 0 < tc < tp -> representable tp -> representable tc ->
  count (taskScore (JS.of_Z tp) (JS.of_Z tc)) /\
  (Qabs (val (taskScore (JS.of_Z tp) (JS.of_Z tc)) - 100 * (inject_Z tc / inject_Z tp))
     <= tolerance)%Q.
Proof.
  intros Hlt Rtp Rtc.
  const_facts 1 as P1 V1. const_facts 100 as P100 V100.
  assert (Ptp := representable_pos_valid tp ltac:(lia) Rtp).
  assert (HQ := quotient_rounded tp tc ltac:(lia) ltac:(lia) Rtp Rtc).
  assert (Htpq : (0 < inject_Z tp)%Q) by (change 0%Q with (inject_Z 0); rewrite <- Zlt_Qlt; lia).
  assert (Htcq : (0 < inject_Z tc)%Q) by (change 0%Q with (inject_Z 0); rewrite <- Zlt_Qlt; lia).
  assert (Hlq : (inject_Z tc < inject_Z tp)%Q) by (rewrite <- Zlt_Qlt; lia).
  set (r0 := (inject_Z tc / inject_Z tp)%Q) in *.
  assert (Hr0 : (0 < r0)%Q) by (unfold r0; apply Qlt_shift_div_l; lra).
  assert (Hr1 : (r0 < 1)%Q) by (unfold r0; apply Qlt_shift_div_r; lra).
  set (q := JS.div (JS.of_Z tc) (JS.of_Z tp)) in *.
  assert (Hu := unit_roundoff). assert (Heta := underflow_small).
  assert (Heta0 := pow2_pos (-1075)).
  assert (Hqm : at_most (val (JS.of_Z 1)) q).
  { apply (rounded_upper r0); [assumption|assumption|]. rewrite V1. lra. }
  assert (Hqerr := rnd_err _ _ HQ). rewrite Hu in Hqerr.
  unfold taskScore. rewrite (gtb_0_pos _ Ptp). fold q.
  rewrite tolerance_value.
  destruct Hqm as [Eq|[Pq Hq1]].
  - rewrite Eq in *. specialize (Hqerr I). simpl val in Hqerr.
    apply Qabs_Qle_condition in Hqerr.
    assert (Ey : JS.mul (S754_zero false) (JS.of_Z 100) = S754_zero false)
      by (destruct P100 as (m & e & -> & _); reflexivity).
    rewrite Ey.
    assert (Em : JS.Math_min (JS.of_Z 100) (S754_zero false) = S754_zero false) by reflexivity.
    rewrite Em. split; [left; reflexivity|].
    simpl val. apply Qabs_Qle_condition. lra.
  - specialize (Hqerr (pos_valid_finite _ Pq)). apply Qabs_Qle_condition in Hqerr.
    rewrite V1 in Hq1.
    assert (Hq0 := pos_valid_val q Pq).
    assert (HY := mul_rounded q (JS.of_Z 100) Pq P100).
    set (y := JS.mul q (JS.of_Z 100)) in *.
    assert (Hym : at_most (val (JS.of_Z 100)) y).
    { apply (rounded_upper _ _ _ HY P100). rewrite V100. lra. }
    rewrite (Math_min_right _ _ P100 Hym).
    assert (Hyerr := rnd_err _ _ HY). rewrite Hu, V100 in Hyerr.
    assert (Hyf : finite_or_zero y).
    { destruct Hym as [->|[Py _]]; [exact I|apply pos_valid_finite; assumption]. }
    specialize (Hyerr Hyf). apply Qabs_Qle_condition in Hyerr.
    split.
    + destruct Hym as [E|[Py _]]; [left|right]; assumption.
    + apply Qabs_Qle_condition.
      change (SFmul JS.prec JS.emax q (JS.of_Z 100)) with y in Hyerr. lra.
Qed.

Lemma taskScore_unplanned tc : 0 < tc <= MAX_VALUE ->
  taskScore (JS.of_Z 0) (JS.of_Z tc) = JS.of_Z (Z.min 100 (tc * 20)).
Proof.
  intros Htc. destruct (Z_le_gt_dec tc 4) as [Hle|Hgt].
  - enumerate_int tc 1 4; vm_compute; reflexivity.
  - rewrite Z.min_l by lia.
    const_facts 5 as P5 V5. const_facts 20 as P20 V20. const_facts 100 as P100 V100.
    unfold taskScore. change (JS.gtb (JS.of_Z 0) (JS.of_Z 0)) with false. cbv iota.
    apply Math_min_left; [assumption|].
    apply (mul_at_least (val (JS.of_Z 5))); try assumption; [rewrite V5; lra| |rewrite V5, V20, V100; lra].
    apply of_Z_at_least; [lia|assumption|]. rewrite V5.
    change (5 # 1)%Q with (inject_Z 5). rewrite <- Zle_Qle. lia.
Qed.

Lemma afterTasks_active tp tc : 0 <= tp <= MAX_VALUE -> 0 < tc <= MAX_VALUE ->
  afterTasks (JS.of_Z tp) (JS.of_Z tc) =
  JS.mul (taskScore (JS.of_Z tp) (JS.of_Z tc)) w35.
Proof.
  intros Htp Htc. unfold afterTasks.
  assert (Ptc := of_Z_pos_valid tc Htc).
  rewrite (gtb_0_pos _ Ptc). change (JS.of_Z 0) with (S754_zero false) at 1.
  apply add_zero_l. apply mul_good; [|exact w35_valid].
  apply taskScore_good; [apply of_Z_count|]; assumption.
Qed.

Lemma taskScore_rate_min tp tc : 0 < tp -> 0 < tc -> representable tp -> representable tc ->
  (Qabs (val (taskScore (JS.of_Z tp) (JS.of_Z tc)) - taskRate tp tc) <= tolerance)%Q.
Proof.
  intros Htp Htc Rtp Rtc. unfold taskRate.
  assert (Htpq : (0 < inject_Z tp)%Q) by (change 0%Q with (inject_Z 0); rewrite <- Zlt_Qlt; lia).
  assert (Ht : (0 <= tolerance)%Q) by (apply Qle_bool_imp_le; reflexivity).
  destruct (Z_le_gt_dec tp tc) as [Hle|Hgt].
  - rewrite taskScore_capped by (try assumption; lia).
    assert (V100 : (val (JS.of_Z 100) == 100)%Q) by (vm_compute; reflexivity).
    rewrite Q.min_l.
    + rewrite V100. setoid_replace (100 - 100)%Q with 0%Q by ring. exact Ht.
    + apply Qle_shift_div_l; [assumption|].
      assert (inject_Z tp <= inject_Z tc)%Q by (rewrite <- Zle_Qle; lia). lra.
  - destruct (taskScore_rate tp tc ltac:(lia) Rtp Rtc) as [_ H].
    rewrite Q.min_r.
    + setoid_replace (100 * inject_Z tc / inject_Z tp)%Q
        with (100 * (inject_Z tc / inject_Z tp))%Q by (field; lra).
      exact H.
    + apply Qle_shift_div_r; [assumption|].
      assert (inject_Z tc <= inject_Z tp)%Q by (rewrite <- Zle_Qle; lia). lra.
Qed.

Lemma taskScore_le_100 tp tc : 0 <= tp <= MAX_VALUE -> 0 < tc <= MAX_VALUE ->
  count (taskScore (JS.of_Z tp) (JS.of_Z tc)) /\
  (val (taskScore (JS.of_Z tp) (JS.of_Z tc)) <= 100)%Q.
Proof.
  intros Htp Htc.
  assert (P100 : pos_valid (JS.of_Z 100)) by const_valid.
  assert (V100 : (val (JS.of_Z 100) == 100)%Q) by (vm_compute; reflexivity).
  assert (Ptc := of_Z_pos_valid tc Htc).
  assert (Ctp := of_Z_count tp Htp).
  unfold taskScore. destruct (JS.gtb (JS.of_Z tp) (JS.of_Z 0)) eqn:Hg.
  - destruct (Math_min_good (JS.of_Z 100) (JS.mul (JS.div (JS.of_Z tc) (JS.of_Z tp)) (JS.of_Z 100)) P100)
      as [H1 H2].
    + apply mul_good; [|assumption]. eapply rounded_good. apply div_rounded; [assumption|].
      apply gtb_0_count; assumption.
    + split; [exact H1|]. rewrite V100 in H2. exact H2.
  - destruct (Math_min_good (JS.of_Z 100) (JS.mul (JS.of_Z tc) (JS.of_Z 20)) P100) as [H1 H2].
    + apply mul_good; [right; left; assumption|const_valid].
    + split; [exact H1|]. rewrite V100 in H2. exact H2.
Qed.

Lemma eqb_0_pos x : pos_valid x -> JS.eqb x (JS.of_Z 0) = false.
Proof. intros (m & e & -> & _). reflexivity. Qed.

(** The last line of [calculateEfficiency]: clamp to [0, 100], then round
    to the nearest integer. *)
Lemma clamp_round_nearest eff : good eff ->
  exists n : Z,
    JS.Math_round (JS.Math_min (JS.of_Z 100) (JS.Math_max (JS.of_Z 0) eff)) = JS.of_Z n /\
    0 <= n <= 100 /\
    (at_least 100 eff \/ at_most 100 eff) /\
    (at_least 100 eff -> n = 100) /\
    (at_most 100 eff -> (inject_Z n - (1 # 2) <= val eff /\ val eff < inject_Z n + (1 # 2))%Q).
Proof.
  intros He. change (JS.of_Z 0) with (S754_zero false). rewrite Math_max_zero by assumption.
  assert (P100 : pos_valid (JS.of_Z 100)) by const_valid.
  assert (V100 : (val (JS.of_Z 100) == 100)%Q) by (vm_compute; reflexivity).
  destruct He as [->|[He| ->]].
  - exists 0. split; [reflexivity|]. split; [lia|]. split; [right; left; reflexivity|].
    split.
    + intros [H|[(m & e & H & _) _]]; discriminate.
    + intros _. change (val (S754_zero false)) with 0%Q. change (inject_Z 0) with 0%Q. lra.
  - destruct (Qlt_le_dec (val eff) 100) as [Hlt|Hge].
    + assert (Hm : at_most (val (JS.of_Z 100)) eff) by (right; split; [assumption|lra]).
      rewrite (Math_min_right _ _ P100 Hm).
      assert (Hpos := pos_valid_val eff He).
      destruct He as (m & e & -> & Hc).
      rewrite Math_round_finite.
      destruct (round_half_up_spec m e) as [H1 H2].
      set (n := JS.round_half_up false m e) in *.
      exists n. split; [reflexivity|].
      assert (H3 : (inject_Z n < inject_Z 101)%Q) by (change (inject_Z 101) with 101%Q; lra).
      assert (H4 : (inject_Z (-1) < inject_Z n)%Q) by (change (inject_Z (-1)) with (-1)%Q; lra).
      rewrite <- Zlt_Qlt in H3, H4.
      split; [lia|]. split; [right; right; split; [exists m, e; auto|lra]|].
      split.
      * intros [H|[_ H]]; [discriminate|lra].
      * intros _. lra.
    + assert (Hm : at_least (val (JS.of_Z 100)) eff) by (right; split; [assumption|lra]).
      rewrite (Math_min_left _ _ P100 Hm).
      exists 100. split; [vm_compute; reflexivity|]. split; [lia|].
      split; [left; right; split; assumption|]. split; [reflexivity|].
      intros [H|[_ H]]; [subst eff; simpl in Hge; lra|].
      change (inject_Z 100) with 100%Q. lra.
  - exists 100. split; [vm_compute; reflexivity|]. split; [lia|].
    split; [left; left; reflexivity|]. split; [reflexivity|].
    intros [H|[(m & e & H & _) _]]; discriminate.
Qed.

Lemma efficiencyOf_active tp tc p f :
  0 <= tp <= MAX_VALUE -> 0 <= tc <= MAX_VALUE ->
  0 <= p <= MAX_VALUE -> 0 <= f <= MAX_VALUE ->
  ~ (tc = 0 /\ p = 0 /\ f = 0) ->
  efficiencyOf tp tc p f =
  JS.Math_round
    (JS.Math_min (JS.of_Z 100)
       (JS.Math_max (JS.of_Z 0)
          (afterFocus (afterPomodoros (afterTasks (JS.of_Z tp) (JS.of_Z tc)) (JS.of_Z p))
             (JS.of_Z f)))).
Proof.
  intros Htp Htc Hp Hf Hact. unfold efficiencyOf, calculateEfficiency.
  cbn [tasksPlanned tasksCompleted pomodorosSessions focusTime].
  assert (E : JS.eqb (JS.of_Z tc) (JS.of_Z 0) && JS.eqb (JS.of_Z p) (JS.of_Z 0) &&
              JS.eqb (JS.of_Z f) (JS.of_Z 0) = false).
  { destruct (of_Z_cases tc Htc) as [[Etc _]|[_ Ptc]];
      [|rewrite (eqb_0_pos _ Ptc); reflexivity].
    destruct (of_Z_cases p Hp) as [[Ep _]|[_ Pp]];
      [|rewrite (eqb_0_pos _ Pp), andb_false_r; reflexivity].
    destruct (of_Z_cases f Hf) as [[Ef _]|[_ Pf]];
      [|rewrite (eqb_0_pos _ Pf), andb_false_r; reflexivity].
    exfalso. apply Hact. auto. }
  rewrite E. reflexivity.
Qed.

Lemma pos_valid_le_max x : pos_valid x -> (val x <= inject_Z MAX_VALUE)%Q.
Proof.
  intros (m & e & -> & C & He). rewrite val_pos.
  destruct (canonical_facts (Zpos m) e ltac:(lia) C) as (Hd & _ & _).
  destruct (Zdigits2_bounds (Zpos m) ltac:(lia)) as [_ Hm].
  assert (Hm53 : Zpos m <= 2 ^ 53 - 1).
  { assert (2 ^ Zdigits2 (Zpos m) <= 2 ^ 53) by (apply Z.pow_le_mono_r; lia). lia. }
  unfold MAX_VALUE. rewrite inject_Z_mult, <- (pow2_Z 971) by lia.
  assert (Hp := pow2_le e 971 He). assert (Hp0 := pow2_pos e).
  assert (Hq : (inject_Z (Zpos m) <= inject_Z (2 ^ 53 - 1))%Q) by (rewrite <- Zle_Qle; assumption).
  assert (Hq0 : (0 < inject_Z (Zpos m))%Q) by (change 0%Q with (inject_Z 0); rewrite <- Zlt_Qlt; lia).
  nra.
Qed.

Lemma representable_le_max z : 0 < z -> representable z -> z <= MAX_VALUE.
Proof.
  intros Hz Rz. assert (H := pos_valid_le_max _ (representable_pos_valid z Hz Rz)).
  unfold representable in Rz. rewrite Rz, <- Zle_Qle in H. exact H.
Qed.

(** ** The efficiency calculator: the claims *)

Example literal_035 : w35 = S754_finite false 6305039478318694 (-54).
Proof. vm_compute. reflexivity. Qed.

Example literal_030 : w30 = S754_finite false 5404319552844595 (-54).
Proof. vm_compute. reflexivity. Qed.

Example efficiency_sample_1 : efficiencyOf 4 4 8 240 = JS.of_Z 100.
Proof. vm_compute. reflexivity. Qed.

Example efficiency_sample_2 : efficiencyOf 0 0 12 0 = JS.of_Z 31.
Proof. vm_compute. reflexivity. Qed.

(** An omitted [tasksPlanned] is the same as 0. *)
Lemma tasksPlanned_default tc p f :
  calculateEfficiency
    {| tasksPlanned := None; tasksCompleted := tc;
       pomodorosSessions := p; focusTime := f |} =
  calculateEfficiency
    {| tasksPlanned := Some (JS.of_Z 0); tasksCompleted := tc;
       pomodorosSessions := p; focusTime := f |}.
Proof. reflexivity. Qed.

(** C2: on non-negative integer arguments (every finite binary64 integer,
    up to [Number.MAX_VALUE]) [calculateEfficiency] returns an integer
    between 0 and 100; in particular it never yields NaN or an infinity. *)
Theorem calculateEfficiency_range : forall tp tc p f : Z,
  0 <= tp <= MAX_VALUE -> 0 <= tc <= MAX_VALUE ->
  0 <= p <= MAX_VALUE -> 0 <= f <= MAX_VALUE ->
  exists n : Z, 0 <= n <= 100 /\ efficiencyOf tp tc p f = JS.of_Z n.
Proof.
  intros tp tc p f Htp Htc Hp Hf. unfold efficiencyOf.
  apply calculateEfficiency_count; apply of_Z_count; assumption.
Qed.

Lemma calculateEfficiency_range_witness :
  exists n : Z, 0 <= n <= 100 /\ efficiencyOf 4 4 8 240 = JS.of_Z n.
Proof.
  apply (calculateEfficiency_range 4 4 8 240);
    split; apply Z.leb_le; vm_compute; reflexivity.
Defined.

(** C3: with no completed task, no pomodoro and no focus minute the score
    is exactly 0, whatever [tasksPlanned] is (any number, or omitted). *)
Theorem calculateEfficiency_no_activity :
  forall tp : option JS.number,
    calculateEfficiency
      {| tasksPlanned := tp; tasksCompleted := JS.of_Z 0;
         pomodorosSessions := JS.of_Z 0; focusTime := JS.of_Z 0 |} = JS.of_Z 0.
Proof. intros tp. reflexivity. Qed.

Example no_activity_all_zero : efficiencyOf 0 0 0 0 = JS.of_Z 0.
Proof. vm_compute. reflexivity. Qed.

Example no_activity_with_plans : efficiencyOf 5 0 0 0 = JS.of_Z 0.
Proof. vm_compute. reflexivity. Qed.

(** C4: as amended, the task sub-score.  With planned tasks it is the
    completion rate [100 * tc / tp] capped at 100: exactly 100 as soon as
    [tc >= tp], and otherwise the binary64 value of [(tc / tp) * 100], which
    is within [2^-45] of the rate without being equal to it in general.
    With no planned task it is [min(100, 20 * tc)] exactly.  It enters the
    sum multiplied by the literal 0.35, a number within [2^-55] of 0.35.
    [calculateEfficiency(10, 12, 0, 0)] is 35 and
    [calculateEfficiency(0, 2, 0, 0)] is 14. *)
Theorem task_subscore :
  forall tp tc : Z,
  0 <= tp -> 0 < tc -> representable tp -> representable tc ->
  (0 < tp ->
     (Qabs (val (taskScore (JS.of_Z tp) (JS.of_Z tc)) - taskRate tp tc) <= tolerance)%Q /\
     (tp <= tc -> taskScore (JS.of_Z tp) (JS.of_Z tc) = JS.of_Z 100)) /\
  (tp = 0 -> taskScore (JS.of_Z tp) (JS.of_Z tc) = JS.of_Z (Z.min 100 (tc * 20))) /\
  (val (taskScore (JS.of_Z tp) (JS.of_Z tc)) <= 100)%Q /\
  afterTasks (JS.of_Z tp) (JS.of_Z tc) = JS.mul (taskScore (JS.of_Z tp) (JS.of_Z tc)) w35 /\
  (forall p f : Z, 0 <= p <= MAX_VALUE -> 0 <= f <= MAX_VALUE ->
     efficiencyOf tp tc p f =
     JS.Math_round
       (JS.Math_min (JS.of_Z 100)
          (JS.Math_max (JS.of_Z 0)
             (afterFocus
                (afterPomodoros (JS.mul (taskScore (JS.of_Z tp) (JS.of_Z tc)) w35)
                   (JS.of_Z p))
                (JS.of_Z f))))) /\
  (Qabs (val w35 - (35 # 100)) <= pow2 (-55))%Q /\
  efficiencyOf 10 12 0 0 = JS.of_Z 35 /\
  efficiencyOf 0 2 0 0 = JS.of_Z 14.
Proof.
  intros tp tc Htp Htc Rtp Rtc.
  assert (Mtc : 0 < tc <= MAX_VALUE)
    by (split; [assumption|apply representable_le_max; assumption]).
  assert (Mtp : 0 <= tp <= MAX_VALUE).
  { split; [assumption|]. destruct (Z.eq_dec tp 0) as [->|Hne];
      [apply Z.leb_le; vm_compute; reflexivity|].
    apply representable_le_max; [lia|assumption]. }
  split; [|split; [|split; [|split; [|split; [|split; [|split]]]]]].
  - intros Hpos. split.
    + apply taskScore_rate_min; assumption.
    + intros Hle. apply taskScore_capped; [lia|assumption|assumption].
  - intros ->. apply taskScore_unplanned. assumption.
  - apply taskScore_le_100; assumption.
  - apply afterTasks_active; assumption.
  - intros p f Hp Hf. rewrite efficiencyOf_active; try assumption; try lia.
    rewrite afterTasks_active by assumption. reflexivity.
  - exact w35_value.
  - vm_compute. reflexivity.
  - vm_compute. reflexivity.
Qed.

Lemma task_subscore_witness :
  taskScore (JS.of_Z 10) (JS.of_Z 12) = JS.of_Z 100 /\
  taskScore (JS.of_Z 0) (JS.of_Z 2) = JS.of_Z 40.
Proof.
  assert (R10 : representable 10) by (vm_compute; reflexivity).
  assert (R12 : representable 12) by (vm_compute; reflexivity).
  assert (R0 : representable 0) by (vm_compute; reflexivity).
  assert (R2 : representable 2) by (vm_compute; reflexivity).
  split.
  - destruct (task_subscore 10 12 ltac:(lia) ltac:(lia) R10 R12) as [H _].
    apply H; lia.
  - destruct (task_subscore 0 2 ltac:(lia) ltac:(lia) R0 R2) as (_ & H & _).
    apply (H eq_refl).
Defined.

(** Counterexample for C4 as worded, with "equals": for one completed task
    out of three planned the code computes [(tc / tp) * 100], which is one
    unit in the last place below the number nearest to [100 * tc / tp], and
    no number is 100/3.  The difference reaches the result: for one task
    out of fourteen the exact formula gives 0.35 x 100/14 = 2.5, which
    rounds to 3, and the code returns 2. *)
Lemma task_subscore_not_exact :
  taskScore (JS.of_Z 3) (JS.of_Z 1) = S754_finite false 4691249611844266 (-47) /\
  JS.div (JS.mul (JS.of_Z 100) (JS.of_Z 1)) (JS.of_Z 3) =
    S754_finite false 4691249611844267 (-47) /\
  Qeq_bool (val (taskScore (JS.of_Z 3) (JS.of_Z 1))) (taskRate 3 1) = false /\
  ((35 # 100) * taskRate 14 1 == 5 # 2)%Q /\
  efficiencyOf 14 1 0 0 = JS.of_Z 2.
Proof. repeat split; vm_compute; reflexivity. Qed.

(** C5: as amended, the pomodoro sub-score.  Below 6 sessions it is the
    binary64 value of [(p / 6) * 100], which is within [2^-45] of
    [100 * p / 6] without being equal to it in general; from 6 to 10 it is
    100; above 10 it is exactly [max(70, 100 - 5 * (p - 10))], hence never
    below 70.  It enters the sum multiplied by the literal 0.35, a number
    within [2^-55] of 0.35, and [calculateEfficiency(0, 0, 15, 0)] is 26. *)
Theorem pomodoro_subscore :
  forall p : Z,
  0 < p <= MAX_VALUE ->
  (p < 6 ->
     (Qabs (val (pomodoroScore (JS.of_Z p)) - pomodoroRamp p) <= tolerance)%Q) /\
  (6 <= p <= 10 -> pomodoroScore (JS.of_Z p) = JS.of_Z 100) /\
  (10 < p ->
     pomodoroScore (JS.of_Z p) = JS.of_Z (pomodoroPenalty p) /\ 70 <= pomodoroPenalty p) /\
  (forall efficiency : JS.number,
     afterPomodoros efficiency (JS.of_Z p) =
     JS.add efficiency (JS.mul (pomodoroScore (JS.of_Z p)) w35)) /\
  (forall tp tc f : Z,
     0 <= tp <= MAX_VALUE -> 0 <= tc <= MAX_VALUE -> 0 <= f <= MAX_VALUE ->
     efficiencyOf tp tc p f =
     JS.Math_round
       (JS.Math_min (JS.of_Z 100)
          (JS.Math_max (JS.of_Z 0)
             (afterFocus
                (JS.add (afterTasks (JS.of_Z tp) (JS.of_Z tc))
                   (JS.mul (pomodoroScore (JS.of_Z p)) w35))
                (JS.of_Z f))))) /\
  (Qabs (val w35 - (35 # 100)) <= pow2 (-55))%Q /\
  efficiencyOf 0 0 15 0 = JS.of_Z 26.
Proof.
  intros p Hp.
  split; [|split; [|split; [|split; [|split; [|split]]]]].
  - intros Hlt. apply pomodoroScore_low. lia.
  - apply pomodoroScore_ideal.
  - intros Hgt. split; [apply pomodoroScore_high; lia|unfold pomodoroPenalty; lia].
  - intros efficiency. apply afterPomodoros_active. assumption.
  - intros tp tc f Htp Htc Hf. rewrite efficiencyOf_active; try assumption; try lia.
    rewrite afterPomodoros_active by assumption. reflexivity.
  - exact w35_value.
  - vm_compute. reflexivity.
Qed.

Lemma pomodoro_subscore_witness :
  pomodoroScore (JS.of_Z 15) = JS.of_Z 75 /\ pomodoroScore (JS.of_Z 8) = JS.of_Z 100.
Proof.
  assert (H15 : 0 < 15 <= MAX_VALUE) by (split; [lia|apply Z.leb_le; vm_compute; reflexivity]).
  assert (H8 : 0 < 8 <= MAX_VALUE) by (split; [lia|apply Z.leb_le; vm_compute; reflexivity]).
  split.
  - destruct (pomodoro_subscore 15 H15) as (_ & _ & H & _). apply H. lia.
  - destruct (pomodoro_subscore 8 H8) as (_ & H & _). apply H. lia.
Defined.

(** Counterexample for C5 as worded, with "equals": for one session the
    code computes [(p / 6) * 100], which is one unit in the last place
    below the number nearest to [100 * p / 6], and no number is 100/6.
    The weight is the literal 0.35, a number below 0.35, and this reaches
    the result: for twelve sessions the exact formula gives 0.35 x 90 =
    31.5, which rounds to 32, and the code returns 31. *)
Lemma pomodoro_subscore_not_exact :
  pomodoroScore (JS.of_Z 1) = S754_finite false 4691249611844266 (-48) /\
  JS.div (JS.mul (JS.of_Z 100) (JS.of_Z 1)) (JS.of_Z 6) =
    S754_finite false 4691249611844267 (-48) /\
  Qeq_bool (val (pomodoroScore (JS.of_Z 1))) (pomodoroRamp 1) = false /\
  Qcompare (val w35) (35 # 100) = Lt /\
  ((35 # 100) * inject_Z (pomodoroPenalty 12) == 63 # 2)%Q /\
  efficiencyOf 0 0 12 0 = JS.of_Z 31.
Proof. repeat split; vm_compute; reflexivity. Qed.

(** C6: as amended, the focus sub-score.  Below 120 minutes it is the
    binary64 value of [(f / 120) * 100]; from 120 to 360 it is 100; above
    360 it is the binary64 value of
    [max(80, 100 - ((f - 360) / 60) * 3)], never below 80.  Outside the
    band the value is within [2^-45] of the formula without being equal to
    it in general.  It enters the sum multiplied by the literal 0.30, a
    number within [2^-55] of 0.30.  Whenever there is some activity the
    result is the binary64 sum of the three weighted sub-scores clamped to
    [0, 100] and rounded to the nearest integer, and
    [calculateEfficiency(4, 4, 8, 240)] is 100. *)
Theorem focus_subscore :
  forall tp tc p f : Z,
  0 <= tp <= MAX_VALUE -> 0 <= tc <= MAX_VALUE -> 0 <= p <= MAX_VALUE ->
  0 < f <= MAX_VALUE ->
  (f < 120 ->
     (Qabs (val (focusScore (JS.of_Z f)) - focusRamp f) <= tolerance)%Q) /\
  (120 <= f <= 360 -> focusScore (JS.of_Z f) = JS.of_Z 100) /\
  (360 < f ->
     (Qabs (val (focusScore (JS.of_Z f)) - focusPenalty f) <= tolerance)%Q /\
     (80 <= val (focusScore (JS.of_Z f)))%Q) /\
  (forall efficiency : JS.number,
     afterFocus efficiency (JS.of_Z f) =
     JS.add efficiency (JS.mul (focusScore (JS.of_Z f)) w30)) /\
  (Qabs (val w30 - (30 # 100)) <= pow2 (-55))%Q /\
  (let total :=
     afterFocus (afterPomodoros (afterTasks (JS.of_Z tp) (JS.of_Z tc)) (JS.of_Z p))
       (JS.of_Z f) in
   exists n : Z,
     efficiencyOf tp tc p f = JS.of_Z n /\ 0 <= n <= 100 /\
     (at_least 100 total \/ at_most 100 total) /\
     (at_least 100 total -> n = 100) /\
     (at_most 100 total ->
        (inject_Z n - (1 # 2) <= val total /\ val total < inject_Z n + (1 # 2))%Q)) /\
  efficiencyOf 4 4 8 240 = JS.of_Z 100.
Proof.
  intros tp tc p f Htp Htc Hp Hf.
  split; [|split; [|split; [|split; [|split; [|split]]]]].
  - intros Hlt. apply focusScore_low. lia.
  - apply focusScore_ideal.
  - intros Hgt. destruct (focusScore_high f ltac:(lia)) as (_ & H1 & H2). split; assumption.
  - intros efficiency. apply afterFocus_active. assumption.
  - exact w30_value.
  - cbv zeta. rewrite efficiencyOf_active; try assumption; try lia.
    apply clamp_round_nearest.
    apply afterFocus_good; [|apply of_Z_count; lia].
    apply afterPomodoros_good; [|apply of_Z_count; assumption].
    apply afterTasks_good; apply of_Z_count; assumption.
  - vm_compute. reflexivity.
Qed.

Lemma focus_subscore_witness :
  focusScore (JS.of_Z 240) = JS.of_Z 100.
Proof.
  assert (H4 : 0 <= 4 <= MAX_VALUE) by (split; [lia|apply Z.leb_le; vm_compute; reflexivity]).
  assert (H8 : 0 <= 8 <= MAX_VALUE) by (split; [lia|apply Z.leb_le; vm_compute; reflexivity]).
  assert (H240 : 0 < 240 <= MAX_VALUE) by (split; [lia|apply Z.leb_le; vm_compute; reflexivity]).
  destruct (focus_subscore 4 4 8 240 H4 H4 H8 H240) as (_ & H & _).
  apply H. lia.
Defined.

(** Counterexample for C6 as worded, with "equals": for ten minutes the
    code computes [(f / 120) * 100], which is one unit in the last place
    below the number nearest to [100 * f / 120], and no number is 100/12;
    for 361 minutes the code's value is not 99.95 either.  The difference
    reaches the result: for ten minutes the exact formula gives
    0.30 x 100/12 = 2.5, which rounds to 3, and the code returns 2. *)
Lemma focus_subscore_not_exact :
  focusScore (JS.of_Z 10) = S754_finite false 4691249611844266 (-49) /\
  JS.div (JS.mul (JS.of_Z 100) (JS.of_Z 10)) (JS.of_Z 120) =
    S754_finite false 4691249611844267 (-49) /\
  Qeq_bool (val (focusScore (JS.of_Z 10))) (focusRamp 10) = false /\
  Qeq_bool (val (focusScore (JS.of_Z 361))) (focusPenalty 361) = false /\
  ((30 # 100) * focusRamp 10 == 5 # 2)%Q /\
  efficiencyOf 0 0 0 10 = JS.of_Z 2.
Proof. repeat split; vm_compute; reflexivity. Qed.

(** C7: with no task and no focus time, the score grows strictly with the
    number of pomodoros from 3 to 6, the pomodoro sub-score stays at 100
    from 6 to 10, and from 10 to 14 the weighted pomodoro contribution
    decreases strictly while the score stays at or above 0.35 x 70. *)
Theorem pomodoro_ranges :
  (forall p q : Z, 3 <= p -> p < q -> q <= 6 ->
     JS.ltb (efficiencyOf 0 0 p 0) (efficiencyOf 0 0 q 0) = true) /\
  (forall p : Z, 6 <= p <= 10 -> pomodoroScore (JS.of_Z p) = JS.of_Z 100) /\
  (forall p q : Z, 10 <= p -> p < q -> q <= 14 ->
     JS.ltb (JS.mul (pomodoroScore (JS.of_Z q)) w35)
            (JS.mul (pomodoroScore (JS.of_Z p)) w35) = true) /\
  (forall p : Z, 10 <= p <= 14 ->
     JS.ltb (JS.mul (pomodoroScore (JS.of_Z p)) w35) (JS.mul (JS.of_Z 70) w35) = false /\
     JS.ltb (efficiencyOf 0 0 p 0) (JS.mul (JS.of_Z 70) w35) = false /\
     ((35 # 100) * 70 <= val (efficiencyOf 0 0 p 0))%Q).
Proof.
  split; [|split; [|split]].
  - intros p q Hp Hpq Hq.
    enumerate_int p 3 5; enumerate_int q 4 6; try (exfalso; lia); vm_compute; reflexivity.
  - intros p Hp. enumerate_int p 6 10; vm_compute; reflexivity.
  - intros p q Hp Hpq Hq.
    enumerate_int p 10 13; enumerate_int q 11 14; try (exfalso; lia); vm_compute; reflexivity.
  - intros p Hp.
    enumerate_int p 10 14;
      (split; [vm_compute; reflexivity|split; [vm_compute; reflexivity|]]);
      apply Qle_bool_imp_le; vm_compute; reflexivity.
Qed.

Lemma pomodoro_ranges_witness :
  JS.ltb (efficiencyOf 0 0 3 0) (efficiencyOf 0 0 4 0) = true /\
  pomodoroScore (JS.of_Z 8) = JS.of_Z 100 /\
  JS.ltb (JS.mul (pomodoroScore (JS.of_Z 12)) w35)
         (JS.mul (pomodoroScore (JS.of_Z 11)) w35) = true /\
  JS.ltb (efficiencyOf 0 0 14 0) (JS.mul (JS.of_Z 70) w35) = false.
Proof.
  destruct pomodoro_ranges as (H1 & H2 & H3 & H4).
  split; [apply (H1 3 4); lia|].
  split; [apply (H2 8); lia|].
  split; [apply (H3 11 12); lia|].
  apply (H4 14); lia.
Defined.

(** C10: the score is not monotone non-increasing in [tasksPlanned]: one
    unplanned completed task scores 7, the same task once planned scores
    35. *)
Theorem score_not_antitone_in_tasksPlanned :
  efficiencyOf 0 1 0 0 = JS.of_Z 7 /\
  efficiencyOf 1 1 0 0 = JS.of_Z 35 /\
  JS.ltb (efficiencyOf 0 1 0 0) (efficiencyOf 1 1 0 0) = true /\
  ~ (forall tp tp' tc p f : Z,
       0 <= tp <= tp' -> 0 <= tc -> 0 <= p -> 0 <= f ->
       SFleb (efficiencyOf tp' tc p f) (efficiencyOf tp tc p f) = true).
Proof.
  split; [vm_compute; reflexivity|].
  split; [vm_compute; reflexivity|].
  split; [vm_compute; reflexivity|].
  intros H. specialize (H 0 1 1 0 0 ltac:(lia) ltac:(lia) ltac:(lia) ltac:(lia)).
  vm_compute in H. discriminate H.
Qed.

(** ** What reaches the store *)

Lemma to_json_count x : count x -> JS.to_json x = Some x.
Proof. intros [->|(m & e & -> & _)]; reflexivity. Qed.

Lemma to_json_of_Z z : 0 <= z <= MAX_VALUE -> JS.to_json (JS.of_Z z) = Some (JS.of_Z z).
Proof. intros Hz. apply to_json_count. apply of_Z_count. assumption. Qed.

Lemma taskScore_inf tp : count tp -> taskScore tp (S754_infinity false) = JS.of_Z 100.
Proof.
  intros [->|(m & e & -> & _)]; reflexivity.
Qed.

Lemma afterTasks_good_inf tp tc : count tp -> good tc -> good (afterTasks tp tc).
Proof.
  intros Htp [->|[Htc| ->]].
  - apply afterTasks_good; [assumption|left; reflexivity].
  - apply afterTasks_good; [assumption|right; assumption].
  - unfold afterTasks. change (JS.gtb (S754_infinity false) (JS.of_Z 0)) with true. cbv iota.
    rewrite taskScore_inf by assumption. right; left. const_valid.
Qed.

Lemma calculateEfficiency_good tp tc p f :
  count tp -> good tc -> count p -> count f ->
  exists n, 0 <= n <= 100 /\
    calculateEfficiency
      {| tasksPlanned := Some tp; tasksCompleted := tc;
         pomodorosSessions := p; focusTime := f |} = JS.of_Z n.
Proof.
  intros Htp Htc Hp Hf. unfold calculateEfficiency.
  cbn [tasksPlanned tasksCompleted pomodorosSessions focusTime].
  destruct (_ && _).
  - exists 0. split; [lia|reflexivity].
  - apply clamp_round_range. apply afterFocus_good; [|assumption].
    apply afterPomodoros_good; [|assumption]. apply afterTasks_good_inf; assumption.
Qed.

Lemma or_zero_count v : stored_count v -> count (JS.or_zero v).
Proof.
  destruct v as [x|]; cbn [stored_count]; [|left; reflexivity].
  intros [->|Hx]; [left; reflexivity|].
  assert (E : JS.or_zero (Some x) = x) by (apply or_zero_good; right; left; assumption).
  rewrite E. right. assumption.
Qed.

(** With an infinite number of planned tasks a finite number of completed
    ones contributes nothing. *)
Lemma afterTasks_inf tc : count tc -> afterTasks (S754_infinity false) tc = JS.of_Z 0.
Proof.
  intros [->|(m & e & -> & _)]; [reflexivity|].
  unfold afterTasks, taskScore. rewrite literal_035. reflexivity.
Qed.

(** The score is an integer from 0 to 100 as soon as the inputs are
    non-negative and the two task counts are not both infinite. *)
Lemma calculateEfficiency_integer tp tc p f :
  good tp -> good tc -> count tp \/ count tc -> count p -> count f ->
  exists n, 0 <= n <= 100 /\
    calculateEfficiency
      {| tasksPlanned := Some tp; tasksCompleted := tc;
         pomodorosSessions := p; focusTime := f |} = JS.of_Z n.
Proof.
  intros Gtp Gtc Hfin Hp Hf.
  destruct Gtp as [Htp|[Htp| ->]].
  - apply calculateEfficiency_good; try assumption. left. assumption.
  - apply calculateEfficiency_good; try assumption. right. assumption.
  - destruct Hfin as [[H|(m & e & H & _)]|Htc]; try discriminate.
    unfold calculateEfficiency.
    cbn [tasksPlanned tasksCompleted pomodorosSessions focusTime].
    destruct (_ && _).
    + exists 0. split; [lia|reflexivity].
    + apply clamp_round_range. apply afterFocus_good; [|assumption].
      apply afterPomodoros_good; [|assumption].
      rewrite afterTasks_inf by assumption. left. reflexivity.
Qed.

Lemma to_json_score tp tc p f :
  good tp -> good tc -> count tp \/ count tc -> count p -> count f ->
  let score :=
    calculateEfficiency
      {| tasksPlanned := Some tp; tasksCompleted := tc;
         pomodorosSessions := p; focusTime := f |} in
  JS.to_json score = Some score.
Proof.
  intros Gtp Gtc Hfin Hp Hf score.
  destruct (calculateEfficiency_integer tp tc p f Gtp Gtc Hfin Hp Hf) as (n & Hn & En).
  unfold score. rewrite En. apply to_json_of_Z. split; [lia|].
  eapply Z.le_trans; [apply (proj2 Hn)|]. apply Z.leb_le. vm_compute. reflexivity.
Qed.

Lemma stored_sum_good v a : stored_count v -> count a -> good (JS.add (JS.or_zero v) a).
Proof.
  intros Hv Ha. apply add_good; apply count_good; [apply or_zero_count|]; assumption.
Qed.

(** ** The daily update: the claims *)

Lemma all_succeed_3 w : all_succeed 3 w ->
  exists rest, (faults w = [] /\ rest = []) \/ (faults w = [false] /\ rest = []) \/
               (faults w = [false; false] /\ rest = []) \/
               faults w = false :: false :: false :: rest.
Proof.
  unfold all_succeed. intros H.
  destruct (faults w) as [|a [|b [|c rest]]]; simpl in H.
  - exists []; auto.
  - inversion H; subst. exists []; auto.
  - inversion H as [|? ? ? H']; subst. inversion H'; subst. exists []; auto.
  - inversion H as [|? ? ? H']; subst. inversion H' as [|? ? ? H'']; subst. inversion H''; subst.
    exists rest; auto 6.
Qed.

Lemma stats_of_filter w userId date st :
  stats_of w userId date = Some st ->
  filter (stat_matches userId date) (user_stats w) = [st].
Proof.
  unfold stats_of. destruct (filter _ _) as [|r [|r' l]]; try discriminate.
  intros H; injection H as ->. reflexivity.
Qed.

(** C8: when the fetch of today's row fails, or succeeds and finds no row,
    [updateDailyEfficiency] returns normally after that single request:
    both tables are unchanged, no further request is issued and one line
    is logged. *)
Theorem updateDailyEfficiency_aborts : forall (w : World) (userId : Z) (additionalTasks : JS.number),
  fetch_fails w \/ (all_succeed 1 w /\ no_row_today w userId) ->
  let w' := snd (updateDailyEfficiency userId additionalTasks w) in
  fst (updateDailyEfficiency userId additionalTasks w) = tt /\
  user_stats w' = user_stats w /\ tasks w' = tasks w /\
  faults w' = tl (faults w) /\
  exists entry, console w' = console w ++ [entry] /\
    (entry = ErrorFetchingStats \/ entry = NoStatsFoundForToday).
Proof.
  intros w userId additionalTasks H.
  unfold updateDailyEfficiency, bind, today, select_stats, bind, request, ret, log.
  destruct H as [[rest Hf]|[Hok Hrow]].
  - rewrite Hf. simpl. repeat split. exists ErrorFetchingStats. auto.
  - unfold all_succeed in Hok. unfold no_row_today in Hrow.
    destruct (faults w) as [|b rest] eqn:Hf.
    + simpl. rewrite Hrow. simpl. rewrite Hf. repeat split. exists NoStatsFoundForToday. auto.
    + simpl in Hok. inversion Hok as [|? ? Hb _]; subst b.
      simpl. rewrite Hrow. simpl. repeat split. exists NoStatsFoundForToday. auto.
Qed.

Lemma updateDailyEfficiency_aborts_witness :
  user_stats (snd (updateDailyEfficiency 7 (JS.of_Z 1) failingWorld)) = [sampleRow].
Proof.
  apply (updateDailyEfficiency_aborts failingWorld 7 (JS.of_Z 1)).
  left. exists []. reflexivity.
Defined.

(** The rows after a successful run. *)
Lemma update_writes :
  forall (w : World) (userId : Z) (additionalTasks : JS.number) (stats : StatRow),
  all_succeed 3 w ->
  stats_of w userId (now w / 86400) = Some stats ->
  let w' := snd (updateDailyEfficiency userId additionalTasks w) in
  user_stats w' =
    map (fun r => if stat_id r =? stat_id stats
                  then writtenRow w userId stats additionalTasks r else r)
        (user_stats w) /\
  tasks w' = tasks w /\
  faults w' = skipn 3 (faults w).
Proof.
  intros w userId additionalTasks stats Hok Hst.
  apply stats_of_filter in Hst.
  destruct (all_succeed_3 w Hok) as [rest [[Hf _]|[[Hf _]|[[Hf _]|Hf]]]];
    unfold updateDailyEfficiency, bind, today, select_stats, select_tasks, update_stats,
      bind, request, ret, log, efficiencyFor;
    rewrite Hf; cbn -[calculateEfficiency JS.gtb JS.add JS.or_zero countTasks JS.of_Z];
    rewrite Hst; cbn -[calculateEfficiency JS.gtb JS.add JS.or_zero countTasks JS.of_Z];
    rewrite ?Hf; cbn -[calculateEfficiency JS.gtb JS.add JS.or_zero countTasks JS.of_Z];
    (split; [|split; reflexivity]);
    apply map_ext; intros r; destruct (stat_id r =? stat_id stats); try reflexivity;
    unfold apply_patch, writtenRow, writtenEfficiency, tasksPlannedToday;
    rewrite countTasks_length;
    cbn -[calculateEfficiency JS.gtb JS.add JS.or_zero countTasks JS.of_Z];
    destruct (JS.gtb additionalTasks (JS.of_Z 0)); reflexivity.
Qed.

(** C9: a successful run issues one write, to the row it fetched, and
    leaves every other row and every other column as it was.  With no
    additional task the write sets only [efficiency_score]; with additional
    tasks it also sets [tasks_completed] to the stored value plus the
    addition.  The score written is [calculateEfficiency] of the number of
    the user's tasks whose [start_time] lies in the current UTC day (from
    00:00:00 to 23:59:59), of the stored completed tasks plus the addition,
    and of the stored pomodoros and focus minutes.  Both values travel as
    JSON: counts arrive as they are. *)
Theorem updateDailyEfficiency_write :
  forall (w : World) (userId : Z) (additionalTasks : JS.number) (stats : StatRow),
  all_succeed 3 w ->
  stats_of w userId (now w / 86400) = Some stats ->
  let day := now w / 86400 in
  let todaysTasks :=
    filter (fun t => (task_user t =? userId) &&
                     (day * 86400 <=? start_time t) &&
                     (start_time t <=? day * 86400 + 86399))
           (tasks w) in
  let tasksCompleted := JS.add (JS.or_zero (tasks_completed stats)) additionalTasks in
  let efficiency :=
    calculateEfficiency
      {| tasksPlanned := Some (JS.of_Z (Z.of_nat (length todaysTasks)));
         tasksCompleted := tasksCompleted;
         pomodorosSessions := JS.or_zero (pomodoro_sessions stats);
         focusTime := JS.or_zero (focus_time stats) |} in
  let written := fun r =>
    {| stat_id := stat_id r; stat_user := stat_user r; stat_date := stat_date r;
       focus_time := focus_time r; pomodoro_sessions := pomodoro_sessions r;
       tasks_completed :=
         if JS.gtb additionalTasks (JS.of_Z 0) then JS.to_json tasksCompleted
         else tasks_completed r;
       efficiency_score := JS.to_json efficiency |} in
  let w' := snd (updateDailyEfficiency userId additionalTasks w) in
  user_stats w' =
    map (fun r => if stat_id r =? stat_id stats then written r else r) (user_stats w) /\
  tasks w' = tasks w /\
  faults w' = skipn 3 (faults w) /\
  (stored_count (tasks_completed stats) -> stored_count (pomodoro_sessions stats) ->
   stored_count (focus_time stats) -> count additionalTasks ->
   Z.of_nat (length (tasks w)) <= MAX_VALUE ->
   forall r : StatRow,
     efficiency_score (written r) = Some efficiency /\
     (JS.gtb additionalTasks (JS.of_Z 0) = true -> count tasksCompleted ->
      tasks_completed (written r) = Some tasksCompleted) /\
     (JS.gtb additionalTasks (JS.of_Z 0) = false ->
      tasks_completed (written r) = tasks_completed r)).
Proof.
  intros w userId additionalTasks stats Hok Hst.
  destruct (update_writes w userId additionalTasks stats Hok Hst) as (H1 & H2 & H3).
  cbv zeta. split; [exact H1|]. split; [exact H2|]. split; [exact H3|].
  intros Htc Hp Hf Ha Hlen r. cbn [efficiency_score tasks_completed].
  split; [|split].
  - apply to_json_score.
    + apply of_Z_good. lia.
    + apply stored_sum_good; assumption.
    + left. apply of_Z_count. split; [lia|].
      eapply Z.le_trans; [|exact Hlen]. apply inj_le. apply filter_length_le.
    + apply or_zero_count. assumption.
    + apply or_zero_count. assumption.
  - intros Hg Hc. rewrite Hg. apply to_json_count. assumption.
  - intros Hg. rewrite Hg. reflexivity.
Qed.

Lemma updateDailyEfficiency_write_witness :
  user_stats (snd (updateDailyEfficiency 7 (JS.of_Z 1) busyWorld)) =
  [ {| stat_id := 1; stat_user := 7; stat_date := 0;
       focus_time := Some (JS.of_Z 50); pomodoro_sessions := Some (JS.of_Z 2);
       tasks_completed := Some (JS.of_Z 4);
       efficiency_score := Some (efficiencyOf 2 4 2 50) |} ].
Proof.
  refine (eq_trans
    (proj1 (updateDailyEfficiency_write busyWorld 7 (JS.of_Z 1) sampleRow _ _)) _).
  - constructor.
  - reflexivity.
  - reflexivity.
Defined.

Lemma filter_map_patch userId date (g : StatRow -> StatRow) l :
  (forall r, stat_user (g r) = stat_user r /\ stat_date (g r) = stat_date r) ->
  filter (stat_matches userId date) (map g l) = map g (filter (stat_matches userId date) l).
Proof.
  intros Hg. induction l as [|r l IH]; [reflexivity|]. simpl.
  assert (E : stat_matches userId date (g r) = stat_matches userId date r).
  { unfold stat_matches. destruct (Hg r) as [-> ->]. reflexivity. }
  rewrite E. destruct (stat_matches userId date r); simpl; rewrite IH; reflexivity.
Qed.

Lemma toggle_unfold w taskId userId stats :
  faults w = [] -> session w = Some userId ->
  filter (stat_matches userId (now w / 86400)) (user_stats w) = [stats] ->
  toggleTaskCompletion taskId false w =
  updateDailyEfficiency userId (JS.of_Z 1) (afterIncrement w taskId stats).
Proof.
  intros Hf Hs Hst.
  destruct w as [us ts se nw fs ni co]. cbn in Hf, Hs, Hst. subst fs se.
  unfold toggleTaskCompletion, update_task, getUser, today, select_stats, update_stats,
    insert_stats, request, bind, ret, afterIncrement, incrementPatch, with_user_stats, with_tasks.
  cbn -[updateDailyEfficiency filter JS.add JS.or_zero JS.of_Z Z.div].
  rewrite Hst. reflexivity.
Qed.

(** Whatever the stored count, one toggle of an incomplete task adds two. *)
Lemma toggle_adds_two :
  forall (w : World) (taskId userId z : Z) (stats : StatRow),
  faults w = [] ->
  session w = Some userId ->
  stats_of w userId (now w / 86400) = Some stats ->
  tasks_completed stats = Some (JS.of_Z z) ->
  0 <= z -> z + 2 < 2 ^ 53 ->
  let w' := snd (toggleTaskCompletion taskId false w) in
  exists stats',
    stats_of w' userId (now w / 86400) = Some stats' /\
    tasks_completed stats' = Some (JS.of_Z (z + 2)).
Proof.
  intros w taskId userId z stats Hf Hs Hst Htc Hz Hz2.
  apply stats_of_filter in Hst. cbv zeta.
  rewrite (toggle_unfold w taskId userId stats Hf Hs Hst).
  set (w1 := afterIncrement w taskId stats).
  set (stats1 := apply_patch (incrementPatch stats) stats).
  assert (Hst1 : filter (stat_matches userId (now w1 / 86400)) (user_stats w1) = [stats1]).
  { unfold w1, afterIncrement. cbn [now user_stats with_user_stats with_tasks].
    rewrite filter_map_patch.
    - rewrite Hst. cbn [map]. rewrite Z.eqb_refl. reflexivity.
    - intros r. destruct (stat_id r =? stat_id stats); auto. }
  assert (Hok : all_succeed 3 w1).
  { unfold all_succeed, w1, afterIncrement. cbn [faults with_user_stats with_tasks]. rewrite Hf. constructor. }
  assert (Hso : stats_of w1 userId (now w1 / 86400) = Some stats1).
  { unfold stats_of. rewrite Hst1. reflexivity. }
  destruct (update_writes w1 userId (JS.of_Z 1) stats1 Hok Hso) as [Hus _].
  set (w' := snd (updateDailyEfficiency userId (JS.of_Z 1) w1)) in *.
  exists (writtenRow w1 userId stats1 (JS.of_Z 1) stats1).
  split.
  - unfold stats_of. rewrite Hus.
    change (now w / 86400) with (now w1 / 86400).
    rewrite filter_map_patch.
    + rewrite Hst1. cbn [map]. rewrite Z.eqb_refl. reflexivity.
    + intros r. destruct (stat_id r =? stat_id stats1); auto.
  - unfold writtenRow. cbn [tasks_completed].
    change (JS.gtb (JS.of_Z 1) (JS.of_Z 0)) with true. cbv iota.
    assert (Hmax : 2 ^ 53 <= MAX_VALUE) by (apply Z.leb_le; vm_compute; reflexivity).
    unfold stats1, apply_patch, incrementPatch. cbn [tasks_completed set_tasks_completed].
    rewrite Htc. rewrite or_zero_of_Z by lia. rewrite add_exact by lia.
    rewrite to_json_of_Z by lia.
    rewrite or_zero_of_Z by lia. rewrite add_exact by lia.
    rewrite to_json_of_Z by lia.
    f_equal. f_equal. lia.
Qed.

Lemma timer_unfold w userId stats focusMin :
  faults w = [] -> session w = Some userId ->
  filter (stat_matches userId (now w / 86400)) (user_stats w) = [stats] ->
  handleTimerEnd false focusMin w =
  updateDailyEfficiency userId (JS.of_Z 0) (afterTimer w stats focusMin).
Proof.
  intros Hf Hs Hst.
  destruct w as [us ts se nw fs ni co]. cbn in Hf, Hs, Hst. subst fs se.
  unfold handleTimerEnd, getUser, today, select_stats, update_stats,
    insert_stats, request, bind, ret, afterTimer, timerPatch, with_user_stats.
  cbn -[updateDailyEfficiency filter JS.add JS.of_nullable JS.of_Z Z.div].
  rewrite Hst. reflexivity.
Qed.

(** The focus timer, which calls [updateDailyEfficiency] without an
    addition, counts the interval that ended once and leaves the completed
    tasks alone. *)
Lemma timer_adds_one :
  forall (w : World) (userId z : Z) (focusMin : JS.number) (stats : StatRow),
  faults w = [] ->
  session w = Some userId ->
  stats_of w userId (now w / 86400) = Some stats ->
  pomodoro_sessions stats = Some (JS.of_Z z) ->
  0 <= z -> z + 1 < 2 ^ 53 ->
  let w' := snd (handleTimerEnd false focusMin w) in
  exists stats',
    stats_of w' userId (now w / 86400) = Some stats' /\
    pomodoro_sessions stats' = Some (JS.of_Z (z + 1)) /\
    tasks_completed stats' = tasks_completed stats.
Proof.
  intros w userId z focusMin stats Hf Hs Hst Hps Hz Hz1.
  apply stats_of_filter in Hst. cbv zeta.
  rewrite (timer_unfold w userId stats focusMin Hf Hs Hst).
  set (w1 := afterTimer w stats focusMin).
  set (stats1 := apply_patch (timerPatch stats focusMin) stats).
  assert (Hst1 : filter (stat_matches userId (now w1 / 86400)) (user_stats w1) = [stats1]).
  { unfold w1, afterTimer. cbn [now user_stats with_user_stats].
    rewrite filter_map_patch.
    - rewrite Hst. cbn [map]. rewrite Z.eqb_refl. reflexivity.
    - intros r. destruct (stat_id r =? stat_id stats); auto. }
  assert (Hok : all_succeed 3 w1).
  { unfold all_succeed, w1, afterTimer. cbn [faults with_user_stats]. rewrite Hf. constructor. }
  assert (Hso : stats_of w1 userId (now w1 / 86400) = Some stats1).
  { unfold stats_of. rewrite Hst1. reflexivity. }
  destruct (update_writes w1 userId (JS.of_Z 0) stats1 Hok Hso) as [Hus _].
  exists (writtenRow w1 userId stats1 (JS.of_Z 0) stats1).
  split; [|split].
  - unfold stats_of. rewrite Hus.
    change (now w / 86400) with (now w1 / 86400).
    rewrite filter_map_patch.
    + rewrite Hst1. cbn [map]. rewrite Z.eqb_refl. reflexivity.
    + intros r. destruct (stat_id r =? stat_id stats1); auto.
  - unfold writtenRow. cbn [pomodoro_sessions].
    assert (Hmax : 2 ^ 53 <= MAX_VALUE) by (apply Z.leb_le; vm_compute; reflexivity).
    unfold stats1, apply_patch, timerPatch. cbn [pomodoro_sessions set_pomodoro_sessions].
    rewrite Hps. cbn [JS.of_nullable]. rewrite add_exact by lia.
    apply to_json_of_Z. lia.
  - unfold writtenRow. cbn [tasks_completed].
    change (JS.gtb (JS.of_Z 0) (JS.of_Z 0)) with false. cbv iota.
    reflexivity.
Qed.

(** C1: one toggle of an incomplete task raises the stored
    [tasks_completed] by two, not by one: the toggle writes the incremented
    count, and [updateDailyEfficiency], called with one additional task,
    reads that count back and adds one again. *)
Theorem toggle_counts_twice :
  stats_of sampleWorld 7 0 = Some sampleRow /\
  tasks_completed sampleRow = Some (JS.of_Z 3) /\
  exists stats',
    stats_of (snd (toggleTaskCompletion 5 false sampleWorld)) 7 0 = Some stats' /\
    tasks_completed stats' = Some (JS.of_Z 5) /\
    tasks_completed stats' <> Some (JS.of_Z 4).
Proof.
  split; [reflexivity|]. split; [reflexivity|].
  eexists. split; [vm_compute; reflexivity|].
  split; [vm_compute; reflexivity|].
  vm_compute. discriminate.
Qed.


(** ** The daily update under every storage outcome *)

Ltac upd_simpl :=
  cbn -[calculateEfficiency JS.gtb JS.add JS.or_zero countTasks JS.of_Z filter Z.div
        efficiencyFor stat_matches task_today].


Lemma rowWritten_patch planned stats a r :
  apply_patch
    {| set_focus_time := None; set_pomodoro_sessions := None;
       set_tasks_completed :=
         if JS.gtb a (JS.of_Z 0)
         then Some (JS.add (JS.or_zero (tasks_completed stats)) a) else None;
       set_efficiency_score :=
         Some (efficiencyFor stats planned (JS.add (JS.or_zero (tasks_completed stats)) a)) |} r
  = rowWritten planned stats a r.
Proof.
  unfold apply_patch, rowWritten. cbn -[efficiencyFor JS.gtb JS.add JS.or_zero JS.of_Z].
  destruct (JS.gtb a (JS.of_Z 0)); reflexivity.
Qed.


Lemma update_rows w userId a :
  let w' := snd (updateDailyEfficiency userId a w) in
  user_stats w' = updatedRows w userId a /\
  tasks w' = tasks w /\ now w' = now w /\ session w' = session w /\
  next_id w' = next_id w.
Proof.
  destruct w as [us ts se nw fs ni co].
  unfold updateDailyEfficiency, bind, today, select_stats, select_tasks, update_stats,
    bind, request, ret, log, updatedRows, plannedSeen, fault_at, tasksPlannedToday.
  upd_simpl.
  assert (Hmap : forall planned stats,
    map (fun r => if stat_id r =? stat_id stats
                  then apply_patch
                    {| set_focus_time := None; set_pomodoro_sessions := None;
                       set_tasks_completed :=
                         if JS.gtb a (JS.of_Z 0)
                         then Some (JS.add (JS.or_zero (tasks_completed stats)) a) else None;
                       set_efficiency_score :=
                         Some (efficiencyFor stats planned
                                 (JS.add (JS.or_zero (tasks_completed stats)) a)) |} r
                  else r) us =
    map (fun r => if stat_id r =? stat_id stats
                  then rowWritten planned stats a r else r) us).
  { intros planned stats. apply map_ext. intros r. rewrite rowWritten_patch. reflexivity. }
  destruct fs as [|[|] fs]; upd_simpl;
    try (repeat split; reflexivity);
    (destruct (filter (stat_matches userId (nw / 86400)) us) as [|stats [|r' l]] eqn:Hfl;
     upd_simpl; try (repeat split; reflexivity)).
  - repeat split. rewrite Hmap. rewrite countTasks_length. reflexivity.
  - destruct fs as [|[|] fs]; upd_simpl;
      try (destruct fs as [|[|] fs]; upd_simpl);
      try (repeat split; reflexivity);
      repeat split; rewrite Hmap; rewrite ?countTasks_length; reflexivity.
Qed.


Lemma update_faults w userId a :
  faults w = [] -> faults (snd (updateDailyEfficiency userId a w)) = [].
Proof.
  destruct w as [us ts se nw fs ni co]. cbn [faults]. intros ->.
  unfold updateDailyEfficiency, bind, today, select_stats, select_tasks, update_stats,
    bind, request, ret, log.
  upd_simpl.
  destruct (filter (stat_matches userId (nw / 86400)) us) as [|stats [|r' l]]; reflexivity.
Qed.

Lemma stat_key_written planned stats a r :
  stat_key (rowWritten planned stats a r) = stat_key r.
Proof. reflexivity. Qed.

(** X1: whatever the storage outcomes, [updateDailyEfficiency] leaves the tasks
    table alone and neither adds nor removes a row of [user_stats], nor
    changes the id, user, date, focus time or pomodoro count of any row. *)
Theorem updateDailyEfficiency_frame :
  forall (w : World) (userId : Z) (additionalTasks : JS.number),
  let w' := snd (updateDailyEfficiency userId additionalTasks w) in
  tasks w' = tasks w /\
  map stat_key (user_stats w') = map stat_key (user_stats w).
Proof.
  intros w userId a. destruct (update_rows w userId a) as (Hus & Ht & _).
  cbv zeta. split; [exact Ht|]. rewrite Hus. unfold updatedRows.
  destruct (fault_at 0 w); [reflexivity|].
  destruct (filter _ _) as [|stats [|r' l]]; try reflexivity.
  destruct (fault_at 2 w); [reflexivity|].
  rewrite map_map. apply map_ext. intros r.
  destruct (stat_id r =? stat_id stats); reflexivity.
Qed.

Lemma NoDup_map_eq {A B} (f : A -> B) l x y :
  NoDup (map f l) -> In x l -> In y l -> f x = f y -> x = y.
Proof.
  induction l as [|z l IH]; simpl; [contradiction|].
  intros Hnd Hx Hy E. inversion Hnd as [|? ? Hnin Hnd']; subst.
  destruct Hx as [->|Hx], Hy as [->|Hy]; auto.
  - exfalso. apply Hnin. rewrite E. apply in_map. assumption.
  - exfalso. apply Hnin. rewrite <- E. apply in_map. assumption.
Qed.

(** X2: when the ids of [user_stats] are pairwise distinct, every row other
    than the user's row for today survives [updateDailyEfficiency]
    unchanged, whatever the storage outcomes. *)
Theorem updateDailyEfficiency_other_rows :
  forall (w : World) (userId : Z) (additionalTasks : JS.number) (r : StatRow),
  NoDup (map stat_id (user_stats w)) ->
  In r (user_stats w) ->
  stat_matches userId (now w / 86400) r = false ->
  In r (user_stats (snd (updateDailyEfficiency userId additionalTasks w))).
Proof.
  intros w userId a r Hnd Hin Hno.
  destruct (update_rows w userId a) as (Hus & _). rewrite Hus. unfold updatedRows.
  destruct (fault_at 0 w); [assumption|].
  destruct (filter _ _) as [|stats [|r' l]] eqn:Hfl; try assumption.
  destruct (fault_at 2 w); [assumption|].
  assert (Hst : In stats (filter (stat_matches userId (now w / 86400)) (user_stats w))).
  { rewrite Hfl. left. reflexivity. }
  apply filter_In in Hst. destruct Hst as [Hst Hm].
  apply in_map_iff. exists r. split; [|assumption].
  destruct (Z.eqb_spec (stat_id r) (stat_id stats)) as [E|]; [|reflexivity].
  exfalso. assert (r = stats) by (eapply NoDup_map_eq; eauto). subst r. congruence.
Qed.

Lemma updateDailyEfficiency_other_rows_witness :
  In yesterdayRow (user_stats (snd (updateDailyEfficiency 7 (JS.of_Z 1) historyWorld))).
Proof.
  apply updateDailyEfficiency_other_rows.
  - repeat constructor; simpl; intuition discriminate.
  - left. reflexivity.
  - reflexivity.
Defined.

Lemma no_faults_at w n : faults w = [] -> fault_at n w = false.
Proof. unfold fault_at. intros ->. destruct n; reflexivity. Qed.

Lemma rowWritten_keeps planned stats a r :
  stat_user (rowWritten planned stats a r) = stat_user r /\
  stat_date (rowWritten planned stats a r) = stat_date r.
Proof. split; reflexivity. Qed.

(** X3: when every request succeeds and no task is added, running
    [updateDailyEfficiency] a second time changes nothing. *)
Theorem updateDailyEfficiency_idempotent :
  forall (w : World) (userId : Z) (additionalTasks : JS.number),
  faults w = [] ->
  JS.gtb additionalTasks (JS.of_Z 0) = false ->
  let run := fun w => snd (updateDailyEfficiency userId additionalTasks w) in
  user_stats (run (run w)) = user_stats (run w).
Proof.
  intros w userId a Hf Ha run. unfold run.
  set (w1 := snd (updateDailyEfficiency userId a w)).
  destruct (update_rows w userId a) as (Hus & Ht & Hn & _). fold w1 in Hus, Ht, Hn.
  assert (Hf1 : faults w1 = []) by (apply update_faults; assumption).
  destruct (update_rows w1 userId a) as (Hus1 & _). rewrite Hus1.
  unfold updatedRows. rewrite !(no_faults_at w1) by assumption.
  rewrite Hn, Hus. unfold updatedRows. rewrite !(no_faults_at w) by assumption.
  destruct (filter _ (user_stats w)) as [|stats [|r' l]] eqn:Hfl; rewrite ?Hfl; try reflexivity.
  rewrite filter_map_patch.
  2:{ intros r. destruct (stat_id r =? stat_id stats); auto using rowWritten_keeps. }
  rewrite Hfl. cbn [map]. rewrite Z.eqb_refl.
  rewrite map_map. apply map_ext. intros r.
  change (stat_id (rowWritten (plannedSeen w userId) stats a stats)) with (stat_id stats).
  assert (Hp : plannedSeen w1 userId = plannedSeen w userId).
  { unfold plannedSeen. rewrite (no_faults_at w1), (no_faults_at w) by assumption.
    unfold tasksPlannedToday. rewrite Ht, Hn. reflexivity. }
  rewrite Hp.
  destruct (stat_id r =? stat_id stats) eqn:E.
  - change (stat_id (rowWritten (plannedSeen w userId) stats a r)) with (stat_id r).
    rewrite E. unfold rowWritten. cbn [tasks_completed pomodoro_sessions focus_time
      stat_id stat_user stat_date efficiency_score]. rewrite Ha.
    unfold efficiencyFor. cbn [tasks_completed pomodoro_sessions focus_time]. reflexivity.
  - rewrite E. reflexivity.
Qed.

Lemma updateDailyEfficiency_idempotent_witness :
  user_stats (snd (updateDailyEfficiency 7 (JS.of_Z 0)
                     (snd (updateDailyEfficiency 7 (JS.of_Z 0) sampleWorld)))) =
  user_stats (snd (updateDailyEfficiency 7 (JS.of_Z 0) sampleWorld)).
Proof.
  apply (updateDailyEfficiency_idempotent sampleWorld 7 (JS.of_Z 0)); reflexivity.
Defined.

(** X4: when the fetch finds today's row but the final write fails, the
    stats stay as they were and the failure is logged after the calculation;
    the caller sees a normal return. *)
Theorem updateDailyEfficiency_write_fails :
  forall (w : World) (userId : Z) (additionalTasks : JS.number) (stats : StatRow),
  fault_at 0 w = false -> fault_at 2 w = true ->
  stats_of w userId (now w / 86400) = Some stats ->
  let w' := snd (updateDailyEfficiency userId additionalTasks w) in
  let tasksCompleted := JS.add (JS.or_zero (tasks_completed stats)) additionalTasks in
  fst (updateDailyEfficiency userId additionalTasks w) = tt /\
  user_stats w' = user_stats w /\ tasks w' = tasks w /\
  faults w' = skipn 3 (faults w) /\
  console w' = console w ++
    [CalculatingEfficiency (plannedSeen w userId) tasksCompleted
       (JS.or_zero (pomodoro_sessions stats)) (JS.or_zero (focus_time stats))
       (efficiencyFor stats (plannedSeen w userId) tasksCompleted);
     ErrorUpdatingEfficiency].
Proof.
  intros w userId a stats H0 H2 Hst. apply stats_of_filter in Hst.
  destruct w as [us ts se nw fs ni co]. unfold fault_at in *. cbn [faults now user_stats] in *.
  destruct fs as [|f0 [|f1 [|f2 rest]]]; try discriminate. cbn in H0, H2. subst f0 f2.
  unfold updateDailyEfficiency, bind, today, select_stats, select_tasks, update_stats,
    bind, request, ret, log, plannedSeen, fault_at, tasksPlannedToday.
  upd_simpl. rewrite Hst. upd_simpl.
  destruct f1; upd_simpl; rewrite <- ?app_assoc; rewrite ?countTasks_length; repeat split.
Qed.

Lemma updateDailyEfficiency_write_fails_witness :
  user_stats (snd (updateDailyEfficiency 7 (JS.of_Z 1)
                     (with_faults [false; false; true] sampleWorld))) = [sampleRow].
Proof.
  apply (updateDailyEfficiency_write_fails
           (with_faults [false; false; true] sampleWorld) 7 (JS.of_Z 1) sampleRow);
    reflexivity.
Defined.

(** X5: when the query for today's tasks fails, the update still goes through
    and scores the day as one without planned tasks; the store receives
    that score as JSON. *)
Theorem updateDailyEfficiency_task_query_fails :
  forall (w : World) (userId : Z) (additionalTasks : JS.number) (stats : StatRow),
  fault_at 0 w = false -> fault_at 1 w = true -> fault_at 2 w = false ->
  stats_of w userId (now w / 86400) = Some stats ->
  let w' := snd (updateDailyEfficiency userId additionalTasks w) in
  exists stats',
    stats_of w' userId (now w / 86400) = Some stats' /\
    efficiency_score stats' =
      JS.to_json
        (calculateEfficiency
           {| tasksPlanned := Some (JS.of_Z 0);
              tasksCompleted := JS.add (JS.or_zero (tasks_completed stats)) additionalTasks;
              pomodorosSessions := JS.or_zero (pomodoro_sessions stats);
              focusTime := JS.or_zero (focus_time stats) |}).
Proof.
  intros w userId a stats H0 H1 H2 Hst. apply stats_of_filter in Hst. cbv zeta.
  destruct (update_rows w userId a) as (Hus & _).
  unfold updatedRows, plannedSeen in Hus. rewrite H0, H1, H2, Hst in Hus.
  exists (rowWritten (JS.of_Z 0) stats a stats). split; [|reflexivity].
  unfold stats_of. rewrite Hus. rewrite filter_map_patch.
  - rewrite Hst. cbn [map]. rewrite Z.eqb_refl. reflexivity.
  - intros r. destruct (stat_id r =? stat_id stats); auto using rowWritten_keeps.
Qed.

Lemma updateDailyEfficiency_task_query_fails_witness :
  exists stats',
    stats_of (snd (updateDailyEfficiency 7 (JS.of_Z 0)
                     (with_faults [false; true] sampleWorld))) 7 0 = Some stats' /\
    efficiency_score stats' = Some (efficiencyOf 0 3 2 50).
Proof.
  apply (updateDailyEfficiency_task_query_fails
           (with_faults [false; true] sampleWorld) 7 (JS.of_Z 0) sampleRow);
    reflexivity.
Defined.


Lemma plannedSeen_count w userId :
  Z.of_nat (length (tasks w)) <= MAX_VALUE -> count (plannedSeen w userId).
Proof.
  intros Hlen. unfold plannedSeen. destruct (fault_at 1 w); [left; reflexivity|].
  unfold tasksPlannedToday. apply of_Z_count. split; [lia|].
  eapply Z.le_trans; [|exact Hlen]. apply inj_le. apply filter_length_le.
Qed.

(** X6: after a run that writes, today's [efficiency_score] is an integer
    between 0 and 100, provided the stored counters hold counts. *)
Theorem updateDailyEfficiency_score_range :
  forall (w : World) (userId : Z) (additionalTasks : JS.number) (stats : StatRow),
  fault_at 0 w = false -> fault_at 2 w = false ->
  stats_of w userId (now w / 86400) = Some stats ->
  stored_count (tasks_completed stats) ->
  stored_count (pomodoro_sessions stats) ->
  stored_count (focus_time stats) ->
  count additionalTasks ->
  Z.of_nat (length (tasks w)) <= MAX_VALUE ->
  let w' := snd (updateDailyEfficiency userId additionalTasks w) in
  exists stats' n,
    stats_of w' userId (now w / 86400) = Some stats' /\
    efficiency_score stats' = Some (JS.of_Z n) /\ 0 <= n <= 100.
Proof.
  intros w userId a stats H0 H2 Hst Htc Hp Hf Ha Hlen. apply stats_of_filter in Hst. cbv zeta.
  destruct (update_rows w userId a) as (Hus & _).
  unfold updatedRows in Hus. rewrite H0, H2, Hst in Hus.
  destruct (calculateEfficiency_good (plannedSeen w userId)
              (JS.add (JS.or_zero (tasks_completed stats)) a)
              (JS.or_zero (pomodoro_sessions stats)) (JS.or_zero (focus_time stats)))
    as (n & Hn & En).
  - apply plannedSeen_count. assumption.
  - apply add_good; apply count_good; [apply or_zero_count|]; assumption.
  - apply or_zero_count; assumption.
  - apply or_zero_count; assumption.
  - exists (rowWritten (plannedSeen w userId) stats a stats), n. split; [|split; [|exact Hn]].
    + unfold stats_of. rewrite Hus. rewrite filter_map_patch.
      * rewrite Hst. cbn [map]. rewrite Z.eqb_refl. reflexivity.
      * intros r. destruct (stat_id r =? stat_id stats); auto using rowWritten_keeps.
    + unfold rowWritten. cbn [efficiency_score]. unfold efficiencyFor. rewrite En.
      apply to_json_of_Z. split; [lia|].
      eapply Z.le_trans; [apply (proj2 Hn)|]. apply Z.leb_le. vm_compute. reflexivity.
Qed.

Lemma updateDailyEfficiency_score_range_witness :
  exists stats' n,
    stats_of (snd (updateDailyEfficiency 7 (JS.of_Z 1) sampleWorld)) 7 0 = Some stats' /\
    efficiency_score stats' = Some (JS.of_Z n) /\ 0 <= n <= 100.
Proof.
  apply (updateDailyEfficiency_score_range sampleWorld 7 (JS.of_Z 1) sampleRow);
    try reflexivity; try (right; const_valid).
  apply Z.leb_le. vm_compute. reflexivity.
Defined.

Lemma add_zero_r_count x : count x -> JS.add x (JS.of_Z 0) = x.
Proof. intros [->|(m & e & -> & _)]; reflexivity. Qed.

Lemma add_pos_good x a : count x -> pos_valid a ->
  JS.or_zero (Some (JS.add x a)) = JS.add x a.
Proof.
  intros Hx Ha. apply or_zero_good. apply add_good; apply count_good; [assumption|right; assumption].
Qed.

(** X7: after a run that writes, the stored score is the score of the row's
    own stored counters and of the number of planned tasks the run saw, as
    long as the new number of completed tasks is finite (an infinite one is
    stored as [null]). *)
Theorem updateDailyEfficiency_consistent :
  forall (w : World) (userId : Z) (additionalTasks : JS.number) (stats : StatRow),
  fault_at 0 w = false -> fault_at 2 w = false ->
  stats_of w userId (now w / 86400) = Some stats ->
  stored_count (tasks_completed stats) ->
  count additionalTasks ->
  count (JS.add (JS.or_zero (tasks_completed stats)) additionalTasks) ->
  let w' := snd (updateDailyEfficiency userId additionalTasks w) in
  exists stats',
    stats_of w' userId (now w / 86400) = Some stats' /\
    efficiency_score stats' =
      JS.to_json
        (calculateEfficiency
           {| tasksPlanned := Some (plannedSeen w userId);
              tasksCompleted := JS.or_zero (tasks_completed stats');
              pomodorosSessions := JS.or_zero (pomodoro_sessions stats');
              focusTime := JS.or_zero (focus_time stats') |}).
Proof.
  intros w userId a stats H0 H2 Hst Htc Ha Hsum. apply stats_of_filter in Hst. cbv zeta.
  destruct (update_rows w userId a) as (Hus & _).
  unfold updatedRows in Hus. rewrite H0, H2, Hst in Hus.
  exists (rowWritten (plannedSeen w userId) stats a stats). split.
  - unfold stats_of. rewrite Hus. rewrite filter_map_patch.
    + rewrite Hst. cbn [map]. rewrite Z.eqb_refl. reflexivity.
    + intros r. destruct (stat_id r =? stat_id stats); auto using rowWritten_keeps.
  - unfold rowWritten. cbn [efficiency_score tasks_completed pomodoro_sessions focus_time].
    unfold efficiencyFor. do 2 f_equal.
    assert (Hx := or_zero_count _ Htc).
    destruct Ha as [->|Ha].
    + change (JS.gtb (S754_zero false) (JS.of_Z 0)) with false. cbv iota.
      change (S754_zero false) with (JS.of_Z 0).
      rewrite (add_zero_r_count _ Hx). reflexivity.
    + rewrite gtb_0_pos by assumption. rewrite (to_json_count _ Hsum).
      rewrite add_pos_good by assumption. reflexivity.
Qed.

Lemma updateDailyEfficiency_consistent_witness :
  exists stats',
    stats_of (snd (updateDailyEfficiency 7 (JS.of_Z 1) sampleWorld)) 7 0 = Some stats' /\
    efficiency_score stats' =
      JS.to_json
        (calculateEfficiency
           {| tasksPlanned := Some (JS.of_Z 1);
              tasksCompleted := JS.or_zero (tasks_completed stats');
              pomodorosSessions := JS.or_zero (pomodoro_sessions stats');
              focusTime := JS.or_zero (focus_time stats') |}).
Proof.
  apply (updateDailyEfficiency_consistent sampleWorld 7 (JS.of_Z 1) sampleRow);
    try reflexivity; right; const_valid.
Defined.

(** ** The toggle and the timer *)

Ltac tog_simpl :=
  cbn -[updateDailyEfficiency filter JS.add JS.or_zero JS.of_nullable JS.of_Z Z.div
        stat_matches].

Ltac next_fault :=
  match goal with
  | fs : list bool |- _ => destruct fs as [|[|] ?]; tog_simpl
  | _ => idtac
  end.

(** One step of a symbolic run: the next scripted outcome, or the result of
    the query on [user_stats]. *)
Ltac run_step :=
  match goal with
  | |- context [match filter ?f ?l with _ => _ end] =>
      let Hfl := fresh "Hfl" in
      destruct (filter f l) as [|? [|? ?]] eqn:Hfl; tog_simpl
  | |- context [match ?fs with [] => _ | _ :: _ => _ end] =>
      is_var fs; destruct fs as [|[|] ?]; tog_simpl
  end.

Ltac through_update :=
  match goal with
  | |- context [updateDailyEfficiency ?u ?a ?W] =>
      let H := fresh in
      pose proof (update_rows W u a) as H; cbv zeta in H;
      destruct H as (_ & H & _); rewrite H; clear H
  end.


(** X8: un-completing a task, toggling while signed out, or a failed task
    update never writes [user_stats]; a single request is made. *)
Theorem toggle_leaves_stats :
  forall (w : World) (taskId : Z) (completed : bool),
  completed = true \/ session w = None \/ fault_at 0 w = true ->
  let w' := snd (toggleTaskCompletion taskId completed w) in
  user_stats w' = user_stats w /\ faults w' = tl (faults w).
Proof.
  intros w taskId completed H.
  destruct w as [us ts se nw fs ni co]. unfold fault_at in H. cbn [session faults] in H.
  unfold toggleTaskCompletion, update_task, getUser, bind, request, ret, log.
  destruct fs as [|[|] fs]; tog_simpl; try (split; reflexivity);
    destruct completed; tog_simpl; try (split; reflexivity);
    destruct H as [H|[H|H]]; try discriminate; subst se; split; reflexivity.
Qed.

Lemma toggle_leaves_stats_witness :
  user_stats (snd (toggleTaskCompletion 5 true sampleWorld)) = [sampleRow].
Proof.
  apply (toggle_leaves_stats sampleWorld 5 true). left. reflexivity.
Defined.

(** X9: whatever the storage outcomes, the toggle changes the tasks table
    only by setting the flag of the task with the given id. *)
Theorem toggle_tasks :
  forall (w : World) (taskId : Z) (completed : bool),
  tasks (snd (toggleTaskCompletion taskId completed w)) =
  if fault_at 0 w then tasks w
  else map (fun t => if task_id t =? taskId then set_completed (negb completed) t else t)
           (tasks w).
Proof.
  intros w taskId completed.
  destruct w as [us ts se nw fs ni co]. unfold fault_at. cbn [faults tasks].
  unfold toggleTaskCompletion, update_task, getUser, today, select_stats, update_stats,
    insert_stats, bind, request, ret, log.
  destruct fs as [|[|] fs]; tog_simpl; try reflexivity;
    destruct completed; tog_simpl; try reflexivity;
    destruct se as [u|]; tog_simpl; try reflexivity;
    repeat run_step; through_update; reflexivity.
Qed.

Lemma planned_after_flags userId date taskId c ts :
  length (filter (task_today userId date)
            (map (fun t => if task_id t =? taskId then set_completed c t else t) ts)) =
  length (filter (task_today userId date) ts).
Proof.
  induction ts as [|t ts IH]; [reflexivity|]. cbn [map filter].
  assert (E : task_today userId date (if task_id t =? taskId then set_completed c t else t)
              = task_today userId date t).
  { destruct (task_id t =? taskId); reflexivity. }
  rewrite E. destruct (task_today userId date t); cbn [length]; rewrite IH; reflexivity.
Qed.

Lemma filter_app_new userId date us r :
  filter (stat_matches userId date) us = [] ->
  stat_matches userId date r = true ->
  filter (stat_matches userId date) (us ++ [r]) = [r].
Proof.
  intros H Hr. rewrite filter_app, H. cbn [filter app]. rewrite Hr. reflexivity.
Qed.

Lemma stat_matches_refl userId date i f p t e :
  stat_matches userId date
    {| stat_id := i; stat_user := userId; stat_date := date; focus_time := f;
       pomodoro_sessions := p; tasks_completed := t; efficiency_score := e |} = true.
Proof. unfold stat_matches. cbn. rewrite !Z.eqb_refl. reflexivity. Qed.

(** X10: when today has no row yet, completing a task creates one and the
    update that follows counts the task a second time: the row ends with
    [tasks_completed = 2] and the score of two completed tasks. *)
Theorem toggle_first_task_of_day :
  forall (w : World) (taskId userId : Z),
  faults w = [] ->
  session w = Some userId ->
  no_row_today w userId ->
  let w' := snd (toggleTaskCompletion taskId false w) in
  exists stats',
    stats_of w' userId (now w / 86400) = Some stats' /\
    stat_id stats' = next_id w /\
    tasks_completed stats' = Some (JS.of_Z 2) /\
    focus_time stats' = None /\ pomodoro_sessions stats' = None /\
    efficiency_score stats' =
      Some (calculateEfficiency
              {| tasksPlanned := Some (tasksPlannedToday w userId);
                 tasksCompleted := JS.of_Z 2;
                 pomodorosSessions := JS.of_Z 0;
                 focusTime := JS.of_Z 0 |}).
Proof.
  intros w taskId userId Hf Hs Hno. unfold no_row_today in Hno.
  destruct w as [us ts se nw fs ni co]. cbn [faults session now user_stats next_id] in *.
  subst fs se. cbv zeta.
  unfold toggleTaskCompletion, update_task, getUser, today, select_stats, update_stats,
    insert_stats, inserted, bind, request, ret, log.
  tog_simpl. rewrite Hno. tog_simpl.
  change (JS.to_json (JS.of_Z 1)) with (Some (JS.of_Z 1)).
  match goal with
  | |- context [updateDailyEfficiency ?u ?a ?W] =>
      pose proof (update_rows W u a) as H; cbv zeta in H; destruct H as (Hus & _);
      set (w2 := W) in *
  end.
  set (row := {| stat_id := ni; stat_user := userId; stat_date := nw / 86400;
                 focus_time := None; pomodoro_sessions := None;
                 tasks_completed := Some (JS.of_Z 1); efficiency_score := None |}) in *.
  assert (Hfl : filter (stat_matches userId (now w2 / 86400)) (user_stats w2) = [row]).
  { apply filter_app_new; [assumption|apply stat_matches_refl]. }
  unfold updatedRows in Hus. rewrite !no_faults_at, Hfl in Hus by reflexivity.
  exists (rowWritten (plannedSeen w2 userId) row (JS.of_Z 1) row).
  split; [|repeat split].
  - unfold stats_of. rewrite Hus. rewrite filter_map_patch.
    + change nw with (now w2) at 1. rewrite Hfl. cbn [map]. rewrite Z.eqb_refl. reflexivity.
    + intros r. destruct (stat_id r =? stat_id row); auto using rowWritten_keeps.
  - unfold rowWritten. cbn [efficiency_score]. unfold efficiencyFor.
    assert (Hp : plannedSeen w2 userId = tasksPlannedToday
                   {| user_stats := us; tasks := ts; session := Some userId; now := nw;
                      faults := []; next_id := ni; console := co |} userId).
    { unfold plannedSeen. rewrite no_faults_at by reflexivity.
      unfold tasksPlannedToday, w2. cbn [tasks now].
      pose proof (planned_after_flags userId (nw / 86400) taskId true ts) as Hl.
      unfold set_completed in Hl. rewrite Hl. reflexivity. }
    rewrite Hp. apply to_json_score.
    + apply of_Z_good. lia.
    + right; left. const_valid.
    + right. right. const_valid.
    + left. reflexivity.
    + left. reflexivity.
Qed.

Lemma toggle_first_task_of_day_witness :
  exists stats',
    stats_of (snd (toggleTaskCompletion 5 false freshDayWorld)) 7 0 = Some stats' /\
    stat_id stats' = 2 /\
    tasks_completed stats' = Some (JS.of_Z 2) /\
    focus_time stats' = None /\ pomodoro_sessions stats' = None /\
    efficiency_score stats' = Some (efficiencyOf 1 2 0 0).
Proof.
  apply (toggle_first_task_of_day freshDayWorld 5 7); reflexivity.
Defined.

(** X11: with a row for today, the end of a work interval adds the interval's
    minutes and one pomodoro to the row and leaves the completed tasks
    alone; the two new counters reach the store as JSON, so counts arrive as
    they are.  The score stored is that of the new counters and of the
    number of the user's tasks whose [start_time] lies in the current UTC
    day. *)
Theorem handleTimerEnd_existing_row :
  forall (w : World) (userId : Z) (focusMin : JS.number) (stats : StatRow),
  faults w = [] ->
  session w = Some userId ->
  stats_of w userId (now w / 86400) = Some stats ->
  let day := now w / 86400 in
  let todaysTasks :=
    filter (fun t => (task_user t =? userId) &&
                     (day * 86400 <=? start_time t) &&
                     (start_time t <=? day * 86400 + 86399))
           (tasks w) in
  let focus := JS.add (JS.of_nullable (focus_time stats)) focusMin in
  let pomodoros := JS.add (JS.of_nullable (pomodoro_sessions stats)) (JS.of_Z 1) in
  let w' := snd (handleTimerEnd false focusMin w) in
  exists stats',
    stats_of w' userId day = Some stats' /\
    focus_time stats' = JS.to_json focus /\
    pomodoro_sessions stats' = JS.to_json pomodoros /\
    (count focus -> focus_time stats' = Some focus) /\
    (count pomodoros -> pomodoro_sessions stats' = Some pomodoros) /\
    tasks_completed stats' = tasks_completed stats /\
    efficiency_score stats' =
      JS.to_json
        (calculateEfficiency
           {| tasksPlanned := Some (JS.of_Z (Z.of_nat (length todaysTasks)));
              tasksCompleted := JS.add (JS.or_zero (tasks_completed stats)) (JS.of_Z 0);
              pomodorosSessions := JS.or_zero (pomodoro_sessions stats');
              focusTime := JS.or_zero (focus_time stats') |}).
Proof.
  intros w userId focusMin stats Hf Hs Hst.
  apply stats_of_filter in Hst. cbv zeta.
  rewrite (timer_unfold w userId stats focusMin Hf Hs Hst).
  set (w1 := afterTimer w stats focusMin).
  set (stats1 := apply_patch (timerPatch stats focusMin) stats).
  assert (Hst1 : filter (stat_matches userId (now w1 / 86400)) (user_stats w1) = [stats1]).
  { unfold w1, afterTimer. cbn [now user_stats with_user_stats].
    rewrite filter_map_patch.
    - rewrite Hst. cbn [map]. rewrite Z.eqb_refl. reflexivity.
    - intros r. destruct (stat_id r =? stat_id stats); auto. }
  assert (Hf1 : faults w1 = []) by exact Hf.
  destruct (update_rows w1 userId (JS.of_Z 0)) as (Hus & _).
  unfold updatedRows in Hus. rewrite !no_faults_at, Hst1 in Hus by assumption.
  exists (rowWritten (plannedSeen w1 userId) stats1 (JS.of_Z 0) stats1).
  split; [|split; [reflexivity|split; [reflexivity|split; [|split; [|split; [reflexivity|]]]]]].
  - unfold stats_of. rewrite Hus.
    change (now w / 86400) with (now w1 / 86400).
    rewrite filter_map_patch.
    + rewrite Hst1. cbn [map]. rewrite Z.eqb_refl. reflexivity.
    + intros r. destruct (stat_id r =? stat_id stats1); auto using rowWritten_keeps.
  - intros Hc. apply to_json_count. assumption.
  - intros Hc. apply to_json_count. assumption.
  - unfold rowWritten. cbn [efficiency_score]. unfold efficiencyFor. do 3 f_equal.
    unfold plannedSeen. rewrite no_faults_at by assumption. reflexivity.
Qed.

Lemma handleTimerEnd_existing_row_witness :
  exists stats',
    stats_of (snd (handleTimerEnd false (JS.of_Z 25) busyWorld)) 7 0 = Some stats' /\
    focus_time stats' = Some (JS.of_Z 75) /\
    pomodoro_sessions stats' = Some (JS.of_Z 3) /\
    tasks_completed stats' = Some (JS.of_Z 3) /\
    efficiency_score stats' = Some (efficiencyOf 2 3 3 75).
Proof.
  destruct (handleTimerEnd_existing_row busyWorld 7 (JS.of_Z 25) sampleRow
              eq_refl eq_refl eq_refl) as (stats' & H1 & H2 & H3 & _ & _ & H4 & H5).
  exists stats'. rewrite H2, H3 in H5. repeat split; assumption.
Defined.

Lemma timer_unfold_insert w userId focusMin :
  faults w = [] -> session w = Some userId ->
  filter (stat_matches userId (now w / 86400)) (user_stats w) = [] ->
  handleTimerEnd false focusMin w =
  updateDailyEfficiency userId (JS.of_Z 0)
    {| user_stats :=
         user_stats w ++
         [{| stat_id := next_id w; stat_user := userId; stat_date := now w / 86400;
             focus_time := JS.to_json focusMin; pomodoro_sessions := Some (JS.of_Z 1);
             tasks_completed := Some (JS.of_Z 0); efficiency_score := Some (JS.of_Z 0) |}];
       tasks := tasks w; session := session w; now := now w; faults := faults w;
       next_id := next_id w + 1; console := console w |}.
Proof.
  intros Hf Hs Hst.
  destruct w as [us ts se nw fs ni co]. cbn in Hf, Hs. cbn [now user_stats] in Hst. subst fs se.
  unfold handleTimerEnd, getUser, today, select_stats, update_stats,
    insert_stats, inserted, request, bind, ret.
  tog_simpl. rewrite Hst. reflexivity.
Qed.

(** X12: when today has no row yet, the end of a work interval creates it
    with one pomodoro, no completed task and the interval's minutes as JSON
    carries them: a count as it is, and the [-0] of an interval completed by
    hand within its first half minute as 0.  The update that follows
    stores the score of these counters; with no completed task the
    planned tasks do not enter it. *)
Theorem handleTimerEnd_first_interval_of_day :
  forall (w : World) (userId : Z) (focusMin : JS.number),
  faults w = [] ->
  session w = Some userId ->
  no_row_today w userId ->
  let w' := snd (handleTimerEnd false focusMin w) in
  exists stats',
    stats_of w' userId (now w / 86400) = Some stats' /\
    stat_id stats' = next_id w /\
    focus_time stats' = JS.to_json focusMin /\
    (count focusMin -> focus_time stats' = Some focusMin) /\
    (focusMin = S754_zero true -> focus_time stats' = Some (JS.of_Z 0)) /\
    pomodoro_sessions stats' = Some (JS.of_Z 1) /\
    tasks_completed stats' = Some (JS.of_Z 0) /\
    forall tasksPlanned : option JS.number,
      efficiency_score stats' =
        JS.to_json
          (calculateEfficiency
             {| tasksPlanned := tasksPlanned;
                tasksCompleted := JS.of_Z 0;
                pomodorosSessions := JS.of_Z 1;
                focusTime := JS.or_zero (focus_time stats') |}).
Proof.
  intros w userId focusMin Hf Hs Hno. unfold no_row_today in Hno. cbv zeta.
  rewrite (timer_unfold_insert w userId focusMin Hf Hs Hno).
  match goal with
  | |- context [updateDailyEfficiency ?u ?a ?W] =>
      pose proof (update_rows W u a) as H; cbv zeta in H; destruct H as (Hus & _);
      set (w2 := W) in *
  end.
  set (row := {| stat_id := next_id w; stat_user := userId; stat_date := now w / 86400;
                 focus_time := JS.to_json focusMin; pomodoro_sessions := Some (JS.of_Z 1);
                 tasks_completed := Some (JS.of_Z 0);
                 efficiency_score := Some (JS.of_Z 0) |}) in *.
  assert (Hfl : filter (stat_matches userId (now w2 / 86400)) (user_stats w2) = [row]).
  { apply filter_app_new; [assumption|apply stat_matches_refl]. }
  assert (Hf2 : faults w2 = []) by exact Hf.
  unfold updatedRows in Hus. rewrite !no_faults_at, Hfl in Hus by assumption.
  exists (rowWritten (plannedSeen w2 userId) row (JS.of_Z 0) row).
  split; [|split; [reflexivity|split; [reflexivity|split; [|split; [|split;
    [reflexivity|split; [reflexivity|]]]]]]].
  - unfold stats_of. rewrite Hus. rewrite filter_map_patch.
    + change (now w) with (now w2) at 1. rewrite Hfl. cbn [map]. rewrite Z.eqb_refl. reflexivity.
    + intros r. destruct (stat_id r =? stat_id row); auto using rowWritten_keeps.
  - intros Hc. apply to_json_count. assumption.
  - intros ->. reflexivity.
  - intros tasksPlanned. reflexivity.
Qed.

Lemma handleTimerEnd_first_interval_of_day_witness :
  AIFocus.focusMin true (JS.of_Z 1510) = S754_zero true /\
  exists stats',
    stats_of (snd (handleTimerEnd false (AIFocus.focusMin true (JS.of_Z 1510))
                     (with_user_stats [] busyWorld))) 7 0 = Some stats' /\
    stat_id stats' = 2 /\
    focus_time stats' = Some (JS.of_Z 0) /\
    pomodoro_sessions stats' = Some (JS.of_Z 1) /\
    tasks_completed stats' = Some (JS.of_Z 0) /\
    efficiency_score stats' = Some (efficiencyOf 2 0 1 0).
Proof.
  split; [vm_compute; reflexivity|].
  destruct (handleTimerEnd_first_interval_of_day (with_user_stats [] busyWorld) 7
              (AIFocus.focusMin true (JS.of_Z 1510)) eq_refl eq_refl eq_refl)
    as (stats' & H1 & H2 & H3 & _ & H4 & H5 & H6 & H7).
  assert (E : focus_time stats' = Some (JS.of_Z 0)) by (apply H4; vm_compute; reflexivity).
  specialize (H7 (Some (JS.of_Z 2))). rewrite E in H7.
  exists stats'. repeat split; assumption.
Defined.

(** X13: the end of an interval never touches the tasks table, and the end of
    a break, or of any interval while signed out, changes nothing at all. *)
Theorem handleTimerEnd_frame :
  forall (w : World) (isBreak : bool) (focusMin : JS.number),
  let w' := snd (handleTimerEnd isBreak focusMin w) in
  tasks w' = tasks w /\ (isBreak = true \/ session w = None -> w' = w).
Proof.
  intros w isBreak focusMin.
  destruct w as [us ts se nw fs ni co]. cbn [tasks session]. 
  unfold handleTimerEnd, getUser, today, select_stats, update_stats,
    insert_stats, request, bind, ret.
  destruct se as [u|]; tog_simpl; [|split; reflexivity].
  destruct isBreak; tog_simpl; [split; reflexivity|].
  split; [|intros [H|H]; discriminate].
  repeat run_step; through_update; reflexivity.
Qed.

Lemma handleTimerEnd_frame_witness :
  snd (handleTimerEnd true (JS.of_Z 25) sampleWorld) = sampleWorld.
Proof.
  apply (handleTimerEnd_frame sampleWorld true (JS.of_Z 25)). left. reflexivity.
Defined.

(** ** Minutes of a work interval *)

Lemma same_number_eq a b : same_number a b = true -> a = b.
Proof.
  destruct a as [s|s| |s m e], b as [s'|s'| |s' m' e']; simpl; try discriminate; try reflexivity.
  - intros H. apply eqb_prop in H. congruence.
  - intros H. apply eqb_prop in H. congruence.
  - rewrite !andb_true_iff. intros [[H1 H2] H3].
    apply eqb_prop in H1. apply Pos.eqb_eq in H2. apply Z.eqb_eq in H3. congruence.
Qed.

Lemma focusMin_low : all_from focusMin_check 0 (Z.to_nat 1501) = true.
Proof. vm_compute. reflexivity. Qed.

Lemma focusMin_high : all_from focusMin_check 1531 (Z.to_nat 5670) = true.
Proof. vm_compute. reflexivity. Qed.

(** X14: an interval that runs to its end is recorded as 25 minutes whatever
    is left on the clock; one completed by hand with [timeLeft] whole
    seconds left is recorded as [floor ((1530 - timeLeft) / 60)] minutes,
    which lies between 0 and 25 while at most 1500 seconds are left, is
    [-0] from 1501 to 1530 seconds, and is negative for 1531 to 7200
    seconds (a clock set by a strategy with longer intervals). *)
Theorem focusMin_value :
  (forall timeLeft : JS.number, AIFocus.focusMin false timeLeft = JS.of_Z 25) /\
  (forall t : Z, 0 <= t <= 1500 ->
     AIFocus.focusMin true (JS.of_Z t) = JS.of_Z ((1530 - t) / 60) /\
     0 <= (1530 - t) / 60 <= 25) /\
  (forall t : Z, 1500 < t <= 1530 ->
     AIFocus.focusMin true (JS.of_Z t) = S754_zero true) /\
  (forall t : Z, 1530 < t <= 7200 ->
     AIFocus.focusMin true (JS.of_Z t) = JS.of_Z ((1530 - t) / 60) /\
     (1530 - t) / 60 < 0).
Proof.
  split; [|split; [|split]].
  - intros timeLeft. reflexivity.
  - intros t Ht. split.
    + apply same_number_eq. apply (all_from_spec _ _ _ focusMin_low). rewrite Z2Nat.id; lia.
    + split; [apply Z.div_pos; lia|].
      assert ((1530 - t) / 60 < 26) by (apply Z.div_lt_upper_bound; lia). lia.
  - intros t Ht. enumerate_int t 1501 1530; reflexivity.
  - intros t Ht. split.
    + apply same_number_eq. apply (all_from_spec _ _ _ focusMin_high). rewrite Z2Nat.id; lia.
    + apply Z.div_lt_upper_bound; lia.
Qed.

Lemma focusMin_value_witness :
  AIFocus.focusMin true (JS.of_Z 600) = JS.of_Z 15 /\
  AIFocus.focusMin true (JS.of_Z 3000) = JS.of_Z (-25).
Proof.
  destruct focusMin_value as (_ & H1 & _ & H2). split.
  - apply (H1 600). lia.
  - apply (H2 3000). lia.
Defined.

(** ** The calculator on inactive inputs and on a single activity *)

Lemma eqb_0_not_gtb x : JS.eqb x (JS.of_Z 0) = true -> JS.gtb x (JS.of_Z 0) = false.
Proof. destruct x as [[]|[]| |[] m e]; simpl; intros H; try discriminate; reflexivity. Qed.

Lemma active_part_eq x : JS.gtb x (JS.of_Z 0) = true -> active_part x = x.
Proof. unfold active_part. intros ->. reflexivity. Qed.

Lemma active_part_0 x : JS.gtb x (JS.of_Z 0) = false -> active_part x = JS.of_Z 0.
Proof. unfold active_part. intros ->. reflexivity. Qed.

Lemma afterTasks_active_part tp tc :
  afterTasks (active_part tp) (active_part tc) = afterTasks tp tc.
Proof.
  unfold afterTasks.
  destruct (JS.gtb tc (JS.of_Z 0)) eqn:Hc.
  - rewrite (active_part_eq tc Hc), Hc. unfold taskScore.
    destruct (JS.gtb tp (JS.of_Z 0)) eqn:Hp.
    + rewrite (active_part_eq tp Hp), Hp. reflexivity.
    + rewrite (active_part_0 tp Hp). reflexivity.
  - rewrite (active_part_0 tc Hc). reflexivity.
Qed.

Lemma afterPomodoros_active_part eff p :
  afterPomodoros eff (active_part p) = afterPomodoros eff p.
Proof.
  unfold afterPomodoros. destruct (JS.gtb p (JS.of_Z 0)) eqn:Hp.
  - rewrite (active_part_eq p Hp), Hp. reflexivity.
  - rewrite (active_part_0 p Hp). reflexivity.
Qed.

Lemma afterFocus_active_part eff f :
  afterFocus eff (active_part f) = afterFocus eff f.
Proof.
  unfold afterFocus. destruct (JS.gtb f (JS.of_Z 0)) eqn:Hf.
  - rewrite (active_part_eq f Hf), Hf. reflexivity.
  - rewrite (active_part_0 f Hf). reflexivity.
Qed.

(** X15: an input that is not positive (zero, negative or NaN) counts as no
    activity: the score is that of the inputs with every such value replaced
    by 0, and an omitted [tasksPlanned] counts as 0 as well. *)
Theorem calculateEfficiency_ignores_inactive :
  forall (tp : option JS.number) (tc p f : JS.number),
  calculateEfficiency
    {| tasksPlanned := tp; tasksCompleted := tc;
       pomodorosSessions := p; focusTime := f |} =
  calculateEfficiency
    {| tasksPlanned :=
         Some (active_part (match tp with Some v => v | None => JS.of_Z 0 end));
       tasksCompleted := active_part tc;
       pomodorosSessions := active_part p;
       focusTime := active_part f |}.
Proof.
  intros tp tc p f. unfold calculateEfficiency.
  cbn [tasksPlanned tasksCompleted pomodorosSessions focusTime].
  set (tp0 := match tp with Some v => v | None => JS.of_Z 0 end).
  rewrite afterTasks_active_part, afterPomodoros_active_part, afterFocus_active_part.
  destruct (JS.gtb tc (JS.of_Z 0)) eqn:Hc, (JS.gtb p (JS.of_Z 0)) eqn:Hp,
           (JS.gtb f (JS.of_Z 0)) eqn:Hf;
    rewrite ?(active_part_eq tc Hc), ?(active_part_eq p Hp), ?(active_part_eq f Hf),
            ?(active_part_0 tc Hc), ?(active_part_0 p Hp), ?(active_part_0 f Hf);
    try reflexivity;
    change (JS.eqb (JS.of_Z 0) (JS.of_Z 0)) with true; cbn [andb];
    try (destruct (JS.eqb tc (JS.of_Z 0)) eqn:Ec;
         [apply eqb_0_not_gtb in Ec; congruence|]; cbn [andb]; reflexivity);
    try (destruct (JS.eqb p (JS.of_Z 0)) eqn:Ep;
         [apply eqb_0_not_gtb in Ep; congruence|]; rewrite ?andb_false_r; cbn [andb]; reflexivity);
    try (destruct (JS.eqb f (JS.of_Z 0)) eqn:Ef;
         [apply eqb_0_not_gtb in Ef; congruence|]; rewrite ?andb_false_r; cbn [andb]; reflexivity).
  destruct (_ && _); [reflexivity|].
  unfold afterFocus, afterPomodoros, afterTasks. rewrite Hc, Hp, Hf. reflexivity.
Qed.

Lemma subscore_check_sound x : subscore_check x = true -> subscore x.
Proof.
  unfold subscore_check. rewrite andb_true_iff. intros [H1 H2]. right.
  split; [apply pos_validb_sound; assumption|apply Qle_bool_imp_le; assumption].
Qed.

Lemma at_most_good q x : at_most q x -> good x.
Proof. intros [->|[H _]]; [left; reflexivity|right; left; assumption]. Qed.

Lemma at_most_le q q' x : (q <= q')%Q -> at_most q x -> at_most q' x.
Proof. intros Hq [H|[H1 H2]]; [left|right]; auto. split; [assumption|lra]. Qed.

(** A weighted sub-score stays within its weight. *)
Lemma weighted_cap S w k : subscore S -> pos_valid w -> pos_valid k ->
  (100 * val w <= val k)%Q -> at_most (val k) (JS.mul S w).
Proof.
  intros [->|[HS Hv]] Hw Hk Hle.
  - left. destruct Hw as (m & e & -> & _). reflexivity.
  - apply (rounded_upper (val S * val w)); [apply mul_rounded; assumption|assumption|].
    assert (Hw0 := pos_valid_val w Hw). assert (HS0 := pos_valid_val S HS). nra.
Qed.

(** The clamp and rounding of a sum that holds a single contribution. *)
Lemma single_contribution x k : 0 <= k <= 100 -> at_most (inject_Z k) x ->
  exists n, 0 <= n <= k /\
    JS.Math_round (JS.Math_min (JS.of_Z 100) (JS.Math_max (JS.of_Z 0) (JS.add (JS.of_Z 0) x)))
    = JS.of_Z n.
Proof.
  intros Hk Hx. assert (Gx := at_most_good _ _ Hx).
  change (JS.of_Z 0) with (S754_zero false).
  rewrite add_zero_l by assumption. rewrite Math_max_zero by assumption.
  assert (P100 : pos_valid (JS.of_Z 100)) by const_valid.
  assert (V100 : (val (JS.of_Z 100) == 100)%Q) by (vm_compute; reflexivity).
  assert (Hk100 : (inject_Z k <= 100)%Q).
  { change 100%Q with (inject_Z 100). rewrite <- Zle_Qle. lia. }
  rewrite Math_min_right; [|assumption|].
  2:{ destruct Hx as [->|[Hx Hv]]; [left; reflexivity|right; split; [assumption|lra]]. }
  destruct Hx as [->|[Hx Hv]].
  - exists 0. split; [lia|reflexivity].
  - assert (Hpos := pos_valid_val x Hx). destruct Hx as (m & e & -> & _).
    exists (JS.round_half_up false m e). split; [|apply Math_round_finite].
    destruct (round_half_up_spec m e) as [H1 H2].
    set (n := JS.round_half_up false m e) in *.
    assert (H3 : (inject_Z n < inject_Z (k + 1))%Q).
    { rewrite inject_Z_plus. change (inject_Z 1) with 1%Q. lra. }
    assert (H4 : (inject_Z (-1) < inject_Z n)%Q) by (change (inject_Z (-1)) with (-1)%Q; lra).
    rewrite <- Zlt_Qlt in H3, H4. lia.
Qed.

Lemma taskScore_subscore tp tc : 0 <= tp <= MAX_VALUE -> 0 < tc <= MAX_VALUE ->
  subscore (taskScore (JS.of_Z tp) (JS.of_Z tc)).
Proof.
  intros Htp Htc. destruct (taskScore_le_100 tp tc Htp Htc) as [[H|H] Hv]; [left|right]; auto.
Qed.

Lemma pomodoroScore_subscore p : 0 < p <= MAX_VALUE -> subscore (pomodoroScore (JS.of_Z p)).
Proof.
  intros Hp. destruct (Z_lt_ge_dec p 6) as [Hlo|Hge].
  - apply subscore_check_sound. enumerate_int p 1 5; vm_compute; reflexivity.
  - destruct (Z_le_gt_dec p 10) as [Hid|Hhi].
    + rewrite pomodoroScore_ideal by lia. apply subscore_check_sound. vm_compute. reflexivity.
    + rewrite pomodoroScore_high by lia.
      set (s := Z.max 70 (100 - 5 * (p - 10))).
      assert (Hs : 70 <= s <= 100) by (unfold s; lia).
      destruct (of_Z_exact s ltac:(lia)) as [Ps Vs].
      right. split; [assumption|]. rewrite Vs.
      change 100%Q with (inject_Z 100). rewrite <- Zle_Qle. lia.
Qed.

Lemma focusScore_low_checked :
  all_from (fun f => subscore_check (focusScore (JS.of_Z f))) 1 119 = true.
Proof. vm_compute. reflexivity. Qed.

Lemma focusScore_subscore f : 0 < f <= MAX_VALUE -> subscore (focusScore (JS.of_Z f)).
Proof.
  intros Hf. destruct (Z_lt_ge_dec f 120) as [Hlo|Hge].
  - apply subscore_check_sound. apply (all_from_spec _ _ _ focusScore_low_checked). lia.
  - destruct (Z_le_gt_dec f 360) as [Hid|Hhi].
    + rewrite focusScore_ideal by lia. apply subscore_check_sound. vm_compute. reflexivity.
    + destruct (focusScore_high f ltac:(lia)) as (HP & _ & Herr).
      right. split; [assumption|].
      assert (Hq : (inject_Z 361 <= inject_Z f)%Q) by (rewrite <- Zle_Qle; lia).
      change (inject_Z 361) with 361%Q in Hq.
      assert (Hpen : (focusPenalty f <= 100 - (1 # 20))%Q).
      { unfold focusPenalty. apply Q.max_lub; [lra|]. set (x := inject_Z f) in *.
        setoid_replace ((x - 360) / 60)%Q with ((x - 360) * (1 # 60))%Q by field. lra. }
      assert (Ht := tolerance_value).
      apply Qabs_Qle_condition in Herr. lra.
Qed.

(** X16: one kind of activity alone cannot score above its weight: completed
    tasks alone give at most 35, pomodoros alone at most 35 and focus time
    alone at most 30. *)
Theorem single_activity_caps :
  (forall tp tc : Z, 0 <= tp <= MAX_VALUE -> 0 <= tc <= MAX_VALUE ->
     exists n, efficiencyOf tp tc 0 0 = JS.of_Z n /\ 0 <= n <= 35) /\
  (forall tp p : Z, 0 <= tp <= MAX_VALUE -> 0 <= p <= MAX_VALUE ->
     exists n, efficiencyOf tp 0 p 0 = JS.of_Z n /\ 0 <= n <= 35) /\
  (forall tp f : Z, 0 <= tp <= MAX_VALUE -> 0 <= f <= MAX_VALUE ->
     exists n, efficiencyOf tp 0 0 f = JS.of_Z n /\ 0 <= n <= 30).
Proof.
  assert (Hmax : 0 <= 0 <= MAX_VALUE) by (split; [lia|apply Z.leb_le; vm_compute; reflexivity]).
  assert (P35 : pos_valid (JS.of_Z 35)) by const_valid.
  assert (V35 : (val (JS.of_Z 35) == inject_Z 35)%Q) by (vm_compute; reflexivity).
  assert (P30 : pos_valid (JS.of_Z 30)) by const_valid.
  assert (V30 : (val (JS.of_Z 30) == inject_Z 30)%Q) by (vm_compute; reflexivity).
  assert (W35 : (100 * val w35 <= val (JS.of_Z 35))%Q) by (apply Qle_bool_imp_le; vm_compute; reflexivity).
  assert (W30 : (100 * val w30 <= val (JS.of_Z 30))%Q) by (apply Qle_bool_imp_le; vm_compute; reflexivity).
  split; [|split].
  - intros tp tc Htp Htc. destruct (Z.eq_dec tc 0) as [->|Hne].
    + exists 0. split; [reflexivity|lia].
    + rewrite efficiencyOf_active by (auto; lia).
      change (afterFocus (afterPomodoros (afterTasks (JS.of_Z tp) (JS.of_Z tc)) (JS.of_Z 0)) (JS.of_Z 0))
        with (afterTasks (JS.of_Z tp) (JS.of_Z tc)).
      unfold afterTasks. rewrite gtb_0_pos by (apply of_Z_pos_valid; lia).
      destruct (single_contribution (JS.mul (taskScore (JS.of_Z tp) (JS.of_Z tc)) w35) 35) as (n & Hn & En).
      * lia.
      * apply (at_most_le (val (JS.of_Z 35))); [rewrite V35; apply Qle_refl|].
        apply weighted_cap; auto using w35_valid.
        apply taskScore_subscore; lia.
      * exists n. split; [exact En|exact Hn].
  - intros tp p Htp Hp. destruct (Z.eq_dec p 0) as [->|Hne].
    + exists 0. split; [reflexivity|lia].
    + rewrite efficiencyOf_active by (auto; lia).
      change (afterTasks (JS.of_Z tp) (JS.of_Z 0)) with (JS.of_Z 0).
      change (afterFocus (afterPomodoros (JS.of_Z 0) (JS.of_Z p)) (JS.of_Z 0))
        with (afterPomodoros (JS.of_Z 0) (JS.of_Z p)).
      rewrite afterPomodoros_active by lia.
      destruct (single_contribution (JS.mul (pomodoroScore (JS.of_Z p)) w35) 35) as (n & Hn & En).
      * lia.
      * apply (at_most_le (val (JS.of_Z 35))); [rewrite V35; apply Qle_refl|].
        apply weighted_cap; auto using w35_valid.
        apply pomodoroScore_subscore; lia.
      * exists n. split; [exact En|exact Hn].
  - intros tp f Htp Hf. destruct (Z.eq_dec f 0) as [->|Hne].
    + exists 0. split; [reflexivity|lia].
    + rewrite efficiencyOf_active by (auto; lia).
      change (afterPomodoros (afterTasks (JS.of_Z tp) (JS.of_Z 0)) (JS.of_Z 0)) with (JS.of_Z 0).
      rewrite afterFocus_active by lia.
      destruct (single_contribution (JS.mul (focusScore (JS.of_Z f)) w30) 30) as (n & Hn & En).
      * lia.
      * apply (at_most_le (val (JS.of_Z 30))); [rewrite V30; apply Qle_refl|].
        apply weighted_cap; auto using w30_valid.
        apply focusScore_subscore; lia.
      * exists n. split; [exact En|exact Hn].
Qed.

Lemma single_activity_caps_witness :
  exists n, efficiencyOf 3 9 0 0 = JS.of_Z n /\ 0 <= n <= 35.
Proof.
  destruct single_activity_caps as (H & _). apply (H 3 9).
  - split; [lia|apply Z.leb_le; vm_compute; reflexivity].
  - split; [lia|apply Z.leb_le; vm_compute; reflexivity].
Defined.

(** ** A failed fetch and a day with two rows *)

Lemma update_duplicates w userId a r1 r2 others :
  fault_at 0 w = false ->
  filter (stat_matches userId (now w / 86400)) (user_stats w) = r1 :: r2 :: others ->
  let w' := snd (updateDailyEfficiency userId a w) in
  user_stats w' = user_stats w /\ tasks w' = tasks w /\
  faults w' = tl (faults w) /\
  console w' = console w ++ [ErrorFetchingStats].
Proof.
  intros H0 Hfl.
  destruct w as [us ts se nw fs ni co]. unfold fault_at in H0. cbn [faults now user_stats] in *.
  unfold updateDailyEfficiency, bind, today, select_stats, select_tasks, update_stats,
    bind, request, ret, log.
  destruct fs as [|[|] fs]; try discriminate; upd_simpl; rewrite Hfl; repeat split.
Qed.

(** X17: when the table holds more than one row for the user and the day, the
    fetch reports an error and the update aborts: nothing is written. *)
Theorem updateDailyEfficiency_duplicate_rows :
  forall (w : World) (userId : Z) (additionalTasks : JS.number) (r1 r2 : StatRow)
         (others : list StatRow),
  fault_at 0 w = false ->
  filter (stat_matches userId (now w / 86400)) (user_stats w) = r1 :: r2 :: others ->
  let w' := snd (updateDailyEfficiency userId additionalTasks w) in
  user_stats w' = user_stats w /\ tasks w' = tasks w /\
  faults w' = tl (faults w) /\
  console w' = console w ++ [ErrorFetchingStats].
Proof.
  intros w userId a r1 r2 others. apply update_duplicates.
Qed.

Lemma updateDailyEfficiency_duplicate_rows_witness :
  let w := with_user_stats [sampleRow; sampleRow] sampleWorld in
  let w' := snd (updateDailyEfficiency 7 (JS.of_Z 1) w) in
  user_stats w' = [sampleRow; sampleRow] /\ tasks w' = tasks w /\
  faults w' = [] /\ console w' = [ErrorFetchingStats].
Proof.
  apply (updateDailyEfficiency_duplicate_rows
           (with_user_stats [sampleRow; sampleRow] sampleWorld) 7 (JS.of_Z 1)
           sampleRow sampleRow []); reflexivity.
Defined.

(** X18: the toggle does not look at the error of its own fetch: when that
    fetch fails although today's row exists, it inserts a second row for the
    day, after which the update finds two rows and aborts. *)
Theorem toggle_after_failed_fetch :
  forall (w : World) (taskId userId : Z) (stats : StatRow),
  faults w = [false; true] ->
  session w = Some userId ->
  stats_of w userId (now w / 86400) = Some stats ->
  let w' := snd (toggleTaskCompletion taskId false w) in
  user_stats w' = user_stats w ++ [firstTaskRow w userId] /\
  stats_of w' userId (now w / 86400) = None /\
  console w' = console w ++ [ErrorFetchingStats].
Proof.
  intros w taskId userId stats Hf Hs Hst. apply stats_of_filter in Hst.
  destruct w as [us ts se nw fs ni co]. cbn [faults session now user_stats] in *. subst fs se.
  cbv zeta.
  unfold toggleTaskCompletion, update_task, getUser, today, select_stats, update_stats,
    insert_stats, bind, request, ret, log.
  tog_simpl.
  set (row := {| stat_id := ni; stat_user := userId; stat_date := nw / 86400;
                 focus_time := None; pomodoro_sessions := None;
                 tasks_completed := Some (JS.of_Z 1); efficiency_score := None |}).
  match goal with
  | |- context [updateDailyEfficiency ?u ?a ?W] =>
      pose proof (update_duplicates W u a stats row []) as H; set (w2 := W) in *
  end.
  cbv zeta in H. destruct H as (Hus & _ & _ & Hco).
  - reflexivity.
  - change (filter (stat_matches userId (nw / 86400)) (us ++ [row]) = [stats; row]).
    rewrite filter_app, Hst. cbn [filter app].
    unfold row. rewrite stat_matches_refl. reflexivity.
  - rewrite Hus, Hco. split; [reflexivity|]. split; [|reflexivity].
    unfold stats_of. rewrite Hus.
    change (user_stats w2) with (us ++ [row]).
    rewrite filter_app, Hst. cbn [filter app].
    unfold row. rewrite stat_matches_refl. reflexivity.
Qed.

Lemma toggle_after_failed_fetch_witness :
  let w := with_faults [false; true] sampleWorld in
  let w' := snd (toggleTaskCompletion 5 false w) in
  user_stats w' = [sampleRow; firstTaskRow w 7] /\
  stats_of w' 7 0 = None /\
  console w' = [ErrorFetchingStats].
Proof.
  apply (toggle_after_failed_fetch (with_faults [false; true] sampleWorld) 5 7 sampleRow);
    reflexivity.
Defined.

(** ** Rounding is monotone *)

Lemma round_nearest_even_tie m l x :
  inbetween m l x ->
  (Qabs (inject_Z (round_nearest_even m l) - x) == 1 # 2)%Q ->
  Z.even (round_nearest_even m l) = true.
Proof.
  intros H Ht.
  destruct l as [|[]]; unfold round_nearest_even in *; cbn [inbetween] in H.
  - exfalso. revert Ht. apply Qabs_case; intros; lra.
  - destruct (Z.even m) eqn:He; [assumption|]. rewrite Z.even_add, He. reflexivity.
  - exfalso. revert Ht. apply Qabs_case; intros; lra.
  - exfalso. revert Ht. rewrite inject_Z_plus. change (inject_Z 1) with 1%Q.
    apply Qabs_case; intros; lra.
Qed.

(** [binary_round_aux] on the grid of its target exponent: the mantissa
    chosen is the nearest one, the even one in a tie. *)
Lemma bra_grid m e l X :
  0 <= m -> inbetween m l X -> e <= fexp JS.prec JS.emax (Zdigits2 m + e) ->
  let E := fexp JS.prec JS.emax (Zdigits2 m + e) in
  let v := (X * pow2 e)%Q in
  exists m1,
    binary_round_aux JS.prec JS.emax false m e l = pack m1 E /\
    0 <= m1 <= 2 ^ 53 /\
    (0 < m1 < 2 ^ 53 -> canonical m1 E) /\
    (-1074 < E -> (inject_Z (2 ^ 52) <= v / pow2 E)%Q) /\
    (v / pow2 E < inject_Z (2 ^ 53))%Q /\
    (Qabs (inject_Z m1 - v / pow2 E) <= 1 # 2)%Q /\
    (forall k : Z, (v / pow2 E <= inject_Z k)%Q -> m1 <= k) /\
    (forall k : Z, (inject_Z k <= v / pow2 E)%Q -> k <= m1) /\
    ((Qabs (inject_Z m1 - v / pow2 E) == 1 # 2)%Q -> Z.even m1 = true).
Proof.
  intros Hm HX Hpre E v.
  destruct (shr_fexp_spec m e l X Hm HX Hpre) as (mrs & Hshr & Hmrs & Hrep).
  fold E in Hshr, Hrep.
  set (X' := (X * pow2 (e - E))%Q) in *.
  assert (HpE := pow2_pos E).
  assert (Hv : (v / pow2 E == X')%Q).
  { unfold v, X'. replace e with ((e - E) + E) at 1 by lia. rewrite pow2_add. field. lra. }
  assert (HE : -1074 <= E /\ Zdigits2 m + e - 53 <= E) by (unfold E; rewrite fexp_eq; lia).
  set (m1 := round_nearest_even (shr_m mrs) (loc_of_shr_record mrs)).
  destruct (round_nearest_even_spec _ _ _ Hrep) as (Hm1 & Herr & Hup & Hlo).
  fold m1 in Hm1, Herr, Hup, Hlo.
  assert (Htie := round_nearest_even_tie _ _ _ Hrep). fold m1 in Htie.
  assert (Hbx := inbetween_bounds _ _ _ HX).
  assert (HX'53 : (X' < inject_Z (2 ^ 53))%Q).
  { rewrite <- pow2_Z by lia. unfold X'.
    assert (H1 := inject_bound_digits m Hm).
    assert (H2 : (pow2 (Zdigits2 m) * pow2 (e - E) <= pow2 53)%Q).
    { rewrite <- pow2_add. apply pow2_le. lia. }
    assert (H3 := pow2_pos (e - E)). nra. }
  assert (Hm1hi : m1 <= 2 ^ 53) by (apply Hup; lra).
  assert (HX'52 : -1074 < E -> (inject_Z (2 ^ 52) <= X')%Q).
  { intros HEgt. rewrite <- pow2_Z by lia. unfold X'.
    assert (Hmpos : 0 < m).
    { destruct (Z.eq_dec m 0) as [->|]; [|lia]. simpl in Hpre, E. unfold E in HEgt.
      rewrite fexp_eq in *. lia. }
    destruct (Zdigits2_boundsQ m Hmpos) as [H1 _].
    assert (H2 : (pow2 52 <= pow2 (Zdigits2 m - 1) * pow2 (e - E))%Q).
    { rewrite <- pow2_add. apply pow2_le. unfold E in *. rewrite fexp_eq in *. lia. }
    assert (H3 := pow2_pos (e - E)). nra. }
  assert (Hm1lo : -1074 < E -> 2 ^ 52 <= m1) by (intros HEgt; apply Hlo; auto).
  assert (Hcan : 0 < m1 < 2 ^ 53 -> canonical m1 E).
  { intros Hpos. unfold canonical. rewrite fexp_eq.
    destruct (Z.eq_dec E (-1074)) as [HEm|HEm].
    - assert (Zdigits2 m1 <= 53).
      { rewrite Zdigits2_log2 by lia.
        assert (Z.log2 m1 < 53) by (apply Z.log2_lt_pow2; lia). lia. }
      lia.
    - rewrite (Zdigits2_unique m1 53); [lia | lia |].
      split; [apply Hm1lo; lia | lia]. }
  exists m1.
  split; [|split; [lia|split; [assumption|split; [|split; [|split; [|split; [|split]]]]]]].
  - unfold binary_round_aux. rewrite Hshr. fold m1. unfold pack.
    destruct (Z.eqb_spec m1 (2 ^ 53)) as [Hc|Hnc].
    + rewrite Hc. unfold shr_fexp, shr.
      replace (fexp JS.prec JS.emax (Zdigits2 (2 ^ 53) + E) - E) with 1
        by (rewrite fexp_eq; change (Zdigits2 (2 ^ 53)) with 54; lia).
      reflexivity.
    + rewrite shr_fexp_noshift.
      * simpl shr_m. unfold mk. reflexivity.
      * destruct (Z.eq_dec m1 0) as [->|]; [simpl; rewrite fexp_eq; lia|].
        rewrite (Hcan ltac:(lia)). lia.
  - intros HEgt. rewrite Hv. auto.
  - rewrite Hv. assumption.
  - rewrite Hv. assumption.
  - intros k Hk. apply Hup. rewrite <- Hv. assumption.
  - intros k Hk. apply Hlo. rewrite <- Hv. assumption.
  - intros Ht. apply Htie. rewrite <- Hv. assumption.
Qed.


Lemma pack_cases m1 E :
  0 <= m1 <= 2 ^ 53 -> -1074 <= E -> (0 < m1 < 2 ^ 53 -> canonical m1 E) ->
  exists m2 e2,
    pack m1 E = mk false m2 e2 /\ 0 <= m2 /\ (0 < m2 -> canonical m2 e2) /\
    (inject_Z m2 * pow2 e2 == inject_Z m1 * pow2 E)%Q.
Proof.
  intros Hm HE Hcan. unfold pack.
  destruct (Z.eqb_spec m1 (2 ^ 53)) as [->|Hne].
  - exists (2 ^ 52), (E + 1). split; [reflexivity|]. split; [lia|]. split.
    + intros _. unfold canonical. rewrite fexp_eq. change (Zdigits2 (2 ^ 52)) with 53. lia.
    + rewrite pow2_succ. rewrite <- !pow2_Z by lia.
      setoid_replace (pow2 53) with (2 * pow2 52)%Q by (rewrite <- pow2_succ; reflexivity). ring.
  - exists m1, E. split; [reflexivity|]. split; [lia|]. split; [|reflexivity].
    intros Hpos. apply Hcan. lia.
Qed.

(** The order of packed numbers is the order of their values. *)
Lemma mk_le m2 e2 m2' e2' :
  0 <= m2 -> (0 < m2 -> canonical m2 e2) ->
  0 <= m2' -> (0 < m2' -> canonical m2' e2') ->
  (inject_Z m2 * pow2 e2 <= inject_Z m2' * pow2 e2')%Q ->
  SFleb (mk false m2 e2) (mk false m2' e2') = true.
Proof.
  intros Hm Hc Hm' Hc' Hle.
  assert (Hp := pow2_pos e2). assert (Hp' := pow2_pos e2').
  destruct (mk_cases false m2 e2 Hm) as [(H0 & ->)|[(Hpos & He & ->)|(Hpos & He & ->)]].
  - destruct (mk_cases false m2' e2' Hm') as [(_ & ->)|[(_ & _ & ->)|(_ & _ & ->)]]; reflexivity.
  - assert (Hq : (0 < inject_Z m2)%Q) by (change 0%Q with (inject_Z 0); rewrite <- Zlt_Qlt; lia).
    assert (Hpos' : 0 < m2').
    { destruct (Z.eq_dec m2' 0) as [E0|]; [|lia]. rewrite E0 in Hle.
      change (inject_Z 0) with 0%Q in Hle. nra. }
    destruct (mk_cases false m2' e2' Hm') as [(H0 & _)|[(_ & He' & ->)|(_ & _ & ->)]];
      [lia| |reflexivity].
    apply SFleb_val; try exact I.
    + apply valid_finite. rewrite Z2Pos.id by lia. auto.
    + apply valid_finite. rewrite Z2Pos.id by lia. auto.
    + rewrite !val_pos, !Z2Pos.id by lia. assumption.
  - assert (Hq : (0 < inject_Z m2)%Q) by (change 0%Q with (inject_Z 0); rewrite <- Zlt_Qlt; lia).
    assert (Hpos' : 0 < m2').
    { destruct (Z.eq_dec m2' 0) as [E0|]; [|lia]. rewrite E0 in Hle.
      change (inject_Z 0) with 0%Q in Hle. nra. }
    destruct (mk_cases false m2' e2' Hm') as [(H0 & _)|[(_ & He' & ->)|(_ & _ & ->)]];
      [lia| |reflexivity].
    exfalso.
    assert (Hlt := canonical_lt m2' e2' m2 e2 Hpos' Hpos (Hc' Hpos') (Hc Hpos) ltac:(lia)).
    lra.
Qed.

(** Rounding is monotone. *)
Lemma located_mono u v R R' :
  located u R -> located v R' -> (u <= v)%Q -> SFleb R R' = true.
Proof.
  intros (m & e & l & X & Hm & HX & Hpre & Hu & ->)
         (m' & e' & l' & X' & Hm' & HX' & Hpre' & Hv & ->) Huv.
  destruct (bra_grid m e l X Hm HX Hpre)
    as (m1 & -> & Hr & Hcan & Hlo52 & Hhi53 & Herr & Hup & Hdn & Htie).
  destruct (bra_grid m' e' l' X' Hm' HX' Hpre')
    as (m1' & -> & Hr' & Hcan' & Hlo52' & Hhi53' & Herr' & Hup' & Hdn' & Htie').
  set (E := fexp JS.prec JS.emax (Zdigits2 m + e)) in *.
  set (E' := fexp JS.prec JS.emax (Zdigits2 m' + e')) in *.
  assert (HE : -1074 <= E) by (unfold E; rewrite fexp_eq; lia).
  assert (HE' : -1074 <= E') by (unfold E'; rewrite fexp_eq; lia).
  assert (HpE := pow2_pos E). assert (HpE' := pow2_pos E').
  destruct (pack_cases m1 E Hr HE Hcan) as (m2 & e2 & -> & Hm2 & Hc2 & Hv2).
  destruct (pack_cases m1' E' Hr' HE' Hcan') as (m2' & e2' & -> & Hm2' & Hc2' & Hv2').
  apply mk_le; try assumption. rewrite Hv2, Hv2'.
  set (x := (X * pow2 e / pow2 E)%Q) in *. set (x' := (X' * pow2 e' / pow2 E')%Q) in *.
  assert (Hux : (u == x * pow2 E)%Q) by (rewrite Hu; unfold x; field; lra).
  assert (Hvx : (v == x' * pow2 E')%Q) by (rewrite Hv; unfold x'; field; lra).
  destruct (Z.compare_spec E E') as [Heq|Hlt|Hgt].
  - (* the same grid *)
    rewrite <- Heq in *. apply Qmult_le_compat_r; [|lra]. rewrite <- Zle_Qle.
    assert (Hxx : (x <= x')%Q).
    { rewrite Hux, Hvx in Huv. apply Qmult_le_r in Huv; assumption. }
    destruct (Z_le_gt_dec m1 m1') as [|Hgt]; [assumption|exfalso].
    assert (H1 : (x' < inject_Z m1)%Q).
    { destruct (Qlt_le_dec x' (inject_Z m1)) as [|Hc]; [assumption|].
      specialize (Hdn' m1 Hc). lia. }
    assert (H2 : (inject_Z m1' < x)%Q).
    { destruct (Qlt_le_dec (inject_Z m1') x) as [|Hc]; [assumption|].
      specialize (Hup m1' Hc). lia. }
    assert (H3 : (inject_Z m1' + 1 <= inject_Z m1)%Q).
    { change 1%Q with (inject_Z 1). rewrite <- inject_Z_plus, <- Zle_Qle. lia. }
    assert (Ha : (inject_Z m1 - x <= 1 # 2)%Q).
    { revert Herr. apply Qabs_case; intros; lra. }
    assert (Hb : (x' - inject_Z m1' <= 1 # 2)%Q).
    { revert Herr'. apply Qabs_case; intros; lra. }
    assert (Ev : Z.even m1 = true).
    { apply Htie. rewrite Qabs_pos by lra. lra. }
    assert (Ev' : Z.even m1' = true).
    { apply Htie'. rewrite Qabs_neg by lra. lra. }
    assert (Em : m1 = m1' + 1).
    { assert (inject_Z m1 <= inject_Z m1' + 1)%Q by lra.
      change 1%Q with (inject_Z 1) in H. rewrite <- inject_Z_plus, <- Zle_Qle in H. lia. }
    rewrite Em, Z.even_add, Ev' in Ev. discriminate.
  - (* a finer grid on the left *)
    assert (H52 : 2 ^ 52 <= m1').
    { apply Hdn'. apply Hlo52'. lia. }
    assert (Hq1 : (inject_Z m1 <= inject_Z (2 ^ 53))%Q) by (rewrite <- Zle_Qle; lia).
    assert (Hq2 : (inject_Z (2 ^ 52) <= inject_Z m1')%Q) by (rewrite <- Zle_Qle; lia).
    rewrite <- !pow2_Z in * by lia.
    assert (Hle : (pow2 (53 + E) <= pow2 (52 + E'))%Q) by (apply pow2_le; lia).
    rewrite !pow2_add in Hle.
    assert (H0 := pow2_pos 52). assert (H00 := pow2_pos 53). nra.
  - (* impossible: the larger value on the finer grid *)
    exfalso.
    assert (H52 := Hlo52 ltac:(lia)).
    rewrite <- !pow2_Z in * by lia.
    assert (Hle : (pow2 (53 + E') <= pow2 (52 + E))%Q) by (apply pow2_le; lia).
    rewrite !pow2_add in Hle.
    assert (H0 := pow2_pos 52). assert (H00 := pow2_pos 53). nra.
Qed.

Lemma located_ext u v R : (u == v)%Q -> located u R -> located v R.
Proof.
  intros E (m & e & l & X & Hm & HX & Hpre & Hu & HR).
  exists m, e, l, X. repeat split; try assumption. rewrite <- E. assumption.
Qed.

Lemma mul_located a b : pos_valid a -> pos_valid b ->
  located (val a * val b) (JS.mul a b).
Proof.
  intros (ma & ea & -> & Ca & Hea) (mb & eb & -> & Cb & Heb).
  unfold JS.mul. simpl SFmul. rewrite !val_pos.
  destruct (canonical_facts (Zpos ma) ea ltac:(lia) Ca) as (Ha1 & Ha2 & Ha3).
  destruct (canonical_facts (Zpos mb) eb ltac:(lia) Cb) as (Hb1 & Hb2 & Hb3).
  assert (Hd := Zdigits2_mul (Zpos ma) (Zpos mb) ltac:(lia) ltac:(lia)).
  assert (Hda := Zdigits2_pos (Zpos ma) ltac:(lia)).
  assert (Hdb := Zdigits2_pos (Zpos mb) ltac:(lia)).
  exists (Zpos (ma * mb)), (ea + eb), loc_Exact, (inject_Z (Zpos (ma * mb))).
  split; [lia|]. split; [simpl; reflexivity|]. split.
  - rewrite fexp_eq. rewrite Pos2Z.inj_mul. lia.
  - split; [|reflexivity]. rewrite Pos2Z.inj_mul, inject_Z_mult, pow2_add. ring.
Qed.

Lemma binary_round_located p e :
  located (inject_Z (Zpos p) * pow2 e) (binary_round JS.prec JS.emax false p e).
Proof.
  unfold binary_round.
  assert (H := shl_align_spec p e (fexp JS.prec JS.emax (Zpos (digits2_pos p) + e))).
  assert (Hv := shl_align_val p e (fexp JS.prec JS.emax (Zpos (digits2_pos p) + e))).
  destruct (shl_align p e (fexp JS.prec JS.emax (Zpos (digits2_pos p) + e))) as [mz ez].
  destruct H as [Hez Hmz]. simpl fst in Hv. rewrite <- Hez in Hv.
  exists (Zpos mz), ez, loc_Exact, (inject_Z (Zpos mz)).
  split; [lia|]. split; [simpl; reflexivity|]. split.
  - rewrite Hmz, Zdigits2_shift by lia.
    change (Zdigits2 (Zpos p)) with (Zpos (digits2_pos p)).
    replace (Zpos (digits2_pos p) + (e - ez) + ez) with (Zpos (digits2_pos p) + e) by lia.
    lia.
  - split; [|reflexivity]. rewrite Hv. reflexivity.
Qed.

Lemma add_located a b : pos_valid a -> pos_valid b ->
  located (val a + val b) (JS.add a b).
Proof.
  intros (ma & ea & -> & Ca & Hea) (mb & eb & -> & Cb & Heb).
  unfold JS.add. simpl SFadd. rewrite !val_pos. simpl cond_Zopp.
  assert (Ha := shl_align_val ma ea (Z.min ea eb)).
  assert (Hb := shl_align_val mb eb (Z.min ea eb)).
  rewrite (Z.min_r ea (Z.min ea eb)) in Ha by lia. rewrite (Z.min_r eb (Z.min ea eb)) in Hb by lia.
  set (Ma := fst (shl_align ma ea (Z.min ea eb))) in *.
  set (Mb := fst (shl_align mb eb (Z.min ea eb))) in *.
  change (Zpos Ma + Zpos Mb) with (Zpos (Ma + Mb)). simpl binary_normalize.
  apply (located_ext (inject_Z (Zpos (Ma + Mb)) * pow2 (Z.min ea eb))).
  - rewrite Pos2Z.inj_add, inject_Z_plus, <- Ha, <- Hb. ring.
  - apply binary_round_located.
Qed.

Lemma sub_located a b : pos_valid a -> pos_valid b -> (val b < val a)%Q ->
  located (val a - val b) (JS.sub a b).
Proof.
  intros (ma & ea & -> & Ca & Hea) (mb & eb & -> & Cb & Heb).
  rewrite !val_pos. intros Hlt.
  assert (Ha := shl_align_val ma ea (Z.min ea eb)).
  assert (Hb := shl_align_val mb eb (Z.min ea eb)).
  rewrite (Z.min_r ea (Z.min ea eb)) in Ha by lia. rewrite (Z.min_r eb (Z.min ea eb)) in Hb by lia.
  change (JS.sub (S754_finite false ma ea) (S754_finite false mb eb))
    with (binary_normalize JS.prec JS.emax
            (Zpos (fst (shl_align ma ea (Z.min ea eb))) - Zpos (fst (shl_align mb eb (Z.min ea eb))))
            (Z.min ea eb) false).
  set (Ma := fst (shl_align ma ea (Z.min ea eb))) in *.
  set (Mb := fst (shl_align mb eb (Z.min ea eb))) in *.
  assert (Hp := pow2_pos (Z.min ea eb)).
  assert (E : (inject_Z (Zpos Ma - Zpos Mb) * pow2 (Z.min ea eb) ==
               inject_Z (Zpos ma) * pow2 ea - inject_Z (Zpos mb) * pow2 eb)%Q).
  { unfold Z.sub at 1. rewrite inject_Z_plus, inject_Z_opp, <- Ha, <- Hb. ring. }
  destruct (Zpos Ma - Zpos Mb) as [|d|d] eqn:Hd.
  - exfalso. change (inject_Z 0) with 0%Q in E. lra.
  - simpl binary_normalize. apply (located_ext _ _ _ E). apply binary_round_located.
  - exfalso. assert (inject_Z (Zneg d) < 0)%Q by (change 0%Q with (inject_Z 0); rewrite <- Zlt_Qlt; lia).
    nra.
Qed.

Lemma div_located a b : pos_valid a -> pos_valid b ->
  located (val a / val b) (JS.div a b).
Proof.
  intros (ma & ea & -> & Ca & Hea) (mb & eb & -> & Cb & Heb).
  rewrite !val_pos. unfold JS.div. simpl SFdiv.
  destruct (div_core_spec ma ea mb eb) as (q & e' & l & Hcore & Hq & Hpre & X & HX & HXv).
  rewrite Hcore. exists q, e', l, X. repeat split; try assumption.
  rewrite HXv. reflexivity.
Qed.

Lemma of_Z_located z : 0 < z -> located (inject_Z z) (JS.of_Z z).
Proof.
  destruct z as [|p|p]; try lia. intros _.
  apply (located_ext (inject_Z (Zpos p) * pow2 0)).
  - rewrite pow2_0. ring.
  - apply binary_round_located.
Qed.

(** ** How the score moves with its inputs *)

Lemma located_rounded v R : located v R -> rounded v R.
Proof.
  intros (m & e & l & X & Hm & HX & Hpre & Hv & ->).
  apply (rounded_ext (X * pow2 e)); [symmetry; assumption|].
  apply round_pos; assumption.
Qed.

Lemma located_good v R : located v R -> good R.
Proof. intros H. eapply rounded_good. apply located_rounded. eassumption. Qed.

Lemma leq_zero g : good g -> leq (S754_zero false) g.
Proof. intros [->|[(m & e & -> & _)| ->]]; reflexivity. Qed.

Lemma leq_inf g : good g -> leq g (S754_infinity false).
Proof. intros [->|[(m & e & -> & _)| ->]]; reflexivity. Qed.

Lemma leq_val x y : pos_valid x -> pos_valid y -> (leq x y <-> (val x <= val y)%Q).
Proof. intros Hx Hy. unfold leq. apply SFleb_val; valid_side. Qed.

Lemma leq_refl g : good g -> leq g g.
Proof.
  intros [->|[H| ->]]; try reflexivity. apply leq_val; try assumption. apply Qle_refl.
Qed.

Lemma leq_cases x y : good x -> good y -> leq x y ->
  x = S754_zero false \/ y = S754_infinity false \/
  (pos_valid x /\ pos_valid y /\ (val x <= val y)%Q).
Proof.
  intros [->|[Hx| ->]] [->|[Hy| ->]] H; auto.
  - exfalso. destruct Hx as (m & e & -> & _). discriminate.
  - right; right. split; [assumption|]. split; [assumption|]. apply leq_val; assumption.
  - discriminate.
  - exfalso. destruct Hy as (m & e & -> & _). discriminate.
Qed.

Lemma leq_trans x y z : good x -> good y -> good z -> leq x y -> leq y z -> leq x z.
Proof.
  intros Gx Gy Gz Hxy Hyz.
  destruct (leq_cases x y Gx Gy Hxy) as [->|[->|(Px & Py & Hv)]].
  - apply leq_zero. assumption.
  - destruct (leq_cases _ z Gy Gz Hyz) as [E|[->|((m & e & E & _) & _)]];
      try discriminate. apply leq_inf. assumption.
  - destruct (leq_cases y z Gy Gz Hyz) as [->|[->|(_ & Pz & Hv')]].
    + exfalso. destruct Py as (m & e & E & _). discriminate.
    + apply leq_inf. assumption.
    + apply leq_val; try assumption. lra.
Qed.

Lemma mul_zero_l c : pos_valid c -> JS.mul (S754_zero false) c = S754_zero false.
Proof. intros (m & e & -> & _). reflexivity. Qed.

Lemma mul_inf_l c : pos_valid c -> JS.mul (S754_infinity false) c = S754_infinity false.
Proof. intros (m & e & -> & _). reflexivity. Qed.

(** Multiplication by a positive constant is monotone. *)
Lemma mul_mono x y c : good x -> good y -> leq x y -> pos_valid c ->
  leq (JS.mul x c) (JS.mul y c).
Proof.
  intros Gx Gy H Hc.
  destruct (leq_cases x y Gx Gy H) as [->|[->|(Px & Py & Hv)]].
  - rewrite mul_zero_l by assumption. apply leq_zero. apply mul_good; assumption.
  - rewrite mul_inf_l by assumption. apply leq_inf. apply mul_good; assumption.
  - apply (located_mono (val x * val c) (val y * val c)); try (apply mul_located; assumption).
    assert (H0 := pos_valid_val c Hc). nra.
Qed.

Lemma add_zero_r_good x : good x -> JS.add x (S754_zero false) = x.
Proof. intros [->|[(m & e & -> & _)| ->]]; reflexivity. Qed.

Lemma add_inf_r x : good x -> JS.add x (S754_infinity false) = S754_infinity false.
Proof. intros [->|[(m & e & -> & _)| ->]]; reflexivity. Qed.

Lemma add_inf_l x : good x -> JS.add (S754_infinity false) x = S754_infinity false.
Proof. intros [->|[(m & e & -> & _)| ->]]; reflexivity. Qed.

(** Adding a term does not lower a sum. *)
Lemma add_ge_r x c : good x -> pos_valid c -> leq c (JS.add x c).
Proof.
  intros [->|[Hx| ->]] Hc.
  - rewrite add_zero_l by (right; left; assumption). apply leq_refl. right; left; assumption.
  - apply (rnd_ge _ _ (add_rounded x c Hx Hc)); [assumption|].
    assert (H0 := pos_valid_val x Hx). lra.
  - rewrite add_inf_l by (right; left; assumption). apply leq_inf. right; left; assumption.
Qed.

Lemma add_ge_l x c : pos_valid x -> good c -> leq x (JS.add x c).
Proof.
  intros Hx [->|[Hc| ->]].
  - rewrite add_zero_r_good by (right; left; assumption). apply leq_refl. right; left; assumption.
  - apply (rnd_ge _ _ (add_rounded x c Hx Hc)); [assumption|].
    assert (H0 := pos_valid_val c Hc). lra.
  - rewrite add_inf_r by (right; left; assumption). apply leq_inf. right; left; assumption.
Qed.

(** Addition is monotone in its first argument. *)
Lemma add_mono_l x y c : good x -> good y -> leq x y -> good c ->
  leq (JS.add x c) (JS.add y c).
Proof.
  intros Gx Gy H Gc.
  destruct Gc as [->|[Hc| ->]].
  - rewrite !add_zero_r_good by assumption. assumption.
  - destruct (leq_cases x y Gx Gy H) as [->|[->|(Px & Py & Hv)]].
    + rewrite add_zero_l by (right; left; assumption). apply add_ge_r; assumption.
    + rewrite add_inf_l by (right; left; assumption). apply leq_inf.
      apply add_good; [assumption|right; left; assumption].
    + apply (located_mono (val x + val c) (val y + val c)); try (apply add_located; assumption).
      lra.
  - rewrite !add_inf_r by assumption. reflexivity.
Qed.

(** Addition is monotone in its second argument. *)
Lemma add_mono_r e c c' : good e -> good c -> good c' -> leq c c' ->
  leq (JS.add e c) (JS.add e c').
Proof.
  intros Ge Gc Gc' H.
  destruct Ge as [->|[He| ->]].
  - rewrite !add_zero_l by assumption. assumption.
  - destruct (leq_cases c c' Gc Gc' H) as [->|[->|(Pc & Pc' & Hv)]].
    + rewrite add_zero_r_good by (right; left; assumption). apply add_ge_l; assumption.
    + rewrite add_inf_r by (right; left; assumption). apply leq_inf.
      apply add_good; [right; left; assumption|assumption].
    + apply (located_mono (val e + val c) (val e + val c')); try (apply add_located; assumption).
      lra.
  - rewrite !add_inf_l by assumption. reflexivity.
Qed.

Lemma Math_max_zero_good y : good y -> JS.Math_max (JS.of_Z 0) y = y.
Proof. apply Math_max_zero. Qed.

(** [Math.min(c, .)] is monotone. *)
Lemma min_cases c z : pos_valid c -> good z ->
  (JS.Math_min c z = z /\ leq z c) \/ (JS.Math_min c z = c /\ leq c z).
Proof.
  intros Hc [->|[Hz| ->]].
  - left. split; [destruct Hc as (m & e & -> & _); reflexivity|].
    apply leq_zero. right; left; assumption.
  - destruct (Qlt_le_dec (val c) (val z)) as [Hlt|Hle].
    + right. split; [|apply leq_val; try assumption; lra].
      apply Math_min_left; [assumption|]. right. split; [assumption|lra].
    + left. split; [|apply leq_val; assumption].
      apply Math_min_right; [assumption|]. right. split; assumption.
  - right. split; [destruct Hc as (m & e & -> & _); reflexivity|].
    apply leq_inf. right; left; assumption.
Qed.

Lemma min_mono c x y : pos_valid c -> good x -> good y -> leq x y ->
  leq (JS.Math_min c x) (JS.Math_min c y).
Proof.
  intros Hc Gx Gy H. assert (Gc : good c) by (right; left; assumption).
  destruct (min_cases c x Hc Gx) as [[-> Hx]|[-> Hx]],
           (min_cases c y Hc Gy) as [[-> Hy]|[-> Hy]]; auto.
  - apply (leq_trans c x y); assumption.
  - apply leq_refl. assumption.
Qed.

(** [Math.round] is monotone on sub-scores. *)
Lemma round_mono x y : subscore x -> subscore y -> leq x y ->
  exists n n', JS.Math_round x = JS.of_Z n /\ JS.Math_round y = JS.of_Z n' /\
    0 <= n <= n' /\ n' <= 100.
Proof.
  intros Sx Sy H.
  assert (R : forall z, subscore z -> exists n, JS.Math_round z = JS.of_Z n /\ 0 <= n <= 100 /\
             (inject_Z n <= val z + (1 # 2))%Q /\ (val z + (1 # 2) < inject_Z n + 1)%Q).
  { intros z [->|[Hz Hv]].
    - exists 0. split; [reflexivity|]. split; [lia|]. simpl val.
      change (inject_Z 0) with 0%Q. split; lra.
    - assert (Hpos := pos_valid_val z Hz). destruct Hz as (m & e & -> & _).
      exists (JS.round_half_up false m e). split; [apply Math_round_finite|].
      destruct (round_half_up_spec m e) as [H1 H2].
      set (n := JS.round_half_up false m e) in *.
      assert (H3 : (inject_Z n < inject_Z 101)%Q) by (change (inject_Z 101) with 101%Q; lra).
      assert (H4 : (inject_Z (-1) < inject_Z n)%Q) by (change (inject_Z (-1)) with (-1)%Q; lra).
      rewrite <- Zlt_Qlt in H3, H4. repeat split; try lia; assumption. }
  destruct (R x Sx) as (n & En & Hn & Hn1 & Hn2).
  destruct (R y Sy) as (n' & En' & Hn' & Hn1' & Hn2').
  exists n, n'. repeat split; try assumption; try lia.
  assert (Hv : (val x <= val y)%Q).
  { destruct Sx as [->|[Px _]]; destruct Sy as [->|[Py _]].
    - apply Qle_refl.
    - simpl. apply Qlt_le_weak. apply pos_valid_val. assumption.
    - exfalso. destruct Px as (m & e & -> & _). discriminate.
    - apply leq_val; assumption. }
  assert (Hq : (inject_Z n < inject_Z (n' + 1))%Q).
  { rewrite inject_Z_plus. change (inject_Z 1) with 1%Q. lra. }
  rewrite <- Zlt_Qlt in Hq. lia.
Qed.

Lemma clamp_subscore e : good e ->
  subscore (JS.Math_min (JS.of_Z 100) (JS.Math_max (JS.of_Z 0) e)).
Proof.
  intros Ge. rewrite Math_max_zero_good by assumption.
  destruct (Math_min_good (JS.of_Z 100) e ltac:(const_valid) Ge) as [H1 H2].
  assert (E : (val (JS.of_Z 100) == 100)%Q) by (vm_compute; reflexivity).
  rewrite E in H2. destruct H1 as [H1|H1]; [left|right]; auto.
Qed.

(** The clamp and the final rounding are monotone. *)
Lemma finish_mono e e' : good e -> good e' -> leq e e' ->
  exists n n',
    JS.Math_round (JS.Math_min (JS.of_Z 100) (JS.Math_max (JS.of_Z 0) e)) = JS.of_Z n /\
    JS.Math_round (JS.Math_min (JS.of_Z 100) (JS.Math_max (JS.of_Z 0) e')) = JS.of_Z n' /\
    0 <= n <= n' /\ n' <= 100.
Proof.
  intros Ge Ge' H. apply round_mono; try (apply clamp_subscore; assumption).
  rewrite !Math_max_zero_good by assumption.
  apply min_mono; try assumption. const_valid.
Qed.

Lemma afterPomodoros_mono e e' p : good e -> good e' -> leq e e' -> count p ->
  leq (afterPomodoros e p) (afterPomodoros e' p).
Proof.
  intros Ge Ge' H Hp. unfold afterPomodoros.
  destruct (JS.gtb p (JS.of_Z 0)) eqn:Hg; [|assumption].
  apply add_mono_l; try assumption.
  apply mul_good; [|exact w35_valid]. apply pomodoroScore_good. apply gtb_0_count; assumption.
Qed.

Lemma afterFocus_mono e e' f : good e -> good e' -> leq e e' -> count f ->
  leq (afterFocus e f) (afterFocus e' f).
Proof.
  intros Ge Ge' H Hf. unfold afterFocus.
  destruct (JS.gtb f (JS.of_Z 0)) eqn:Hg; [|assumption].
  apply add_mono_l; try assumption.
  apply mul_good; [|exact w30_valid]. apply focusScore_good. apply gtb_0_count; assumption.
Qed.

Lemma div_good_pos a b : pos_valid a -> pos_valid b -> good (JS.div a b).
Proof. intros Ha Hb. eapply located_good. apply div_located; assumption. Qed.

(** The task sub-score grows with the completed tasks... *)
Lemma taskScore_mono tp a a' : count tp -> pos_valid a -> pos_valid a' -> leq a a' ->
  leq (taskScore tp a) (taskScore tp a').
Proof.
  intros Htp Ha Ha' H. apply leq_val in H; try assumption.
  assert (P100 : pos_valid (JS.of_Z 100)) by const_valid.
  assert (P20 : pos_valid (JS.of_Z 20)) by const_valid.
  unfold taskScore. destruct (JS.gtb tp (JS.of_Z 0)) eqn:Hg.
  - assert (Ptp := gtb_0_count tp Htp Hg). assert (H0 := pos_valid_val tp Ptp).
    apply min_mono; try assumption; try (apply mul_good; try assumption; apply div_good_pos; assumption).
    apply mul_mono; try assumption; try (apply div_good_pos; assumption).
    apply (located_mono (val a / val tp) (val a' / val tp)); try (apply div_located; assumption).
    apply Qmult_le_compat_r; [assumption|]. apply Qlt_le_weak. apply Qinv_lt_0_compat. assumption.
  - apply min_mono; try assumption;
      try (apply mul_good; try assumption; right; left; assumption).
    apply mul_mono; try assumption; try (right; left; assumption).
    apply leq_val; assumption.
Qed.

(** ... and shrinks as more tasks are planned, from one planned task on. *)
Lemma taskScore_anti tp tp' a : pos_valid tp -> pos_valid tp' -> leq tp tp' -> pos_valid a ->
  leq (taskScore tp' a) (taskScore tp a).
Proof.
  intros Htp Htp' H Ha. apply leq_val in H; try assumption.
  assert (P100 : pos_valid (JS.of_Z 100)) by const_valid.
  assert (H0 := pos_valid_val tp Htp). assert (H0' := pos_valid_val tp' Htp').
  assert (Ha0 := pos_valid_val a Ha).
  unfold taskScore. rewrite !gtb_0_pos by assumption.
  apply min_mono; try assumption; try (apply mul_good; try assumption; apply div_good_pos; assumption).
  apply mul_mono; try assumption; try (apply div_good_pos; assumption).
  apply (located_mono (val a / val tp') (val a / val tp)); try (apply div_located; assumption).
  apply Qle_shift_div_l; [assumption|].
  setoid_replace (val a / val tp' * val tp)%Q with (val a * (val tp / val tp'))%Q by (field; lra).
  assert (Hr : (val tp / val tp' <= 1)%Q) by (apply Qle_shift_div_r; lra).
  assert (Hr0 : (0 <= val tp / val tp')%Q) by (apply Qle_shift_div_l; lra).
  nra.
Qed.

Lemma afterTasks_pos tp a : pos_valid a ->
  afterTasks tp a = JS.add (JS.of_Z 0) (JS.mul (taskScore tp a) w35).
Proof. intros Ha. unfold afterTasks. rewrite gtb_0_pos by assumption. reflexivity. Qed.

Lemma afterTasks_mono tp a a' : count tp -> count a -> count a' -> leq a a' ->
  leq (afterTasks tp a) (afterTasks tp a').
Proof.
  intros Htp Ha Ha' H.
  destruct Ha as [->|Ha].
  - change (afterTasks tp (S754_zero false)) with (S754_zero false).
    apply leq_zero. apply afterTasks_good; assumption.
  - assert (Pa' : pos_valid a').
    { destruct Ha' as [->|]; [|assumption]. exfalso.
      destruct Ha as (m & e & -> & _). discriminate. }
    rewrite !afterTasks_pos by assumption.
    change (JS.of_Z 0) with (S754_zero false).
    rewrite !add_zero_l by (apply mul_good; [apply taskScore_good; assumption|exact w35_valid]).
    apply mul_mono; try (apply taskScore_good; assumption); try exact w35_valid.
    apply taskScore_mono; assumption.
Qed.

Lemma afterTasks_anti tp tp' a : pos_valid tp -> pos_valid tp' -> leq tp tp' -> count a ->
  leq (afterTasks tp' a) (afterTasks tp a).
Proof.
  intros Htp Htp' H [->|Ha].
  - reflexivity.
  - rewrite !afterTasks_pos by assumption.
    change (JS.of_Z 0) with (S754_zero false).
    rewrite !add_zero_l
      by (apply mul_good; [apply taskScore_good; [right|]; assumption|exact w35_valid]).
    apply mul_mono; try (apply taskScore_good; [right|]; assumption); try exact w35_valid.
    apply taskScore_anti; assumption.
Qed.

Lemma of_Z_mono a b : 0 <= a <= b -> b <= MAX_VALUE -> leq (JS.of_Z a) (JS.of_Z b).
Proof.
  intros Hab Hb.
  destruct (Z.eq_dec a 0) as [->|Ha].
  - apply leq_zero. apply of_Z_good. lia.
  - apply (located_mono (inject_Z a) (inject_Z b)); try (apply of_Z_located; lia).
    rewrite <- Zle_Qle. lia.
Qed.

(** The score as the clamp and rounding of the running sum, or 0 on a day
    without activity. *)
Lemma efficiencyOf_sum tp tc p f :
  0 <= tp <= MAX_VALUE -> 0 <= tc <= MAX_VALUE ->
  0 <= p <= MAX_VALUE -> 0 <= f <= MAX_VALUE ->
  (tc = 0 /\ p = 0 /\ f = 0 /\ efficiencyOf tp tc p f = JS.of_Z 0) \/
  efficiencyOf tp tc p f =
  JS.Math_round
    (JS.Math_min (JS.of_Z 100)
       (JS.Math_max (JS.of_Z 0)
          (afterFocus (afterPomodoros (afterTasks (JS.of_Z tp) (JS.of_Z tc)) (JS.of_Z p))
             (JS.of_Z f)))).
Proof.
  intros Htp Htc Hp Hf.
  destruct (Z.eq_dec tc 0) as [->|Htc0]; [|right; apply efficiencyOf_active; auto; lia].
  destruct (Z.eq_dec p 0) as [->|Hp0]; [|right; apply efficiencyOf_active; auto; lia].
  destruct (Z.eq_dec f 0) as [->|Hf0]; [|right; apply efficiencyOf_active; auto; lia].
  left. repeat split; reflexivity.
Qed.

Lemma sum_good tp tc p f :
  0 <= tp <= MAX_VALUE -> 0 <= tc <= MAX_VALUE ->
  0 <= p <= MAX_VALUE -> 0 <= f <= MAX_VALUE ->
  good (afterFocus (afterPomodoros (afterTasks (JS.of_Z tp) (JS.of_Z tc)) (JS.of_Z p))
          (JS.of_Z f)).
Proof.
  intros Htp Htc Hp Hf.
  apply afterFocus_good; [|apply of_Z_count; assumption].
  apply afterPomodoros_good; [|apply of_Z_count; assumption].
  apply afterTasks_good; apply of_Z_count; assumption.
Qed.

(** Two scores whose running sums are ordered are ordered. *)
Lemma scores_ordered tp tc p f tp' tc' p' f' :
  0 <= tp <= MAX_VALUE -> 0 <= tc <= MAX_VALUE ->
  0 <= p <= MAX_VALUE -> 0 <= f <= MAX_VALUE ->
  0 <= tp' <= MAX_VALUE -> 0 <= tc' <= MAX_VALUE ->
  0 <= p' <= MAX_VALUE -> 0 <= f' <= MAX_VALUE ->
  (tc' = 0 /\ p' = 0 /\ f' = 0 -> tc = 0 /\ p = 0 /\ f = 0) ->
  leq (afterFocus (afterPomodoros (afterTasks (JS.of_Z tp) (JS.of_Z tc)) (JS.of_Z p)) (JS.of_Z f))
      (afterFocus (afterPomodoros (afterTasks (JS.of_Z tp') (JS.of_Z tc')) (JS.of_Z p')) (JS.of_Z f')) ->
  exists n n',
    efficiencyOf tp tc p f = JS.of_Z n /\ efficiencyOf tp' tc' p' f' = JS.of_Z n' /\
    0 <= n <= n' /\ n' <= 100.
Proof.
  intros Htp Htc Hp Hf Htp' Htc' Hp' Hf' Hidle H.
  assert (G := sum_good tp tc p f Htp Htc Hp Hf).
  assert (G' := sum_good tp' tc' p' f' Htp' Htc' Hp' Hf').
  destruct (finish_mono _ _ G G' H) as (n & n' & En & En' & Hn).
  destruct (efficiencyOf_sum tp' tc' p' f' Htp' Htc' Hp' Hf') as [(E1 & E2 & E3 & E')|E'].
  - destruct (Hidle (conj E1 (conj E2 E3))) as (-> & -> & ->). subst.
    exists 0, 0. repeat split; try reflexivity; lia.
  - destruct (efficiencyOf_sum tp tc p f Htp Htc Hp Hf) as [(E1 & E2 & E3 & E)|E].
    + exists 0, n'. rewrite E, E', En'. repeat split; lia.
    + exists n, n'. rewrite E, E', En, En'. repeat split; lia.
Qed.

(** X19: completing more tasks never lowers the score, whatever the other
    inputs. *)
Theorem more_completed_tasks_never_lower :
  forall tp tc tc' p f : Z,
  0 <= tp <= MAX_VALUE -> 0 <= tc <= tc' -> tc' <= MAX_VALUE ->
  0 <= p <= MAX_VALUE -> 0 <= f <= MAX_VALUE ->
  exists n n',
    efficiencyOf tp tc p f = JS.of_Z n /\ efficiencyOf tp tc' p f = JS.of_Z n' /\
    0 <= n <= n' /\ n' <= 100.
Proof.
  intros tp tc tc' p f Htp Htc Htc' Hp Hf.
  apply scores_ordered; try assumption; try lia.
  apply afterFocus_mono; try (apply of_Z_count; assumption);
    try (apply afterPomodoros_good; [apply afterTasks_good|]; apply of_Z_count; lia).
  apply afterPomodoros_mono; try (apply of_Z_count; assumption);
    try (apply afterTasks_good; apply of_Z_count; lia).
  apply afterTasks_mono; try (apply of_Z_count; lia).
  apply of_Z_mono; lia.
Qed.

Lemma more_completed_tasks_never_lower_witness :
  exists n n',
    efficiencyOf 4 1 3 50 = JS.of_Z n /\ efficiencyOf 4 3 3 50 = JS.of_Z n' /\
    0 <= n <= n' /\ n' <= 100.
Proof.
  apply (more_completed_tasks_never_lower 4 1 3 3 50);
    try lia; try (split; [lia|]); apply Z.leb_le; vm_compute; reflexivity.
Defined.

(** X20: once at least one task is planned, planning more never raises the
    score. *)
Theorem more_planned_tasks_never_raise :
  forall tp tp' tc p f : Z,
  1 <= tp <= tp' -> tp' <= MAX_VALUE -> 0 <= tc <= MAX_VALUE ->
  0 <= p <= MAX_VALUE -> 0 <= f <= MAX_VALUE ->
  exists n n',
    efficiencyOf tp' tc p f = JS.of_Z n /\ efficiencyOf tp tc p f = JS.of_Z n' /\
    0 <= n <= n' /\ n' <= 100.
Proof.
  intros tp tp' tc p f Htp Htp' Htc Hp Hf.
  apply scores_ordered; try assumption; try lia.
  apply afterFocus_mono; try (apply of_Z_count; assumption);
    try (apply afterPomodoros_good; [apply afterTasks_good|]; apply of_Z_count; lia).
  apply afterPomodoros_mono; try (apply of_Z_count; assumption);
    try (apply afterTasks_good; apply of_Z_count; lia).
  apply afterTasks_anti; try (apply of_Z_pos_valid; lia); try (apply of_Z_count; lia).
  apply of_Z_mono; lia.
Qed.

Lemma more_planned_tasks_never_raise_witness :
  exists n n',
    efficiencyOf 5 2 3 50 = JS.of_Z n /\ efficiencyOf 2 2 3 50 = JS.of_Z n' /\
    0 <= n <= n' /\ n' <= 100.
Proof.
  apply (more_planned_tasks_never_raise 2 5 2 3 50);
    try lia; try (split; [lia|]); apply Z.leb_le; vm_compute; reflexivity.
Defined.

Lemma add_ge_l_good e c : good e -> good c -> leq e (JS.add e c).
Proof.
  intros [->|[He| ->]] Gc.
  - apply leq_zero. apply add_good; [left; reflexivity|assumption].
  - apply add_ge_l; assumption.
  - rewrite add_inf_l by assumption. reflexivity.
Qed.

Lemma subscore_good x : subscore x -> good x.
Proof. intros [->|[H _]]; [left; reflexivity|right; left; assumption]. Qed.

Lemma subscore_le_100 x : subscore x -> leq x (JS.of_Z 100).
Proof.
  intros [->|[H Hv]]; [reflexivity|].
  apply leq_val; [assumption|const_valid|].
  assert (E : (val (JS.of_Z 100) == 100)%Q) by (vm_compute; reflexivity). rewrite E. assumption.
Qed.

(** The pomodoro sub-score rises up to ten sessions and falls after. *)
Lemma pomodoroScore_rises p p' : 1 <= p <= p' -> p' <= 10 ->
  leq (pomodoroScore (JS.of_Z p)) (pomodoroScore (JS.of_Z p')).
Proof.
  intros Hp Hp'.
  assert (Hmax : 10 <= MAX_VALUE) by (apply Z.leb_le; vm_compute; reflexivity).
  destruct (Z_lt_ge_dec p' 6) as [Hlo|Hhi].
  - enumerate_int p 1 5; enumerate_int p' 1 5; try lia; vm_compute; reflexivity.
  - rewrite (pomodoroScore_ideal p') by lia. apply subscore_le_100.
    apply pomodoroScore_subscore. lia.
Qed.

Lemma pomodoroScore_from_10 p : 10 <= p <= MAX_VALUE ->
  pomodoroScore (JS.of_Z p) = JS.of_Z (pomodoroPenalty p).
Proof.
  intros Hp. destruct (Z.eq_dec p 10) as [->|Hne].
  - vm_compute. reflexivity.
  - apply pomodoroScore_high. lia.
Qed.

Lemma pomodoroScore_falls p p' : 10 <= p <= p' -> p' <= MAX_VALUE ->
  leq (pomodoroScore (JS.of_Z p')) (pomodoroScore (JS.of_Z p)).
Proof.
  intros Hp Hp'. rewrite !pomodoroScore_from_10 by lia.
  apply of_Z_mono; unfold pomodoroPenalty; [lia|].
  assert (100 <= MAX_VALUE) by (apply Z.leb_le; vm_compute; reflexivity). lia.
Qed.

Lemma afterPomodoros_rises e p p' : good e -> 0 <= p <= p' -> p' <= 10 ->
  leq (afterPomodoros e (JS.of_Z p)) (afterPomodoros e (JS.of_Z p')).
Proof.
  intros Ge Hp Hp'.
  assert (Hmax : 10 <= MAX_VALUE) by (apply Z.leb_le; vm_compute; reflexivity).
  assert (G : forall q, 0 < q <= 10 -> good (JS.mul (pomodoroScore (JS.of_Z q)) w35)).
  { intros q Hq. apply mul_good; [|exact w35_valid]. apply pomodoroScore_good.
    apply of_Z_pos_valid. lia. }
  destruct (Z.eq_dec p' 0) as [->|Hp'0].
  - replace p with 0 by lia. apply leq_refl. assumption.
  - rewrite (afterPomodoros_active e p') by lia.
    destruct (Z.eq_dec p 0) as [->|Hp0].
    + change (afterPomodoros e (JS.of_Z 0)) with e. apply add_ge_l_good; [assumption|].
      apply G. lia.
    + rewrite (afterPomodoros_active e p) by lia.
      apply add_mono_r; try assumption; try (apply G; lia).
      apply mul_mono; try exact w35_valid;
        try (apply pomodoroScore_good; apply of_Z_pos_valid; lia).
      apply pomodoroScore_rises; lia.
Qed.

Lemma afterPomodoros_falls e p p' : good e -> 10 <= p <= p' -> p' <= MAX_VALUE ->
  leq (afterPomodoros e (JS.of_Z p')) (afterPomodoros e (JS.of_Z p)).
Proof.
  intros Ge Hp Hp'.
  rewrite !afterPomodoros_active by lia.
  assert (G : forall q, 10 <= q <= MAX_VALUE -> good (pomodoroScore (JS.of_Z q))).
  { intros q Hq. apply pomodoroScore_good. apply of_Z_pos_valid. lia. }
  apply add_mono_r; try assumption; try (apply mul_good; [apply G; lia|exact w35_valid]).
  apply mul_mono; try exact w35_valid; try (apply G; lia).
  apply pomodoroScore_falls; lia.
Qed.

(** X21: up to ten sessions one more pomodoro never lowers the score, and from
    ten sessions on one more never raises it. *)
Theorem pomodoros_help_up_to_ten :
  (forall tp tc p p' f : Z,
     0 <= tp <= MAX_VALUE -> 0 <= tc <= MAX_VALUE -> 0 <= f <= MAX_VALUE ->
     0 <= p <= p' -> p' <= 10 ->
     exists n n',
       efficiencyOf tp tc p f = JS.of_Z n /\ efficiencyOf tp tc p' f = JS.of_Z n' /\
       0 <= n <= n' /\ n' <= 100) /\
  (forall tp tc p p' f : Z,
     0 <= tp <= MAX_VALUE -> 0 <= tc <= MAX_VALUE -> 0 <= f <= MAX_VALUE ->
     10 <= p <= p' -> p' <= MAX_VALUE ->
     exists n n',
       efficiencyOf tp tc p' f = JS.of_Z n /\ efficiencyOf tp tc p f = JS.of_Z n' /\
       0 <= n <= n' /\ n' <= 100).
Proof.
  assert (Hmax : 10 <= MAX_VALUE) by (apply Z.leb_le; vm_compute; reflexivity).
  split; intros tp tc p p' f Htp Htc Hf Hp Hp'.
  - apply scores_ordered; try assumption; try lia.
    apply afterFocus_mono; try (apply of_Z_count; assumption);
      try (apply afterPomodoros_good; [apply afterTasks_good|]; apply of_Z_count; lia).
    apply afterPomodoros_rises; try lia. apply afterTasks_good; apply of_Z_count; lia.
  - apply scores_ordered; try assumption; try lia.
    apply afterFocus_mono; try (apply of_Z_count; assumption);
      try (apply afterPomodoros_good; [apply afterTasks_good|]; apply of_Z_count; lia).
    apply afterPomodoros_falls; try lia. apply afterTasks_good; apply of_Z_count; lia.
Qed.

Lemma pomodoros_help_up_to_ten_witness :
  (exists n n',
     efficiencyOf 4 2 3 50 = JS.of_Z n /\ efficiencyOf 4 2 8 50 = JS.of_Z n' /\
     0 <= n <= n' /\ n' <= 100) /\
  (exists n n',
     efficiencyOf 4 2 14 50 = JS.of_Z n /\ efficiencyOf 4 2 11 50 = JS.of_Z n' /\
     0 <= n <= n' /\ n' <= 100).
Proof.
  destruct pomodoros_help_up_to_ten as (Hup & Hdown). split.
  - apply (Hup 4 2 3 8 50);
      try lia; try (split; [lia|]); apply Z.leb_le; vm_compute; reflexivity.
  - apply (Hdown 4 2 11 14 50);
      try lia; try (split; [lia|]); apply Z.leb_le; vm_compute; reflexivity.
Defined.

Lemma max_cases k z : pos_valid k -> good z ->
  (JS.Math_max k z = z /\ leq k z) \/ (JS.Math_max k z = k /\ leq z k).
Proof.
  intros Hk [->|[Hz| ->]].
  - right. split; [destruct Hk as (m & e & -> & _); reflexivity|].
    apply leq_zero. right; left; assumption.
  - destruct (Qlt_le_dec (val k) (val z)) as [Hlt|Hle].
    + left. split; [|apply leq_val; try assumption; lra].
      assert (Vk := pos_valid_valid k Hk). assert (Vz := pos_valid_valid z Hz).
      unfold JS.Math_max.
      rewrite (SFcompare_val k z Vk Vz (pos_valid_finite _ Hk) (pos_valid_finite _ Hz)).
      destruct (Qcompare_spec (val k) (val z)) as [H|H|H]; [lra|reflexivity|lra].
    + right. split; [|apply leq_val; assumption].
      apply Math_max_left; [assumption|]. right; right. split; assumption.
  - left. split; [destruct Hk as (m & e & -> & _); reflexivity|].
    apply leq_inf. right; left; assumption.
Qed.

Lemma max_mono k z z' : pos_valid k -> good z -> good z' -> leq z z' ->
  leq (JS.Math_max k z) (JS.Math_max k z').
Proof.
  intros Hk Gz Gz' H. assert (Gk : good k) by (right; left; assumption).
  destruct (max_cases k z Hk Gz) as [[-> Hz]|[-> Hz]],
           (max_cases k z' Hk Gz') as [[-> Hz']|[-> Hz']]; auto.
  - apply (leq_trans z z' k); assumption.
  - apply leq_refl. assumption.
Qed.

Lemma max_ge k z : pos_valid k -> good z \/ neg_class z -> leq k (JS.Math_max k z).
Proof.
  intros Hk [Gz|Nz].
  - destruct (max_cases k z Hk Gz) as [[-> Hz]|[-> Hz]]; [assumption|].
    apply leq_refl. right; left; assumption.
  - rewrite Math_max_left by auto. apply leq_refl. right; left; assumption.
Qed.

Lemma max_good k z : pos_valid k -> good z \/ neg_class z -> good (JS.Math_max k z).
Proof.
  intros Hk Hz. destruct (Math_max_pos k z Hk Hz) as [H|H]; [right; left|right; right]; assumption.
Qed.

Lemma sub_zero_r c : pos_valid c -> JS.sub c (S754_zero false) = c.
Proof. intros (m & e & -> & _). reflexivity. Qed.

Lemma sub_inf_r c : pos_valid c -> neg_class (JS.sub c (S754_infinity false)).
Proof. intros (m & e & -> & _). exact I. Qed.

Lemma sub_le c y : pos_valid c -> good y -> good (JS.sub c y) -> leq (JS.sub c y) c.
Proof.
  intros Hc [->|[Hy| ->]] G.
  - rewrite sub_zero_r by assumption. apply leq_refl. right; left; assumption.
  - destruct (sub_cases c y Hc Hy) as [[_ H]|[[_ H]|[_ H]]].
    + apply (rnd_le _ _ H); [assumption|]. assert (H0 := pos_valid_val y Hy). lra.
    + unfold JS.sub. rewrite H. apply leq_zero. right; left; assumption.
    + exfalso. destruct G as [E|[(m & e & E & _)|E]];
        unfold JS.sub in E; rewrite E in H; exact H.
  - exfalso. assert (N := sub_inf_r c Hc).
    destruct G as [E|[(m & e & E & _)|E]]; rewrite E in N; exact N.
Qed.

(** [max(k, c - y)] shrinks as [y] grows. *)
Lemma max_sub_anti k c y y' : pos_valid k -> pos_valid c -> good y -> good y' -> leq y y' ->
  leq (JS.Math_max k (JS.sub c y')) (JS.Math_max k (JS.sub c y)).
Proof.
  intros Hk Hc Gy Gy' H.
  assert (Low : forall z, neg_class z \/ z = S754_zero false ->
            leq (JS.Math_max k z) (JS.Math_max k (JS.sub c y))).
  { intros z Hz. rewrite (Math_max_left k z) by (destruct Hz; auto).
    apply max_ge; [assumption|]. apply sub_good; assumption. }
  destruct (leq_cases y y' Gy Gy' H) as [->|[->|(Py & Py' & Hv)]].
  - destruct (sub_good c y' Hc Gy') as [G|N]; [|apply Low; auto].
    rewrite (sub_zero_r c Hc). apply max_mono; try assumption; [right; left; assumption|].
    apply sub_le; assumption.
  - apply Low. left. apply sub_inf_r. assumption.
  - destruct (sub_cases c y' Hc Py') as [[Hlt _]|[[_ E]|[_ N]]].
    + apply max_mono; try assumption; try (eapply located_good; apply sub_located; try assumption; lra).
      apply (located_mono (val c - val y') (val c - val y));
        try (apply sub_located; try assumption; lra). lra.
    + apply Low. right. exact E.
    + apply Low. left. exact N.
Qed.

Lemma div_zero_l c : pos_valid c -> JS.div (S754_zero false) c = S754_zero false.
Proof. intros (m & e & -> & _). reflexivity. Qed.

Lemma div_inf_l c : pos_valid c -> JS.div (S754_infinity false) c = S754_infinity false.
Proof. intros (m & e & -> & _). reflexivity. Qed.

(** Division by a positive constant is monotone. *)
Lemma div_mono x y c : good x -> good y -> leq x y -> pos_valid c ->
  leq (JS.div x c) (JS.div y c).
Proof.
  intros Gx Gy H Hc.
  destruct (leq_cases x y Gx Gy H) as [->|[->|(Px & Py & Hv)]].
  - rewrite div_zero_l by assumption. apply leq_zero. apply div_good; assumption.
  - rewrite div_inf_l by assumption. apply leq_inf. apply div_good; assumption.
  - apply (located_mono (val x / val c) (val y / val c)); try (apply div_located; assumption).
    apply Qmult_le_compat_r; [assumption|]. apply Qlt_le_weak. apply Qinv_lt_0_compat.
    apply pos_valid_val. assumption.
Qed.

Lemma of_Z_lt a b : 0 < a < b -> b < 2 ^ 53 -> JS.ltb (JS.of_Z a) (JS.of_Z b) = true.
Proof.
  intros Hab Hb.
  destruct (of_Z_exact a ltac:(lia)) as [Pa Va]. destruct (of_Z_exact b ltac:(lia)) as [Pb Vb].
  unfold JS.ltb. apply SFltb_val; valid_side. rewrite Va, Vb. rewrite <- Zlt_Qlt. lia.
Qed.

(** The focus sub-score rises up to 360 minutes and falls after. *)
Lemma focusScore_rises f f' : 1 <= f <= f' -> f' <= 360 ->
  leq (focusScore (JS.of_Z f)) (focusScore (JS.of_Z f')).
Proof.
  intros Hf Hf'.
  assert (Hmax : 360 <= MAX_VALUE) by (apply Z.leb_le; vm_compute; reflexivity).
  destruct (Z_lt_ge_dec f' 120) as [Hlo|Hhi].
  - unfold focusScore. rewrite !of_Z_lt by lia.
    assert (P120 : pos_valid (JS.of_Z 120)) by const_valid.
    assert (P100 : pos_valid (JS.of_Z 100)) by const_valid.
    apply mul_mono; try assumption; try (apply div_good_pos; try assumption; apply of_Z_pos_valid; lia).
    apply div_mono; try assumption; try (apply of_Z_good; lia).
    apply of_Z_mono; lia.
  - rewrite (focusScore_ideal f') by lia. apply subscore_le_100.
    apply focusScore_subscore. lia.
Qed.

Lemma focusScore_above f : 360 < f <= MAX_VALUE ->
  focusScore (JS.of_Z f) =
  JS.Math_max (JS.of_Z 80)
    (JS.sub (JS.of_Z 100)
       (JS.mul (JS.div (JS.sub (JS.of_Z f) (JS.of_Z 360)) (JS.of_Z 60)) (JS.of_Z 3))).
Proof.
  intros Hf.
  const_facts 120 as P120 V120. const_facts 360 as P360 V360. const_facts 361 as P361 V361.
  assert (Pf := of_Z_pos_valid f ltac:(lia)).
  assert (Hf361 : at_least (val (JS.of_Z 361)) (JS.of_Z f)).
  { apply of_Z_at_least; [lia|assumption|]. rewrite V361.
    change (361 # 1)%Q with (inject_Z 361). rewrite <- Zle_Qle. lia. }
  unfold focusScore.
  rewrite (ltb_false_at_least (JS.of_Z 120) _ P120)
    by (apply (at_least_weaken (val (JS.of_Z 361))); [lra|exact Hf361]).
  rewrite (gtb_true (JS.of_Z 360) _ _ P360 Hf361) by lra.
  reflexivity.
Qed.

Lemma focusScore_falls f f' : 360 <= f <= f' -> f' <= MAX_VALUE ->
  leq (focusScore (JS.of_Z f')) (focusScore (JS.of_Z f)).
Proof.
  intros Hf Hf'.
  destruct (Z.eq_dec f 360) as [->|Hne].
  - rewrite (focusScore_ideal 360) by lia. apply subscore_le_100.
    apply focusScore_subscore. lia.
  - rewrite !focusScore_above by lia.
    const_facts 360 as P360 V360. const_facts 361 as P361 V361.
    assert (P60 : pos_valid (JS.of_Z 60)) by const_valid.
    assert (P3 : pos_valid (JS.of_Z 3)) by const_valid.
    assert (S : forall g, 360 < g <= MAX_VALUE ->
              located (val (JS.of_Z g) - val (JS.of_Z 360)) (JS.sub (JS.of_Z g) (JS.of_Z 360)) /\
              (inject_Z 361 <= val (JS.of_Z g))%Q).
    { intros g Hg. assert (Pg := of_Z_pos_valid g ltac:(lia)).
      assert (Hv : (inject_Z 361 <= val (JS.of_Z g))%Q).
      { change (inject_Z 361) with (361 # 1)%Q. rewrite <- V361.
        apply of_Z_ge; [assumption|lia|]. rewrite V361.
        change (361 # 1)%Q with (inject_Z 361). rewrite <- Zle_Qle. lia. }
      split; [|assumption]. apply sub_located; try assumption.
      rewrite V360. change (inject_Z 361) with 361%Q in Hv. lra. }
    destruct (S f ltac:(lia)) as [Lf _]. destruct (S f' ltac:(lia)) as [Lf' _].
    assert (Gf := located_good _ _ Lf). assert (Gf' := located_good _ _ Lf').
    apply max_sub_anti; try const_valid;
      try (apply mul_good; [apply div_good|]; assumption).
    apply mul_mono; try assumption; try (apply div_good; assumption).
    apply div_mono; try assumption.
    apply (located_mono _ _ _ _ Lf Lf').
    assert (H := of_Z_mono f f' ltac:(lia) ltac:(lia)).
    apply leq_val in H; try (apply of_Z_pos_valid; lia). lra.
Qed.

Lemma afterFocus_rises e f f' : good e -> 0 <= f <= f' -> f' <= 360 ->
  leq (afterFocus e (JS.of_Z f)) (afterFocus e (JS.of_Z f')).
Proof.
  intros Ge Hf Hf'.
  assert (Hmax : 360 <= MAX_VALUE) by (apply Z.leb_le; vm_compute; reflexivity).
  assert (G : forall q, 0 < q <= 360 -> good (JS.mul (focusScore (JS.of_Z q)) w30)).
  { intros q Hq. apply mul_good; [|exact w30_valid]. apply focusScore_good.
    apply of_Z_pos_valid. lia. }
  destruct (Z.eq_dec f' 0) as [->|Hf'0].
  - replace f with 0 by lia. apply leq_refl. assumption.
  - rewrite (afterFocus_active e f') by lia.
    destruct (Z.eq_dec f 0) as [->|Hf0].
    + change (afterFocus e (JS.of_Z 0)) with e. apply add_ge_l_good; [assumption|].
      apply G. lia.
    + rewrite (afterFocus_active e f) by lia.
      apply add_mono_r; try assumption; try (apply G; lia).
      apply mul_mono; try exact w30_valid;
        try (apply focusScore_good; apply of_Z_pos_valid; lia).
      apply focusScore_rises; lia.
Qed.

Lemma afterFocus_falls e f f' : good e -> 360 <= f <= f' -> f' <= MAX_VALUE ->
  leq (afterFocus e (JS.of_Z f')) (afterFocus e (JS.of_Z f)).
Proof.
  intros Ge Hf Hf'.
  rewrite !afterFocus_active by lia.
  assert (G : forall q, 360 <= q <= MAX_VALUE -> good (focusScore (JS.of_Z q))).
  { intros q Hq. apply focusScore_good. apply of_Z_pos_valid. lia. }
  apply add_mono_r; try assumption; try (apply mul_good; [apply G; lia|exact w30_valid]).
  apply mul_mono; try exact w30_valid; try (apply G; lia).
  apply focusScore_falls; lia.
Qed.

(** X22: up to 360 minutes more focus time never lowers the score, and from
    360 minutes on more never raises it. *)
Theorem focus_helps_up_to_six_hours :
  (forall tp tc p f f' : Z,
     0 <= tp <= MAX_VALUE -> 0 <= tc <= MAX_VALUE -> 0 <= p <= MAX_VALUE ->
     0 <= f <= f' -> f' <= 360 ->
     exists n n',
       efficiencyOf tp tc p f = JS.of_Z n /\ efficiencyOf tp tc p f' = JS.of_Z n' /\
       0 <= n <= n' /\ n' <= 100) /\
  (forall tp tc p f f' : Z,
     0 <= tp <= MAX_VALUE -> 0 <= tc <= MAX_VALUE -> 0 <= p <= MAX_VALUE ->
     360 <= f <= f' -> f' <= MAX_VALUE ->
     exists n n',
       efficiencyOf tp tc p f' = JS.of_Z n /\ efficiencyOf tp tc p f = JS.of_Z n' /\
       0 <= n <= n' /\ n' <= 100).
Proof.
  assert (Hmax : 360 <= MAX_VALUE) by (apply Z.leb_le; vm_compute; reflexivity).
  split; intros tp tc p f f' Htp Htc Hp Hf Hf'.
  - apply scores_ordered; try assumption; try lia.
    apply afterFocus_rises; try lia.
    apply afterPomodoros_good; [apply afterTasks_good|]; apply of_Z_count; lia.
  - apply scores_ordered; try assumption; try lia.
    apply afterFocus_falls; try lia.
    apply afterPomodoros_good; [apply afterTasks_good|]; apply of_Z_count; lia.
Qed.

Lemma focus_helps_up_to_six_hours_witness :
  (exists n n',
     efficiencyOf 4 2 3 100 = JS.of_Z n /\ efficiencyOf 4 2 3 300 = JS.of_Z n' /\
     0 <= n <= n' /\ n' <= 100) /\
  (exists n n',
     efficiencyOf 4 2 3 500 = JS.of_Z n /\ efficiencyOf 4 2 3 400 = JS.of_Z n' /\
     0 <= n <= n' /\ n' <= 100).
Proof.
  destruct focus_helps_up_to_six_hours as (Hup & Hdown). split.
  - apply (Hup 4 2 3 100 300);
      try lia; try (split; [lia|]); apply Z.leb_le; vm_compute; reflexivity.
  - apply (Hdown 4 2 3 400 500);
      try lia; try (split; [lia|]); apply Z.leb_le; vm_compute; reflexivity.
Defined.

Lemma taskScore_full tp tc : 1 <= tp <= tc -> tc <= MAX_VALUE ->
  taskScore (JS.of_Z tp) (JS.of_Z tc) = JS.of_Z 100.
Proof.
  intros Htp Htc.
  assert (Ptp := of_Z_pos_valid tp ltac:(lia)). assert (Ptc := of_Z_pos_valid tc ltac:(lia)).
  assert (H := of_Z_mono tp tc ltac:(lia) Htc). apply leq_val in H; try assumption.
  const_facts 1 as P1 V1. const_facts 100 as P100 V100.
  assert (H0 := pos_valid_val _ Ptp).
  unfold taskScore. rewrite gtb_0_pos by assumption.
  apply Math_min_left; [assumption|].
  apply (mul_at_least (val (JS.of_Z 1))); try assumption; [rewrite V1; lra| |rewrite V1, V100; lra].
  apply (rounded_lower (val (JS.of_Z tc) / val (JS.of_Z tp))); [apply div_rounded; assumption|assumption|].
  rewrite V1. apply Qle_shift_div_l; [assumption|]. lra.
Qed.

(** X23: a day within both ideal bands on which every planned task is done
    (or, with nothing planned, at least five tasks are done) scores 100. *)
Theorem ideal_day_scores_100 :
  forall tp tc p f : Z,
  (1 <= tp <= tc \/ (tp = 0 /\ 5 <= tc)) -> tc <= MAX_VALUE ->
  6 <= p <= 10 -> 120 <= f <= 360 ->
  efficiencyOf tp tc p f = JS.of_Z 100.
Proof.
  intros tp tc p f Ht Htc Hp Hf.
  assert (Hmax : 360 <= MAX_VALUE) by (apply Z.leb_le; vm_compute; reflexivity).
  rewrite efficiencyOf_active by lia.
  rewrite afterTasks_active by lia.
  rewrite afterPomodoros_active by lia. rewrite afterFocus_active by lia.
  rewrite pomodoroScore_ideal by lia. rewrite focusScore_ideal by lia.
  assert (E : taskScore (JS.of_Z tp) (JS.of_Z tc) = JS.of_Z 100).
  { destruct Ht as [Ht|[-> Ht]].
    - apply taskScore_full; assumption.
    - rewrite taskScore_unplanned by lia. f_equal. lia. }
  rewrite E. vm_compute. reflexivity.
Qed.

Lemma ideal_day_scores_100_witness :
  efficiencyOf 3 3 8 240 = JS.of_Z 100 /\ efficiencyOf 0 5 6 120 = JS.of_Z 100.
Proof.
  split.
  - apply (ideal_day_scores_100 3 3 8 240); try lia.
    apply Z.leb_le. vm_compute. reflexivity.
  - apply (ideal_day_scores_100 0 5 6 120); try lia.
    apply Z.leb_le. vm_compute. reflexivity.
Defined.

(** ** The completion rate of the insights function *)

Lemma rate_subscore c n : 0 <= c <= n -> 1 <= n <= MAX_VALUE ->
  subscore (JS.mul (JS.div (JS.of_Z c) (JS.of_Z n)) (JS.of_Z 100)).
Proof.
  intros Hc Hn.
  assert (Pn := of_Z_pos_valid n ltac:(lia)).
  const_facts 1 as P1 V1. const_facts 100 as P100 V100.
  destruct (Z.eq_dec c 0) as [->|Hc0].
  - left. change (JS.of_Z 0) with (S754_zero false).
    rewrite div_zero_l by assumption. apply mul_zero_l. assumption.
  - assert (Pc := of_Z_pos_valid c ltac:(lia)).
    assert (H := of_Z_mono c n ltac:(lia) ltac:(lia)). apply leq_val in H; try assumption.
    assert (H0 := pos_valid_val _ Pn).
    assert (Q1 : at_most (val (JS.of_Z 1)) (JS.div (JS.of_Z c) (JS.of_Z n))).
    { apply (rounded_upper (val (JS.of_Z c) / val (JS.of_Z n)));
        [apply div_rounded; assumption|assumption|].
      rewrite V1. apply Qle_shift_div_r; [assumption|]. lra. }
    destruct Q1 as [E|[Pq Hq]].
    + left. rewrite E. apply mul_zero_l. assumption.
    + assert (R : at_most (val (JS.of_Z 100))
                    (JS.mul (JS.div (JS.of_Z c) (JS.of_Z n)) (JS.of_Z 100))).
      { apply (rounded_upper (val (JS.div (JS.of_Z c) (JS.of_Z n)) * val (JS.of_Z 100)));
          [apply mul_rounded; assumption|assumption|].
        assert (Hq0 := pos_valid_val _ Pq). rewrite V1 in Hq. rewrite V100. nra. }
      destruct R as [E|[PR HR]]; [left; assumption|right].
      split; [assumption|]. rewrite V100 in HR. assumption.
Qed.

Lemma rate_full n : 1 <= n <= MAX_VALUE ->
  JS.mul (JS.div (JS.of_Z n) (JS.of_Z n)) (JS.of_Z 100) = JS.of_Z 100.
Proof.
  intros Hn. assert (Pn := of_Z_pos_valid n ltac:(lia)).
  const_facts 1 as P1 V1. assert (H0 := pos_valid_val _ Pn).
  assert (E : JS.div (JS.of_Z n) (JS.of_Z n) = JS.of_Z 1).
  { apply (rounded_exact (val (JS.of_Z n) / val (JS.of_Z n)));
      [apply div_rounded; assumption|assumption|].
    rewrite V1. field. lra. }
  rewrite E. vm_compute. reflexivity.
Qed.

Lemma filter_all {A} (f : A -> bool) l : Forall (fun x => f x = true) l -> filter f l = l.
Proof.
  induction 1 as [|x l Hx _ IH]; [reflexivity|]. cbn [filter]. rewrite Hx, IH. reflexivity.
Qed.

(** X24: the completion rate sent to the insights model, once rounded, is an
    integer between 0 and 100; it is 100 when every task is completed and 0
    when there is no task. *)
Theorem completionRate_percent :
  forall tasks : list TaskRow,
  Z.of_nat (length tasks) <= MAX_VALUE ->
  (exists n, JS.Math_round (AnalyticsInsights.completionRate (Some tasks)) = JS.of_Z n /\
             0 <= n <= 100) /\
  (tasks <> [] -> Forall (fun t => completed t = true) tasks ->
   JS.Math_round (AnalyticsInsights.completionRate (Some tasks)) = JS.of_Z 100) /\
  JS.Math_round (AnalyticsInsights.completionRate (Some [])) = JS.of_Z 0 /\
  JS.Math_round (AnalyticsInsights.completionRate None) = JS.of_Z 0.
Proof.
  intros tasks Hlen.
  split; [|split; [|split; reflexivity]].
  - destruct tasks as [|t l]; [exists 0; split; [reflexivity|lia]|].
    unfold AnalyticsInsights.completionRate.
    set (all := t :: l) in *.
    assert (Hn : 1 <= Z.of_nat (length all)) by (unfold all; cbn [length]; lia).
    assert (Hc : 0 <= Z.of_nat (length (filter completed all)) <= Z.of_nat (length all)).
    { split; [lia|]. apply inj_le. apply filter_length_le. }
    destruct (rate_subscore _ _ Hc ltac:(lia)) as [E|[P V]].
    + exists 0. unfold JS.mul, JS.div in E |- *. rewrite E. split; [reflexivity|lia].
    + destruct (Math_round_range _ (or_intror P) V) as (k & Hk & Ek).
      exists k. split; assumption.
  - intros Hne Hall. destruct tasks as [|t l]; [contradiction|].
    unfold AnalyticsInsights.completionRate. rewrite (filter_all _ _ Hall).
    set (all := t :: l) in *.
    assert (Hn : 1 <= Z.of_nat (length all)) by (unfold all; cbn [length]; lia).
    rewrite rate_full by lia. reflexivity.
Qed.

Lemma completionRate_percent_witness :
  JS.Math_round (AnalyticsInsights.completionRate (Some [sampleTask])) = JS.of_Z 0 /\
  JS.Math_round
    (AnalyticsInsights.completionRate (Some [set_completed true sampleTask])) = JS.of_Z 100.
Proof.
  split.
  - reflexivity.
  - apply (completionRate_percent [set_completed true sampleTask]).
    + apply Z.leb_le. vm_compute. reflexivity.
    + discriminate.
    + repeat constructor.
Defined.

(** ** The streak and the calendar week *)

Lemma startOf_span zone : regular zone -> forall d n, 0 <= n ->
  23 * 3600000 * n <= startOf zone (d + n) - startOf zone d <= 25 * 3600000 * n.
Proof.
  intros [_ Hlen] d n Hn. revert n Hn. apply natlike_ind.
  - rewrite Z.add_0_r. lia.
  - intros n Hn IH. specialize (Hlen (d + n)).
    replace (d + Z.succ n) with (d + n + 1) by lia. lia.
Qed.

Lemma startOf_lt zone d d' : regular zone -> d < d' -> startOf zone d < startOf zone d'.
Proof.
  intros Hz Hd. pose proof (startOf_span zone Hz d (d' - d) ltac:(lia)) as H.
  replace (d + (d' - d)) with d' in H by lia. lia.
Qed.

Lemma startOf_inj zone d d' : regular zone -> startOf zone d = startOf zone d' -> d = d'.
Proof.
  intros Hz E. destruct (Z.lt_trichotomy d d') as [H|[H|H]]; [|assumption|];
    apply (startOf_lt zone _ _ Hz) in H; lia.
Qed.

Lemma fixedOffset_regular offset : regular (fixedOffset offset).
Proof.
  split; intros d; cbn [dayOf startOf fixedOffset].
  - replace (d * Analytics.MS_PER_DAY - offset + offset) with (d * Analytics.MS_PER_DAY) by lia.
    apply Z.div_mul. discriminate.
  - unfold Analytics.MS_PER_DAY. lia.
Qed.

Lemma springForward_regular : regular springForward.
Proof.
  split; intros d; cbn [dayOf startOf springForward]; unfold Analytics.MS_PER_DAY.
  - destruct (Z.leb_spec d 20541).
    + destruct (Z.ltb_spec (d * (1000 * 60 * 60 * 24) - 3600000)
                           (20541 * (1000 * 60 * 60 * 24) + 3600000)); [|lia].
      replace (d * (1000 * 60 * 60 * 24) - 3600000 + 3600000)
        with (d * (1000 * 60 * 60 * 24)) by lia.
      apply Z.div_mul. discriminate.
    + destruct (Z.ltb_spec (d * (1000 * 60 * 60 * 24) - 7200000)
                           (20541 * (1000 * 60 * 60 * 24) + 3600000)); [lia|].
      replace (d * (1000 * 60 * 60 * 24) - 7200000 + 7200000)
        with (d * (1000 * 60 * 60 * 24)) by lia.
      apply Z.div_mul. discriminate.
  - destruct (Z.leb_spec d 20541), (Z.leb_spec (d + 1) 20541); lia.
Qed.

Lemma countStreak_run zone rows : regular zone -> forall day rest,
  active_run zone day rows -> run_ends zone (day - Z.of_nat (length rows)) rest ->
  Analytics.countStreak zone (startOf zone day) (rows ++ rest) = Z.of_nat (length rows).
Proof.
  intros Hz. induction rows as [|stat rows IH]; intros day rest Hrun Hend.
  - cbn [app length Z.of_nat] in *. rewrite Z.sub_0_r in Hend.
    destruct rest as [|stat rest]; [reflexivity|]. cbn [Analytics.countStreak].
    unfold Analytics.setHours0. fold (statDay zone stat).
    destruct Hend as [Hd|Ha].
    + destruct (Z.eqb_spec (startOf zone (statDay zone stat)) (startOf zone day)) as [E|];
        [|reflexivity].
      apply startOf_inj in E; [contradiction|assumption].
    + rewrite Ha. destruct (_ =? _); reflexivity.
  - destruct Hrun as (Hd & Ha & Hrun). cbn [app Analytics.countStreak].
    unfold Analytics.setHours0. fold (statDay zone stat).
    rewrite Hd, Z.eqb_refl, Ha.
    unfold Analytics.setDateBack. rewrite (proj1 Hz day).
    rewrite (IH (day - 1) rest Hrun).
    + cbn [length]. lia.
    + cbn [length] in Hend. replace (day - 1 - Z.of_nat (length rows))
        with (day - Z.of_nat (S (length rows))) by lia. assumption.
Qed.

Lemma countStreak_bounds zone rows : forall expectedDate,
  0 <= Analytics.countStreak zone expectedDate rows <= Z.of_nat (length rows).
Proof.
  induction rows as [|stat rows IH]; intros expectedDate;
    cbn [Analytics.countStreak length].
  - lia.
  - destruct (_ =? _); [|lia]. destruct (Analytics.active stat); [|lia].
    specialize (IH (Analytics.setDateBack zone expectedDate)). lia.
Qed.

(** The guard of the streak in terms of days: the number of whole days
    between two local midnights. *)
Lemma days_since_le_1 zone d d' : regular zone -> d' - d <= 1 ->
  (startOf zone d' - startOf zone d) / Analytics.MS_PER_DAY <= 1.
Proof.
  intros Hz Hd.
  assert (H : startOf zone d' - startOf zone d < 2 * Analytics.MS_PER_DAY).
  { destruct (Z.le_gt_cases d' d) as [Hle|Hgt].
    - assert (startOf zone d' <= startOf zone d).
      { destruct (Z.eq_dec d' d) as [->|]; [lia|].
        apply Z.lt_le_incl. apply startOf_lt; [assumption|lia]. }
      unfold Analytics.MS_PER_DAY. lia.
    - assert (d' = d + 1) by lia. subst d'.
      pose proof (proj2 Hz d). unfold Analytics.MS_PER_DAY. lia. }
  assert ((startOf zone d' - startOf zone d) / Analytics.MS_PER_DAY < 2).
  { apply Z.div_lt_upper_bound; [reflexivity|]. lia. }
  lia.
Qed.

Lemma days_since_ge_2 (today mostRecentDate : Z) :
  2 * Analytics.MS_PER_DAY <= today - mostRecentDate ->
  2 <= (today - mostRecentDate) / Analytics.MS_PER_DAY.
Proof.
  intros H. apply Z.div_le_lower_bound; [reflexivity|]. lia.
Qed.

(** X25: in a zone whose local days last 23 to 25 hours, the streak is the
    length of the run of consecutive active days that ends with the latest
    row, provided that row is dated no earlier than yesterday. *)
Theorem streak_counts_the_run :
  forall (zone : TimeZone) (now : Z) (mostRecent : StatRow) (run rest : list StatRow),
  regular zone ->
  let day := statDay zone mostRecent in
  dayOf zone now - day <= 1 ->
  active_run zone day (mostRecent :: run) ->
  run_ends zone (day - Z.of_nat (length (mostRecent :: run))) rest ->
  Analytics.currentStreak zone now (Some ((mostRecent :: run) ++ rest)) =
  Z.of_nat (length (mostRecent :: run)).
Proof.
  intros zone now mostRecent run rest Hz day Hday Hrun Hend.
  unfold Analytics.currentStreak. cbn [app]. cbv zeta.
  unfold Analytics.setHours0 at 1 2 3. fold (statDay zone mostRecent). fold day.
  pose proof (days_since_le_1 zone day (dayOf zone now) Hz Hday) as Hg.
  destruct (Z.leb_spec ((startOf zone (dayOf zone now) - startOf zone day)
                        / Analytics.MS_PER_DAY) 1); [|lia].
  apply (countStreak_run zone (mostRecent :: run) Hz day rest); assumption.
Qed.

Lemma streak_counts_the_run_witness :
  Analytics.currentStreak (fixedOffset 3600000) 43200000
    (Some [sampleRow; yesterdayRow]) = 2.
Proof.
  apply (streak_counts_the_run (fixedOffset 3600000) 43200000 sampleRow [yesterdayRow] []).
  - apply fixedOffset_regular.
  - vm_compute. discriminate.
  - repeat split.
  - exact I.
Defined.

(** X26: there is no streak without rows, when the latest row shows no
    activity, or when the start of today is 48 hours or more after the
    start of the day of the latest row; in a zone whose local days last 23
    to 25 hours that is so when the latest row is three or more days old,
    and in a zone with one offset when it is two or more days old.  Across
    a spring-forward change a row two days old still counts.  A streak
    never exceeds the number of rows. *)
Theorem streak_lost :
  (forall (zone : TimeZone) (now : Z),
     Analytics.currentStreak zone now None = 0 /\
     Analytics.currentStreak zone now (Some []) = 0 /\
     (forall mostRecent rest,
        Analytics.active mostRecent = false ->
        Analytics.currentStreak zone now (Some (mostRecent :: rest)) = 0) /\
     (forall mostRecent rest,
        2 * Analytics.MS_PER_DAY <=
          Analytics.setHours0 zone now -
          Analytics.setHours0 zone (Analytics.newDate (stat_date mostRecent)) ->
        Analytics.currentStreak zone now (Some (mostRecent :: rest)) = 0) /\
     (forall rows,
        0 <= Analytics.currentStreak zone now (Some rows) <= Z.of_nat (length rows))) /\
  (forall (zone : TimeZone) (now : Z) mostRecent rest,
     regular zone ->
     3 <= dayOf zone now - statDay zone mostRecent ->
     Analytics.currentStreak zone now (Some (mostRecent :: rest)) = 0) /\
  (forall (offset now : Z) mostRecent rest,
     2 <= dayOf (fixedOffset offset) now - statDay (fixedOffset offset) mostRecent ->
     Analytics.currentStreak (fixedOffset offset) now (Some (mostRecent :: rest)) = 0) /\
  (dayOf springForward (20542 * Analytics.MS_PER_DAY + 36000000) -
     statDay springForward (rowOn 20540) = 2 /\
   Analytics.currentStreak springForward (20542 * Analytics.MS_PER_DAY + 36000000)
     (Some [rowOn 20540]) = 1).
Proof.
  assert (Hfar : forall zone now mostRecent rest,
    2 * Analytics.MS_PER_DAY <=
      Analytics.setHours0 zone now -
      Analytics.setHours0 zone (Analytics.newDate (stat_date mostRecent)) ->
    Analytics.currentStreak zone now (Some (mostRecent :: rest)) = 0).
  { intros zone now mostRecent rest H. unfold Analytics.currentStreak. cbv zeta.
    apply days_since_ge_2 in H.
    destruct (Z.leb_spec
      ((Analytics.setHours0 zone now -
        Analytics.setHours0 zone (Analytics.newDate (stat_date mostRecent)))
       / Analytics.MS_PER_DAY) 1); [lia|reflexivity]. }
  split; [|split; [|split]].
  - intros zone now. split; [reflexivity|]. split; [reflexivity|]. split; [|split].
    + intros mostRecent rest H. unfold Analytics.currentStreak. cbv zeta.
      destruct (_ <=? _); [|reflexivity]. cbn [Analytics.countStreak].
      rewrite Z.eqb_refl, H. reflexivity.
    + apply Hfar.
    + intros [|mostRecent rest]; [cbn; lia|]. unfold Analytics.currentStreak. cbv zeta.
      destruct (_ <=? _); [apply countStreak_bounds|cbn [length]; lia].
  - intros zone now mostRecent rest Hz Hd. apply Hfar.
    unfold Analytics.setHours0. fold (statDay zone mostRecent).
    pose proof (startOf_span zone Hz (statDay zone mostRecent)
                  (dayOf zone now - statDay zone mostRecent) ltac:(lia)) as H.
    replace (statDay zone mostRecent + (dayOf zone now - statDay zone mostRecent))
      with (dayOf zone now) in H by lia.
    unfold Analytics.MS_PER_DAY. lia.
  - intros offset now mostRecent rest Hd. apply Hfar.
    unfold Analytics.setHours0. fold (statDay (fixedOffset offset) mostRecent).
    cbn [startOf fixedOffset]. unfold Analytics.MS_PER_DAY in *. lia.
  - split; vm_compute; reflexivity.
Qed.

Lemma streak_lost_witness :
  Analytics.currentStreak springForward (20543 * Analytics.MS_PER_DAY)
    (Some [rowOn 20540]) = 0 /\
  Analytics.currentStreak (fixedOffset 0) (20542 * Analytics.MS_PER_DAY)
    (Some [rowOn 20540]) = 0.
Proof.
  destruct streak_lost as (_ & Hthree & Htwo & _). split.
  - apply (Hthree springForward (20543 * Analytics.MS_PER_DAY) (rowOn 20540) []).
    + apply springForward_regular.
    + vm_compute. discriminate.
  - apply (Htwo 0 (20542 * Analytics.MS_PER_DAY) (rowOn 20540) []).
    vm_compute. discriminate.
Defined.
(** X27: the week the calendar loads starts on a Monday and holds the current
    date. *)
Theorem week_starts_on_monday :
  forall currentDate : Z,
  getDay (SmartCalendar.monday currentDate) = 1 /\
  SmartCalendar.monday currentDate <= currentDate <= SmartCalendar.endOfWeek currentDate.
Proof.
  intros d. unfold SmartCalendar.endOfWeek, SmartCalendar.monday, getDay.
  split; Z.to_euclidean_division_equations; lia.
Qed.
